(** * Patch extraction engine of specter (ex2d_patch_gpu / ex2d_patch_gpu_matrix)

    A shallow embedding of the two engine variants
    [specter/extract/ex2d_patch_gpu.py] (iterative least-squares solve) and
    [specter/extract/ex2d_patch_gpu_matrix.py] (direct solve), and of the
    helpers they share: [eigen_compose], [resolution_from_icov] and
    [split_bundle].

    Conventions of the embedding:
    - Python integers are [Z]; floating-point numbers are idealised as the
      real numbers [R] (exact arithmetic, no rounding);
    - a 1-D array is a [list], a 2-D array a list of rows;
    - a Python exception is a constructor of [pyerr]; code that can raise
      returns a [result];
    - library routines whose algorithm is not part of the repository
      (the symmetric eigensolver, the linear solvers, the PSF provider)
      are arguments of the functions that call them. *)

From Stdlib Require Import ZArith List Lia Bool Reals Lra.
Import ListNotations.

(** ** Exceptions *)

Inductive pyerr : Type :=
| ValueError
| IndexError
| RuntimeError
| NameError
| OverflowError.

Inductive result (A : Type) : Type :=
| Ok (a : A)
| Raise (e : pyerr).

Arguments Ok {A} a.
Arguments Raise {A} e.

Definition bind {A B : Type} (r : result A) (k : A -> result B) : result B :=
  match r with
  | Ok a => k a
  | Raise e => Raise e
  end.

Notation "x <- r ;; k" := (bind r (fun x => k))
  (at level 61, r at next level, right associativity).

(** ** Python and numpy primitives on integer arrays *)

Module Py.

Open Scope Z_scope.

(** [np.arange(lo, hi)] on integers. *)
Definition arange (lo hi : Z) : list Z :=
  map (fun k => lo + Z.of_nat k) (seq 0 (Z.to_nat (hi - lo))).

(** [range(start, stop, step)]: empty for a negative step and a start
    below the stop, [ValueError] for a zero step. *)
Definition range_len (start stop step : Z) : Z :=
  if 0 <? step then
    (if start <? stop then (stop - start - 1) / step + 1 else 0)
  else
    (if stop <? start then (start - stop - 1) / (- step) + 1 else 0).

Definition range3 (start stop step : Z) : result (list Z) :=
  if step =? 0 then Raise ValueError
  else Ok (map (fun k => start + Z.of_nat k * step)
               (seq 0 (Z.to_nat (range_len start stop step)))).

(** [len(a)] *)
Definition len {A : Type} (a : list A) : Z := Z.of_nat (length a).

(** [a[i]] for [0 <= i < len(a)] with default [d] elsewhere; used where
    the source has established the index to be in range. *)
Definition get {A : Type} (d : A) (a : list A) (i : Z) : A :=
  nth (Z.to_nat i) a d.

(** [a[i] = x] *)
Fixpoint set_nth {A : Type} (k : nat) (x : A) (a : list A) : list A :=
  match a, k with
  | [], _ => []
  | _ :: t, O => x :: t
  | h :: t, S k' => h :: set_nth k' x t
  end.

Definition set {A : Type} (a : list A) (i : Z) (x : A) : list A :=
  set_nth (Z.to_nat i) x a.

(** The index a slice bound denotes on an axis of length [n]: negative
    bounds count from the end, and every bound is clipped to [0, n]. *)
Definition clip (n i : Z) : Z :=
  if i <? 0 then Z.max (i + n) 0 else Z.min i n.

(** [a[lo:hi]] *)
Definition slice {A : Type} (lo hi : Z) (a : list A) : list A :=
  let n := len a in
  let l := clip n lo in
  let h := clip n hi in
  firstn (Z.to_nat (h - l)) (skipn (Z.to_nat l) a).

(** The indices selected by [lo:hi] on an axis of length [n]. *)
Definition slice_indices (n lo hi : Z) : list Z :=
  arange (clip n lo) (clip n hi).

(** [a[mask]] for a boolean [mask]: the lengths must agree. *)
Fixpoint select {A : Type} (mask : list bool) (a : list A) : list A :=
  match mask, a with
  | b :: m, x :: t => if b then x :: select m t else select m t
  | _, _ => []
  end.

Definition mask_index {A : Type} (a : list A) (mask : list bool)
  : result (list A) :=
  if Nat.eqb (length mask) (length a) then Ok (select mask a)
  else Raise IndexError.

Definition zsum (a : list Z) : Z := fold_right Z.add 0 a.

(** [a[i]] for an integer [i]: a negative index counts from the end, an
    index outside the array raises. *)
Definition index {A : Type} (a : list A) (i : Z) : result A :=
  let j := if i <? 0 then i + len a else i in
  if (0 <=? j) && (j <? len a) then
    match nth_error a (Z.to_nat j) with
    | Some x => Ok x
    | None => Raise IndexError
    end
  else Raise IndexError.

(** A loop body run over the items of an iterable, stopping at the first
    exception. *)
Fixpoint for_each {S I : Type} (body : S -> I -> result S) (items : list I)
  (st : S) : result S :=
  match items with
  | [] => Ok st
  | i :: rest =>
      match body st i with
      | Ok st' => for_each body rest st'
      | Raise e => Raise e
      end
  end.

End Py.

(** ** SubbundleSplitter: [split_bundle] *)

Module Split.

Import Py.
Open Scope Z_scope.

(** Section sizes of [np.array_split(np.arange(l), n)]: the first
    [l % n] sections have [l // n + 1] entries, the others [l // n];
    numpy refuses [n <= 0]. *)
Definition array_split_sizes (l n : Z) : result (list Z) :=
  if n <=? 0 then Raise ValueError
  else Ok (repeat (l / n + 1) (Z.to_nat (l mod n))
           ++ repeat (l / n) (Z.to_nat (n - l mod n))).

(** Body of the [while i < n-1] loop. *)
Definition swap_step (a : list Z) (i : Z) : list Z :=
  if get 0 a (i + 1) <? get 0 a i
  then set (set a (i + 1) (get 0 a i)) i (get 0 a (i + 1))
  else a.

(** [i = 0; while i < n-1: ...; i += 1]: the body leaves [i] and [n]
    alone, so the loop visits [i = 0, ..., n-2] in order. *)
Definition rearrange (n : Z) (a : list Z) : list Z :=
  fold_left swap_step (arange 0 (n - 1)) a.

(** [for nsub in n_per_subbundle: subbundles.append(arange(imin, imin+nsub)); imin += nsub] *)
Fixpoint populate (imin : Z) (sizes : list Z) : list (list Z) :=
  match sizes with
  | [] => []
  | nsub :: t => arange imin (imin + nsub) :: populate (imin + nsub) t
  end.

(** One [extract_subbundles] entry; [ii[0]] raises on an empty [ii]. *)
Definition extract_one (bundlesize : Z) (ii : list Z) : result (list Z) :=
  match ii with
  | [] => Raise IndexError
  | first :: _ =>
      let last_ := List.last ii 0 in
      let ipre := if 0 <? first then [first - 1] else [] in
      let ipost := if last_ <? bundlesize - 1 then [last_ + 1] else [] in
      Ok (ipre ++ ii ++ ipost)
  end.

Fixpoint extract_all (bundlesize : Z) (subs : list (list Z))
  : result (list (list Z)) :=
  match subs with
  | [] => Ok []
  | ii :: t =>
      e <- extract_one bundlesize ii ;;
      es <- extract_all bundlesize t ;;
      Ok (e :: es)
  end.

(** Python integers are unbounded; the index arrays of numpy hold 64-bit
    integers and [np.arange(bundlesize)] holds [bundlesize] of them.  The
    definition follows the source for the sizes at which numpy builds
    that array as the integers [0 .. bundlesize-1], which is far beyond
    the number of fibers of a bundle. *)
Definition split_bundle (bundlesize n : Z)
  : result (list (list Z) * list (list Z)) :=
  if bundlesize <? n then Raise ValueError
  else
    sizes <- array_split_sizes bundlesize n ;;
    let n_per_subbundle := rearrange n sizes in
    let subbundles := populate 0 n_per_subbundle in
    extract_subbundles <- extract_all bundlesize subbundles ;;
    Ok (subbundles, extract_subbundles).

End Split.

(** ** Dense real arrays

    Vectors and matrices of the numerical code.  A sparse matrix of the
    source ([scipy.sparse], [cupyx.scipy.sparse]) is the dense matrix with
    the same entries.  Operations on operands whose shapes do not fit
    read the missing entries as [0]; the source only applies them to
    operands that fit. *)

Module LA.

Import Py.
Open Scope R_scope.

Definition vec : Type := list R.
Definition mat : Type := list (list R).

Fixpoint zip_with {A B C : Type} (f : A -> B -> C) (a : list A) (b : list B)
  : list C :=
  match a, b with
  | x :: a', y :: b' => f x y :: zip_with f a' b'
  | _, _ => []
  end.

(** [a > b] and [a < b] as numpy computes them. *)
Definition gtb (a b : R) : bool := if Rlt_dec b a then true else false.
Definition ltb (a b : R) : bool := if Rlt_dec a b then true else false.
Definition leb (a b : R) : bool := if Rle_dec a b then true else false.
Definition neqb (a b : R) : bool := if Req_dec_T a b then false else true.

(** [np.sum(v)] *)
Definition rsum (v : vec) : R := fold_right Rplus 0 v.

(** [np.max(v)]: refuses an empty array. *)
Definition np_max (v : vec) : result R :=
  match v with
  | [] => Raise ValueError
  | x :: t => Ok (fold_left Rmax t x)
  end.

Definition dot (u v : vec) : R := rsum (zip_with Rmult u v).

Definition nrows (M : mat) : nat := length M.

Definition ncols (M : mat) : nat :=
  match M with
  | [] => O
  | r :: _ => length r
  end.

Definition col (j : nat) (M : mat) : vec := map (fun r => nth j r 0) M.

(** [M.T] *)
Definition transpose (M : mat) : mat :=
  map (fun j => col j M) (seq 0 (ncols M)).

(** [M.dot(x)] for a vector [x] *)
Definition matvec (M : mat) (x : vec) : vec := map (fun r => dot r x) M.

(** [A.dot(B)] *)
Definition matmul (A B : mat) : mat :=
  map (fun r => map (fun j => dot r (col j B)) (seq 0 (ncols B))) A.

(** [spdiags(d, 0, n, n)]: the [n] by [n] matrix with diagonal [d]. *)
Definition spdiags (d : vec) (n : nat) : mat :=
  map (fun i => map (fun j => if Nat.eqb i j then nth i d 0 else 0) (seq 0 n))
      (seq 0 n).

(** [M.diagonal()] *)
Definition diagonal (M : mat) : vec :=
  map (fun i => nth i (nth i M []) 0) (seq 0 (Nat.min (nrows M) (ncols M))).

(** [np.sum(M, axis=1)] and [M.sum(axis=0)] *)
Definition sum_axis1 (M : mat) : vec := map rsum M.
Definition sum_axis0 (M : mat) : vec :=
  map (fun j => rsum (col j M)) (seq 0 (ncols M)).

(** [np.outer(a, b)] *)
Definition np_outer (a b : vec) : mat :=
  map (fun x => map (fun y => x * y) b) a.

(** Elementwise product [A * B] *)
Definition hadamard (A B : mat) : mat := zip_with (zip_with Rmult) A B.

Definition madd (A B : mat) : mat := zip_with (zip_with Rplus) A B.
Definition mscale (c : R) (A : mat) : mat := map (map (Rmult c)) A.

Definition ones (n : nat) : vec := repeat 1 n.
Definition zeros (n : nat) : vec := repeat 0 n.
Definition zeros2 (r c : nat) : mat := repeat (zeros c) r.

(** [M.ravel()] *)
Definition ravel (M : mat) : vec := concat M.

Fixpoint chunks (r c : nat) (v : vec) : mat :=
  match r with
  | O => []
  | S r' => firstn c v :: chunks r' c (skipn c v)
  end.

(** [v.reshape((r, c))]: the sizes must agree; [r = -1] stands for the
    number of rows that makes them agree.  ([c] is a length in every
    call of the source.) *)
Definition reshape (r c : Z) (v : vec) : result mat :=
  if (r =? -1)%Z then
    if ((0 <? c) && (len v mod c =? 0))%Z
    then Ok (chunks (Z.to_nat (len v / c)) (Z.to_nat c) v)
    else Raise ValueError
  else if ((0 <=? r) && (0 <=? c) && (len v =? r * c))%Z
  then Ok (chunks (Z.to_nat r) (Z.to_nat c) v)
  else Raise ValueError.

(** The length of [np.ones(n)]: a negative [n] is refused. *)
Definition np_length (n : Z) : result nat :=
  if (n <? 0)%Z then Raise ValueError else Ok (Z.to_nat n).

(** [np.any(v)]: some entry is not zero. *)
Definition np_any (v : vec) : bool := existsb (fun x => neqb x 0) v.

(** [M[r0:r1, c0:c1]] *)
Definition slice2 (r0 r1 c0 c1 : Z) (M : mat) : mat :=
  map (slice c0 c1) (slice r0 r1 M).

(** Overwrite the entries of [row] at the column indices [cols] with the
    entries of [xs], in order. *)
Fixpoint put_cols (row : vec) (cols : list Z) (xs : vec) : vec :=
  match cols, xs with
  | c :: cols', x :: xs' => put_cols (set row c x) cols' xs'
  | _, _ => row
  end.

(** Overwrite the rows of [M] at the indices [rows], on the columns
    [cols], with the rows of [X]. *)
Fixpoint put_block (M : mat) (rows cols : list Z) (X : mat) : mat :=
  match rows, X with
  | r :: rows', x :: X' =>
      put_block (set M r (put_cols (get [] M r) cols x)) rows' cols X'
  | _, _ => M
  end.

(** The row of a right-hand side assigned to [c] columns: a row of one
    entry is broadcast. *)
Definition broadcast_row (c : nat) (x : vec) : result vec :=
  if Nat.eqb (length x) c then Ok x
  else if Nat.eqb (length x) 1 then Ok (repeat (nth 0 x 0) c)
  else Raise ValueError.

Fixpoint broadcast_rows (c : nat) (X : mat) : result mat :=
  match X with
  | [] => Ok []
  | x :: X' =>
      x' <- broadcast_row c x ;;
      X'' <- broadcast_rows c X' ;;
      Ok (x' :: X'')
  end.

(** [M[rows, c0:c1] = X] for an index array [rows]: [X] has one row per
    index and as many columns as the slice selects (or one, broadcast). *)
Definition assign_block (M : mat) (rows : list Z) (c0 c1 : Z) (X : mat)
  : result mat :=
  let cols := slice_indices (Z.of_nat (ncols M)) c0 c1 in
  if Nat.eqb (length X) (length rows) then
    X' <- broadcast_rows (length cols) X ;;
    Ok (put_block M rows cols X')
  else Raise ValueError.

(** [M[r0:r1, c0:c1] = X] *)
Definition assign_slice2 (M : mat) (r0 r1 c0 c1 : Z) (X : mat) : result mat :=
  assign_block M (slice_indices (Z.of_nat (nrows M)) r0 r1) c0 c1 X.

End LA.

(** ** The linear-algebra routines the engine calls

    [scipy.linalg.eigh] / [cupy.linalg.eigh] (eigenvalues and matrix of
    eigenvectors of a symmetric matrix), [cupy.linalg.solve] and
    [cupyx.scipy.sparse.linalg.lsqr] (first component of its result).

    They are arguments of the development: total functions on arrays of
    reals.  The routines of the source refuse an array with an entry
    that is not finite ([eigh] raises [ValueError] on [inf] or [nan]):
    the record stands for them on finite arrays, see [regular_blocks]. *)

Record Backend : Type := {
  eigh : LA.mat -> LA.vec * LA.mat;
  solve : LA.mat -> LA.vec -> LA.vec;
  lsqr : LA.mat -> LA.vec -> LA.vec
}.

(** ** ResolutionBuilder: [eigen_compose] and [resolution_from_icov]

    Both engine files carry the same text of these two functions. *)

Module Resolution.

Import Py LA.
Open Scope R_scope.

(** [sys.float_info.epsilon] for 64-bit floats. *)
Definition float_epsilon : R := / 2 ^ 52.

Definition threshold : R := 10 * float_epsilon.

(** The regularised eigenvalues [wscaled], one case per branch of the
    source.  Floats are read as exact reals.  Where the largest
    eigenvalue is [0] the source divides by [minval = 0] and [replace] is
    not finite, and the square root of a negative eigenvalue is [nan];
    the reals of Rocq give [1 / 0 = 0] and [sqrt x = 0] for [x < 0]
    there.  The definition is the source where [maxval] is positive and
    no square root of a negative number is taken, see [positive_max]. *)
Definition rescale (invert sqr : bool) (maxval : R) (w : vec) : vec :=
  if invert then
    if sqr then
      let minval := sqrt maxval * threshold in
      let replace := 1 / minval in
      let tempsqr := map sqrt w in
      map (fun t => if gtb t minval then 1 / t else replace) tempsqr
    else
      let minval := maxval * threshold in
      let replace := 1 / minval in
      map (fun x => if gtb x minval then 1 / x else replace) w
  else
    if sqr then
      let minval := sqrt maxval * threshold in
      let replace := minval in
      map (fun x => if gtb x minval then sqrt x else replace) w
    else
      let minval := maxval * threshold in
      let replace := minval in
      map (fun x => if gtb x minval then x else replace) w.

Definition eigen_compose (w : vec) (v : mat) (invert sqr : bool) : result mat :=
  let dim := length w in
  maxval <- np_max w ;;
  let wscaled := rescale invert sqr maxval w in
  let wdiag := spdiags wscaled dim in
  Ok (matmul v (matmul wdiag (transpose v))).

(** Modelled from the spec: [specter.util.outer], which the engine imports
    and whose source is not part of the files at hand.  The spec gives the
    resolution matrix as [diag(1/n) Q], and the line the call replaced
    reads [np.outer(norm_vector**(-1), np.ones(norm_vector.size))]: the
    outer product, written into [out]. *)
Definition outer (a b : vec) : mat := np_outer a b.

(** The [for b in decorr] loop. *)
Fixpoint decorr_blocks (la : Backend) (inverse sqrt_icov : mat) (offset : Z)
  (decorr : list Z) : result mat :=
  match decorr with
  | [] => Ok sqrt_icov
  | b :: rest =>
      let '(bw, bv) :=
        eigh la (slice2 offset (offset + b) offset (offset + b) inverse) in
      blk <- eigen_compose bw bv true true ;;
      sqrt_icov' <-
        assign_slice2 sqrt_icov offset (offset + b) offset (offset + b) blk ;;
      decorr_blocks la inverse sqrt_icov' (offset + b)%Z rest
  end.

(** The matrix [sqrt_icov] the function builds before it normalises. *)
Definition sqrt_icov_of (la : Backend) (icov : mat) (decorr : option (list Z))
  : result mat :=
  let icov := mscale (1 / 2) (madd icov (transpose icov)) in
  let '(w, v) := eigh la icov in
  let sqrt_icov := zeros2 (nrows icov) (ncols icov) in
  match decorr with
  | Some d =>
      if negb (zsum d =? Z.of_nat (nrows icov))%Z then Raise RuntimeError
      else
        inverse <- eigen_compose w v true false ;;
        decorr_blocks la inverse sqrt_icov 0%Z d
  | None => eigen_compose w v false true
  end.

(** [norm_vector**(-1)] is [map Rinv]: the reciprocal of a zero entry,
    which is not finite in the source, is [0] here, so a row of
    [sqrt_icov] that sums to [0] gives a row of [R] that is [inf * 0] in
    the source and [0] here.  The definition is the source on the rows
    whose entry of [norm_vector] is not zero. *)
Definition resolution_from_icov (la : Backend) (icov : mat)
  (decorr : option (list Z)) : result (mat * vec) :=
  sqrt_icov <- sqrt_icov_of la icov decorr ;;
  let norm_vector := sum_axis1 sqrt_icov in
  let R := hadamard (outer (map Rinv norm_vector)
                           (ones (length norm_vector)))
                    sqrt_icov in
  let ivar := map (fun n => n ^ 2) norm_vector in
  Ok (R, ivar).

End Resolution.

(** ** The PSF provider and the result of one patch *)

Module Psf.

Record PSF : Type := {
  wmin : R;
  wmax : R;
  wmin_all : R;
  wmax_all : R;
  psferr : R;
  (** [psf.wavelength(ispec, y)] *)
  wavelength : Z -> Z -> R;
  (** [psf.wdisp(ispec, w)] *)
  wdisp : Z -> R -> R;
  (** [psf.pix(ispec, w).shape] *)
  pix_shape : Z -> R -> nat * nat;
  (** [psf.xyrange(specrange, waverange)] = [(xmin, xmax, ymin, ymax)] *)
  xyrange : Z * Z -> R * R -> Z * Z * Z * Z;
  (** [psf.projection_matrix(specrange, wavelengths, xyrange, use_cache)] *)
  projection_matrix :
    Z * Z -> LA.vec -> Z * Z * Z * Z -> option bool -> LA.mat
}.

End Psf.

Abbreviation PSF := Psf.PSF.

Module Patch.

(** [results['options']] *)
Record Options : Type := {
  opt_specmin : Z;
  opt_nspec : Z;
  opt_wavelengths : LA.vec;
  opt_xyrange : Z * Z * Z * Z;
  opt_regularize : R;
  opt_ndecorr : bool
}.

(** The dictionary [results] of [ex2d_patch]. *)
Record PatchOut : Type := {
  flux : LA.mat;
  ivar : LA.mat;
  Rmat : LA.mat;
  xflux : LA.mat;
  Amat : LA.mat;
  iCov : LA.mat;
  options : Options
}.

End Patch.

Abbreviation PatchOut := Patch.PatchOut.


(** ** PatchPlanner and PatchStitcher: [ex2d]

    The two engine files differ in three places, gathered in [Variant]:
    the arguments of the call to [ex2d_patch], whether the band of the
    resolution matrix is filled without [full_output], and whether the
    patches are timed ([np.mean(deltat)] after the loop reads a name the
    loop body binds).  Console output, the [debug] session and the
    diagnostic arrays of [full_output] (model image, mask fraction,
    chi-square) are left out: they feed none of [flux], [ivar], [Rd]. *)

Module Engine.

Import Py LA.
Open Scope R_scope.

(** Conversions of a float to an integer. *)
Definition floor (x : R) : Z := Int_part x.
Definition ceil (x : R) : Z := (- Int_part (- x))%Z.

(** [int(x)] truncates toward zero. *)
Definition py_int (x : R) : Z := if Rle_dec 0 x then floor x else ceil x.

(** [round(x)] rounds to the nearest integer, ties to the even one. *)
Definition py_round (x : R) : Z :=
  let r := floor (x + / 2) in
  if Req_dec_T (IZR r) (x + / 2)
  then (if Z.even r then r else (r - 1)%Z)
  else r.

(** [np.arange(start, stop, step)] on floats. *)
Definition arange_f (start stop step : R) : vec :=
  map (fun k => start + INR k * step)
      (seq 0 (Z.to_nat (ceil ((stop - start) / step)))).

(** [np.diff(w)] *)
Definition diff (w : vec) : vec := zip_with Rminus (tl w) w.

(** [np.allclose(a, b)] with the default tolerances. *)
Definition rtol : R := 1e-5.
Definition atol : R := 1e-8.

Definition allclose (a : R) (b : vec) : bool :=
  forallb (fun x => leb (Rabs (a - x)) (atol + rtol * Rabs x)) b.

(** The first statements of [ex2d]: the step of the grid and the test
    that the grid is linear. *)
Definition check_grid (wavelengths : vec) : result R :=
  w1 <- index wavelengths 1 ;;
  w0 <- index wavelengths 0 ;;
  let dw := w1 - w0 in
  if negb (allclose dw (diff wavelengths)) then Raise ValueError
  else Ok dw.

(** [keep = np.ones(25, dtype=bool)] *)
Definition keep : list bool := repeat true 25.

(** [np.zeros((r, c))] refuses a negative dimension. *)
Definition np_zeros2 (r c : Z) : result mat :=
  if ((r <? 0) || (c <? 0))%Z then Raise ValueError
  else Ok (zeros2 (Z.to_nat r) (Z.to_nat c)).

Definition np_zeros3 (r b c : Z) : result (list mat) :=
  if ((r <? 0) || (b <? 0) || (c <? 0))%Z then Raise ValueError
  else Ok (repeat (zeros2 (Z.to_nat b) (Z.to_nat c)) (Z.to_nat r)).

(** [int(round(9.0*psf.wdisp(ispec, w) / dw))]: the quotient by a zero
    step is not finite, and its conversion raises. *)
Definition ndiag_term (psf : PSF) (dw : R) (ispec : Z) (w : R) : result Z :=
  if Req_dec_T dw 0 then
    (if Req_dec_T (Psf.wdisp psf ispec w) 0 then Raise ValueError
     else Raise OverflowError)
  else Ok (py_round (9 * Psf.wdisp psf ispec w / dw)).

Definition ndiag_of (psf : PSF) (specmin nspec : Z) (dw : R) : result Z :=
  let samples :=
    list_prod [specmin; (specmin + nspec / 2)%Z; (specmin + nspec - 1)%Z]
              [Psf.wmin psf; 0.5 * (Psf.wmin psf + Psf.wmax psf);
               Psf.wmax psf] in
  ndiag <- for_each (fun ndiag '(ispec, w) =>
                       t <- ndiag_term psf dw ispec w ;;
                       Ok (Z.max ndiag t))
                    samples 0%Z ;;
  let wmid := (Psf.wmin_all psf + Psf.wmax_all psf) / 2 in
  let spotsize := Psf.pix_shape psf 0%Z wmid in
  Ok (Z.min (Z.min ndiag (Z.of_nat (fst spotsize) / 2))
            (Z.of_nat (snd spotsize) / 2)).

(** The wavelength indices at which the patches start:
    [range(0, len(wavelengths), wavesize)]. *)
Definition patch_starts (nwave wavesize : Z) : result (list Z) :=
  range3 0 nwave wavesize.

(** The columns of [flux] and [ivar] that the patch starting at [iwave]
    assigns: [iwave:iwave+wavesize+1]. *)
Definition core_columns (nwave wavesize iwave : Z) : list Z :=
  slice_indices nwave iwave (iwave + wavesize + 1).

(** [np.gradient(w)] *)
Definition gradient (w : vec) : vec :=
  let n := length w in
  map (fun i =>
         if Nat.eqb i 0 then nth 1 w 0 - nth 0 w 0
         else if Nat.eqb i (n - 1) then nth (n - 1) w 0 - nth (n - 2) w 0
         else (nth (i + 1) w 0 - nth (i - 1) w 0) / 2)
      (seq 0 n).

(** [Rd[s, :, c] = colv] for one spectrum [Rd_s = Rd[s]]. *)
Definition fill_band (Rd_s : mat) (c : Z) (colv : vec) : result mat :=
  let n := Z.of_nat (ncols Rd_s) in
  let c' := if (c <? 0)%Z then (c + n)%Z else c in
  if ((0 <=? c') && (c' <? n))%Z then
    colv' <- broadcast_row (nrows Rd_s) colv ;;
    Ok (zip_with (fun row x => set row c' x) Rd_s colv')
  else Raise IndexError.

(** [Rx[a:b, j]] *)
Definition column_slice (Rx : mat) (a b j : Z) : result vec :=
  for_each (fun acc row => x <- index row j ;; Ok (acc ++ [x]))
           (slice a b Rx) [].

Record Variant : Type := {
  (** the call [ex2d_patch(subimg, subivar, psf, ...)], given the
      [regularize] and [ndecorr] of [ex2d] *)
  patch_call : R -> bool -> mat -> mat -> PSF -> Z -> Z -> vec
               -> Z * Z * Z * Z -> result PatchOut;
  (** the band of [Rd] is filled under [if full_output:] *)
  band_needs_full_output : bool;
  (** [np.mean(deltat)] follows the loop *)
  times_patches : bool
}.

Section Ex2d.

Variable variant : Variant.
Variables image imageivar : mat.
Variable psf : PSF.
Variables specmin nspec : Z.
Variable wavelengths : vec.
Variable xyrange : option (Z * Z * Z * Z).
Variable regularize : R.
Variable ndecorr : bool.
Variable wavesize : Z.
Variable full_output : bool.

Let speclo : Z := specmin.
Let spechi : Z := (specmin + nspec)%Z.
Let specrange : Z * Z := (speclo, spechi).
Let nwave : Z := len wavelengths.

(** The band of one spectrum: the inner [for j in range(nlo, nw-nhi)]. *)
Definition fill_spectrum (R : mat) (nw nlo nhi ndiag iwave : Z)
  (Rd : list mat) (ispec : Z) : result (list mat) :=
  let lo := (nw * (ispec - speclo))%Z in
  let hi := (nw * (ispec - speclo + 1))%Z in
  let Rx := slice2 lo hi lo hi R in
  Rd_s <- index Rd (ispec - specmin) ;;
  Rd_s' <- for_each (fun acc j =>
                       colv <- column_slice Rx (j - ndiag) (j + ndiag + 1) j ;;
                       fill_band acc (iwave + j - nlo) colv)
                    (arange nlo (nw - nhi)) Rd_s ;;
  Ok (set_nth (Z.to_nat (if (ispec - specmin <? 0)%Z
                         then ispec - specmin + len Rd
                         else ispec - specmin)) Rd_s' Rd).

(** The first half of the loop body, up to the call of [ex2d_patch]:
    the core wavelengths, the sub-image, the border bins [nlo] and [nhi]
    and the wavelengths [ww] of the patch. *)
Definition patch_extraction (dw : R) (ndiag : Z) (iwave : Z)
  : result PatchOut :=
  wlo <- index wavelengths iwave ;;
  whi <- (if (iwave + wavesize <? nwave)%Z
          then index wavelengths (iwave + wavesize)
          else index wavelengths (-1)) ;;
  let '(xlo, xhi, ylo, yhi) := Psf.xyrange psf specrange (wlo, whi) in
  let crop :=
    match xyrange with
    | None => slice2 ylo yhi xlo xhi
    | Some (x0, _, y0, _) =>
        slice2 (ylo - y0) (yhi - y0) (xlo - x0) (xhi - x0)
    end in
  let subimg := crop image in
  let subivar := crop imageivar in
  let '(ny, nx) := Psf.pix_shape psf speclo wlo in
  let ymin := (ylo - Z.of_nat ny + 2)%Z in
  let ymax := (yhi + Z.of_nat ny - 2)%Z in
  let nlo :=
    Z.max (py_int ((wlo - Psf.wavelength psf speclo ymin) / dw) - 1) ndiag in
  let nhi :=
    Z.max (py_int ((Psf.wavelength psf speclo ymax - whi) / dw) - 1) ndiag in
  let ww := arange_f (wlo - IZR nlo * dw) (whi + (IZR nhi + 0.5) * dw) dw in
  patch_call variant regularize ndecorr subimg subivar psf
    speclo (spechi - speclo)%Z ww (xlo, xhi, ylo, yhi).

(** The body of [for iwave in range(0, len(wavelengths), wavesize)].
    The borders [nlo] and [nhi] are [int()] of a quotient of floats,
    read here as the exact quotient; the statements of a [full_output]
    call concern the three arrays [flux], [ivar] and [Rd] up to the
    diagnostic block of the loop, which is not part of the model. *)
Definition patch_step (dw : R) (ndiag : Z) (st : mat * mat * list mat)
  (iwave : Z) : result (mat * mat * list mat) :=
  let '(flux, ivar, Rd) := st in
  wlo <- index wavelengths iwave ;;
  whi <- (if (iwave + wavesize <? nwave)%Z
          then index wavelengths (iwave + wavesize)
          else index wavelengths (-1)) ;;
  let '(xlo, xhi, ylo, yhi) := Psf.xyrange psf specrange (wlo, whi) in
  let crop :=
    match xyrange with
    | None => slice2 ylo yhi xlo xhi
    | Some (x0, _, y0, _) =>
        slice2 (ylo - y0) (yhi - y0) (xlo - x0) (xhi - x0)
    end in
  let subimg := crop image in
  let subivar := crop imageivar in
  let '(ny, nx) := Psf.pix_shape psf speclo wlo in
  let ymin := (ylo - Z.of_nat ny + 2)%Z in
  let ymax := (yhi + Z.of_nat ny - 2)%Z in
  let nlo :=
    Z.max (py_int ((wlo - Psf.wavelength psf speclo ymin) / dw) - 1) ndiag in
  let nhi :=
    Z.max (py_int ((Psf.wavelength psf speclo ymax - whi) / dw) - 1) ndiag in
  let ww := arange_f (wlo - IZR nlo * dw) (whi + (IZR nhi + 0.5) * dw) dw in
  let nw := len ww in
  results <- patch_call variant regularize ndecorr subimg subivar psf
               speclo (spechi - speclo)%Z ww (xlo, xhi, ylo, yhi) ;;
  let specflux := Patch.flux results in
  let specivar := Patch.ivar results in
  let R := Patch.Rmat results in
  let iispec := arange (speclo - specmin) (spechi - specmin) in
  rhs <- mask_index specflux keep ;;
  rows <- mask_index iispec keep ;;
  flux <- assign_block flux rows iwave (iwave + wavesize + 1)
            (map (slice nlo (- nhi)) rhs) ;;
  rhs <- mask_index specivar keep ;;
  rows <- mask_index iispec keep ;;
  ivar <- assign_block ivar rows iwave (iwave + wavesize + 1)
            (map (slice nlo (- nhi)) rhs) ;;
  Rd <- (if band_needs_full_output variant && negb full_output then Ok Rd
         else
           specs <- mask_index (arange speclo spechi) keep ;;
           for_each (fill_spectrum R nw nlo nhi ndiag iwave) specs Rd) ;;
  Ok (flux, ivar, Rd).

Definition ex2d : result (mat * mat * list mat) :=
  dw <- check_grid wavelengths ;;
  flux <- np_zeros2 nspec nwave ;;
  ivar <- np_zeros2 nspec nwave ;;
  ndiag <- ndiag_of psf specmin nspec dw ;;
  Rd <- np_zeros3 nspec (2 * ndiag + 1) nwave ;;
  starts <- patch_starts nwave wavesize ;;
  st <- for_each (patch_step dw ndiag) starts (flux, ivar, Rd) ;;
  _ <- (if times_patches variant && Nat.eqb (length starts) 0
        then Raise NameError else Ok tt) ;;
  let '(flux, ivar, Rd) := st in
  let dwave := gradient wavelengths in
  let flux := map (fun row => zip_with Rdiv row dwave) flux in
  let ivar := map (fun row => zip_with Rmult row (map (fun d => d ^ 2) dwave))
                  ivar in
  Ok (flux, ivar, Rd).

End Ex2d.

End Engine.

(** ** PatchSolver, iterative variant: [ex2d_patch] of ex2d_patch_gpu.py *)

Module Gpu.

Import Py LA.
Open Scope R_scope.

Definition ex2d_patch (la : Backend) (image ivar : mat) (psf : PSF)
  (specmin nspec : Z) (wavelengths : vec) (xyrange : Z * Z * Z * Z)
  (regularize : R) (ndecorr : bool) (use_cache : option bool)
  : result PatchOut :=
  let specrange := (specmin, (specmin + nspec)%Z) in
  let ny := nrows image in
  let nx := ncols image in
  let npix := (ny * nx)%nat in
  let nwave := len wavelengths in
  let noisyimg := image in
  let imgweights := ivar in
  let A := Psf.projection_matrix psf specrange wavelengths xyrange use_cache in
  let W := spdiags (ravel imgweights) npix in
  let iCov := matmul (transpose A) (matmul W A) in
  let y := matvec (transpose A) (matvec W (ravel noisyimg)) in
  f <- reshape nspec nwave (lsqr la iCov y) ;;
  let '(u, v) := eigh la iCov in
  let d := spdiags (map sqrt u) (length u) in
  let Q := matmul v (matmul d (transpose v)) in
  let norm_vector := sum_axis1 Q in
  let R := hadamard (np_outer (map Rinv norm_vector)
                              (ones (length norm_vector))) Q in
  let udiags := spdiags (map (fun x => 1 / x) u) (length u) in
  let Cov := matmul v (matmul udiags (transpose v)) in
  let Cx := matmul R (matmul Cov (transpose R)) in
  fx <- reshape nspec nwave (matvec R (ravel f)) ;;
  varfx <- reshape nspec nwave (diagonal Cx) ;;
  Ok {| Patch.flux := fx; Patch.ivar := varfx; Patch.Rmat := R; Patch.xflux := f; Patch.Amat := A;
        Patch.iCov := iCov;
        Patch.options := {| Patch.opt_specmin := specmin; Patch.opt_nspec := nspec;
                      Patch.opt_wavelengths := wavelengths;
                      Patch.opt_xyrange := xyrange;
                      Patch.opt_regularize := regularize;
                      Patch.opt_ndecorr := ndecorr |} |}.

(** The [ex2d] of this file calls [ex2d_patch] without [regularize],
    [ndecorr] and [use_cache], fills the band for every call, and does
    not time the patches. *)
Definition variant (la : Backend) : Engine.Variant :=
  {| Engine.patch_call :=
       fun (_ : R) (_ : bool) subimg subivar psf speclo n ww xy =>
         ex2d_patch la subimg subivar psf speclo n ww xy 0 false None;
     Engine.band_needs_full_output := false;
     Engine.times_patches := false |}.

Definition ex2d (la : Backend) := Engine.ex2d (variant la).

End Gpu.

(** ** PatchSolver, direct variant: [ex2d_patch] of ex2d_patch_gpu_matrix.py

    With [full_output = False] the caller receives the triple
    [(flux, ivar, R)] of the record computed here. *)

Module GpuMatrix.

Import Py LA.
Open Scope R_scope.

(** [fluxweight = W.dot(A).sum(axis=0)] *)
Definition fluxweight_of (ivar : mat) (npix : nat) (A : mat) : vec :=
  sum_axis0 (matmul (spdiags (ravel ivar) npix) A).

(** [Idiag = regularize*ones(n); Idiag[ibad] = minweight - fluxweight[ibad]]:
    the mask has to be as long as [Idiag]. *)
Definition Idiag_of (regularize : R) (n : nat) (minweight : R)
  (fluxweight : vec) : result vec :=
  let ibad := map (fun fw => ltb fw minweight) fluxweight in
  let Idiag := map (fun _ => regularize * 1) (ones n) in
  if Nat.eqb (length ibad) (length Idiag) then
    Ok (zip_with (fun (bad : bool) (p : R * R) =>
                    if bad then minweight - fst p else snd p)
                 ibad (combine fluxweight Idiag))
  else Raise IndexError.

(** The system handed to the solver: [(pix, Ax, wx)]. *)
Definition augment (image : mat) (A : mat) (w Idiag : vec) (n : nat)
  : vec * mat * vec :=
  let I := spdiags Idiag n in
  if np_any (diagonal I) then
    (ravel image ++ zeros n, A ++ I, w ++ ones n)
  else
    (ravel image, A, w).

Definition ex2d_patch (la : Backend) (image ivar : mat) (psf : PSF)
  (specmin nspec : Z) (wavelengths : vec)
  (xyrange : option (Z * Z * Z * Z)) (full_output : bool)
  (regularize : R) (ndecorr : bool) (use_cache : option bool)
  : result PatchOut :=
  w_first <- index wavelengths 0 ;;
  w_last <- index wavelengths (-1) ;;
  let waverange := (w_first, w_last) in
  let specrange := (specmin, (specmin + nspec)%Z) in
  let '(xyr, image, ivar) :=
    match xyrange with
    | None =>
        let '(xmin, xmax, ymin, ymax) := Psf.xyrange psf specrange waverange in
        ((xmin, xmax, ymin, ymax),
         slice2 ymin ymax xmin xmax image,
         slice2 ymin ymax xmin xmax ivar)
    | Some xyr => (xyr, image, ivar)
    end in
  let '(xmin, xmax, ymin, ymax) := xyr in
  let nx := (xmax - xmin)%Z in
  let ny := (ymax - ymin)%Z in
  let npix := Z.to_nat (nx * ny) in
  let nspec := (snd specrange - fst specrange)%Z in
  let nwave := len wavelengths in
  let A := Psf.projection_matrix psf specrange wavelengths xyr use_cache in
  let w := ravel ivar in
  let fluxweight := fluxweight_of ivar npix A in
  maxweight <- np_max fluxweight ;;
  let minweight := 1e-4 * maxweight in
  nflux <- np_length (nspec * nwave) ;;
  Idiag <- Idiag_of regularize nflux minweight fluxweight ;;
  let '(pix, Ax, wx) := augment image A w Idiag nflux in
  let Wx := spdiags wx (length wx) in
  let iCov := matmul (transpose Ax) (matmul Wx Ax) in
  let y := matvec (transpose Ax) (matvec Wx pix) in
  f <- reshape nspec nwave (solve la iCov y) ;;
  let '(u, v) := eigh la iCov in
  let d := spdiags (map sqrt u) (length u) in
  let Q := matmul v (matmul d (transpose v)) in
  let norm_vector := sum_axis1 Q in
  let R := hadamard (np_outer (map Rinv norm_vector)
                              (ones (length norm_vector))) Q in
  let udiags := spdiags (map (fun x => 1 / x) u) (length u) in
  let Cov := matmul v (matmul udiags (transpose v)) in
  let Cx := matmul R (matmul Cov (transpose R)) in
  fx <- reshape nspec nwave (matvec R (ravel f)) ;;
  varfx <- reshape nspec nwave (map (fun n => n * 2) norm_vector) ;;
  Ok {| Patch.flux := fx; Patch.ivar := varfx; Patch.Rmat := R; Patch.xflux := f; Patch.Amat := A;
        Patch.iCov := iCov;
        Patch.options := {| Patch.opt_specmin := specmin; Patch.opt_nspec := nspec;
                      Patch.opt_wavelengths := wavelengths;
                      Patch.opt_xyrange := xyr;
                      Patch.opt_regularize := regularize;
                      Patch.opt_ndecorr := ndecorr |} |}.

(** The [ex2d] of this file passes [regularize] and [ndecorr] on, asks
    for the full output of the patch, fills the band only under
    [full_output], and times the patches. *)
Definition variant (la : Backend) : Engine.Variant :=
  {| Engine.patch_call :=
       fun regularize ndecorr subimg subivar psf speclo n ww xy =>
         ex2d_patch la subimg subivar psf speclo n ww (Some xy) true
                    regularize ndecorr (Some true);
     Engine.band_needs_full_output := true;
     Engine.times_patches := true |}.

Definition ex2d (la : Backend) := Engine.ex2d (variant la).

End GpuMatrix.

(** ** PSF bias: [psfbias] and [psfabsbias]

    Both engine files carry the same text of these two functions.
    [np.linalg.inv] is an argument, like the other routines of the linear
    algebra library; it raises [LinAlgError], a [ValueError], on a
    singular matrix.  [projection_matrix] is called without
    [use_cache].  The functions are embedded for arguments whose shapes
    fit: a spectrum [phot] with one entry per column of the projection
    matrix, and two PSFs whose projection matrices have the same
    shape. *)

Module Bias.

Import Py LA.
Open Scope R_scope.

(** Elementwise difference [A - B] *)
Definition msub (A B : mat) : mat := zip_with (zip_with Rminus) A B.

Section Bias.

Variable la : Backend.
Variable inv : mat -> result mat.

Definition psfbias (p1 p2 : PSF) (wave phot : vec) (ispec : Z)
  (readnoise : R) : result vec :=
  w_first <- index wave 0 ;;
  w_last <- index wave (-1) ;;
  let specrange := (ispec, (ispec + 1)%Z) in
  let xyrange := Psf.xyrange p1 specrange (w_first, w_last) in
  let A := Psf.projection_matrix p1 specrange wave xyrange None in
  let B := Psf.projection_matrix p2 specrange wave xyrange None in
  let img := matvec A phot in
  let imgvar := map (fun x => readnoise ^ 2 + x) img in
  let npix := length img in
  let W := spdiags (map (fun x => 1 / x) imgvar) npix in
  let iACov := matmul (transpose A) (matmul W A) in
  let iBCov := matmul (transpose B) (matmul W B) in
  BCov <- inv iBCov ;;
  ra <- Resolution.resolution_from_icov la iACov None ;;
  let RA := fst ra in
  rb <- Resolution.resolution_from_icov la iBCov None ;;
  let RB := fst rb in
  let bias :=
    zip_with Rdiv
      (matvec (msub (matmul RB (matmul BCov
                                       (matmul (transpose B) (matmul W A))))
                    RA)
              phot)
      (matvec RA phot) in
  Ok bias.

Definition psfabsbias (p1 p2 : PSF) (wave phot : vec) (ispec : Z)
  (readnoise : R) : result (vec * mat) :=
  w_first <- index wave 0 ;;
  w_last <- index wave (-1) ;;
  let specrange := (ispec, (ispec + 1)%Z) in
  let xyrange := Psf.xyrange p1 specrange (w_first, w_last) in
  let A := Psf.projection_matrix p1 specrange wave xyrange None in
  let B := Psf.projection_matrix p2 specrange wave xyrange None in
  let img := matvec A phot in
  let imgvar := map (fun x => readnoise ^ 2 + x) img in
  let npix := length img in
  let W := spdiags (map (fun x => 1 / x) imgvar) npix in
  let iACov := matmul (transpose A) (matmul W A) in
  let iBCov := matmul (transpose B) (matmul W B) in
  BCov <- inv iBCov ;;
  ra <- Resolution.resolution_from_icov la iACov None ;;
  let RA := fst ra in
  rb <- Resolution.resolution_from_icov la iBCov None ;;
  let RB := fst rb in
  let bias :=
    matvec (msub (matmul RB (matmul BCov
                                    (matmul (transpose B) (matmul W A))))
                 RA)
           phot in
  Ok (bias, RA).

End Bias.

End Bias.

(** ** Vocabulary of the specification

    The predicates in which the properties of the engine are stated, and
    the small concrete inputs at which it is run below. *)

Module Spec.

Import Py LA.

(** *** SubbundleSplitter *)

Section Splitter.

Open Scope Z_scope.

Definition near_equal (q : Z) (sizes : list Z) : Prop :=
  Forall (fun s => s = q \/ s = q + 1) sizes.

(** [ii] is a run [a, a+1, ..., a+s-1] inside [lo, hi) whose length is
    one of [sizes]. *)
Definition is_block (lo hi : Z) (sizes : list Z) (ii : list Z) : Prop :=
  exists a s, In s sizes /\ lo <= a /\ a + s <= hi /\ ii = arange a (a + s).

(** No index belongs to two subgroups. *)
Definition pairwise_disjoint (subs : list (list Z)) : Prop :=
  forall i j x, (i < j < length subs)%nat ->
    In x (nth i subs []) -> In x (nth j subs []) -> False.

Definition sizes_within_one (subs : list (list Z)) : Prop :=
  forall s1 s2, In s1 subs -> In s2 subs -> Z.abs (len s1 - len s2) <= 1.

(** [ee] is the run [ii] with one more index below, unless [ii] starts
    at 0, and one more above, unless [ii] ends at [bundlesize - 1]. *)
Definition padded (bundlesize : Z) (ii ee : list Z) : Prop :=
  exists a b, a < b /\ ii = arange a b
    /\ ee = arange (if a =? 0 then a else a - 1)
                   (if b =? bundlesize then b else b + 1).

End Splitter.

(** *** PatchStitcher *)

Section Stitcher.

Open Scope Z_scope.

(** Every column of the output is assigned by some patch. *)
Definition covers (nwave wavesize : Z) (starts : list Z) : Prop :=
  forall c, 0 <= c < nwave ->
    exists iwave, In iwave starts
      /\ In c (Engine.core_columns nwave wavesize iwave).

(** No column is assigned by two patches. *)
Definition no_overlap (nwave wavesize : Z) (starts : list Z) : Prop :=
  forall i1 i2 c, In i1 starts -> In i2 starts -> i1 <> i2 ->
    In c (Engine.core_columns nwave wavesize i1) ->
    In c (Engine.core_columns nwave wavesize i2) -> False.

(** The tiling as the specification states it. *)
Definition tiles_exactly (nwave wavesize : Z) : Prop :=
  forall starts, Engine.patch_starts nwave wavesize = Ok starts ->
    covers nwave wavesize starts /\ no_overlap nwave wavesize starts.

(** Two patches share a column only when one follows the other, and
    then only the first column of the later one. *)
Definition overlap_is_seam (nwave wavesize : Z) (starts : list Z) : Prop :=
  forall i1 i2 c, In i1 starts -> In i2 starts -> i1 < i2 ->
    (In c (Engine.core_columns nwave wavesize i1)
     /\ In c (Engine.core_columns nwave wavesize i2))
    <-> (i2 = i1 + wavesize /\ c = i2).

End Stitcher.

(** *** Grids *)

Section Grids.

Open Scope R_scope.

Definition step (w : vec) (i : nat) : R := nth (S i) w 0 - nth i w 0.

(** The grid has one step throughout. *)
Definition uniform (w : vec) : Prop :=
  forall i, (S i < length w)%nat -> step w i = step w 0.

(** Some step is farther from the first one than [np.allclose] allows. *)
Definition beyond_tolerance (w : vec) : Prop :=
  exists i, (S i < length w)%nat
    /\ Rabs (step w 0 - step w i) > Engine.atol + Engine.rtol * Rabs (step w i).

End Grids.

(** *** ResolutionBuilder *)

Section Resolution.

Open Scope R_scope.

(** [v diag(d) v^T] *)
Definition compose (d : vec) (v : mat) : mat :=
  matmul v (matmul (spdiags d (length d)) (transpose v)).

(** Every eigenvalue is above [10 eps] times the largest one. *)
Definition well_conditioned (w : vec) : Prop :=
  forall m, np_max w = Ok m ->
    Forall (fun x => x > Resolution.threshold * m) w.

Definition identity (n : nat) : mat := spdiags (ones n) n.

(** [M] is [n] by [n]. *)
Definition square (n : nat) (M : mat) : Prop :=
  length M = n /\ Forall (fun r => length r = n) M.

Definition symmetric (M : mat) : Prop := transpose M = M.

(** [(w, v)] is an eigendecomposition of [M] with positive eigenvalues:
    [v] is orthogonal and [M = v diag(w) v^T]. *)
Definition positive_eigendecomposition (M : mat) (w : vec) (v : mat)
  : Prop :=
  Forall (fun x => 0 < x) w
  /\ matmul (transpose v) v = identity (length w)
  /\ compose w v = M.

(** The eigensolver returns arrays of the shape of its argument. *)
Definition eigh_shaped (la : Backend) : Prop :=
  forall M, length (fst (eigh la M)) = nrows M
            /\ square (nrows M) (snd (eigh la M)).

(** The normalisation vector of the patch: the row sums of
    [Q = v diag(sqrt u) v^T] for the eigendecomposition [(u, v)] of the
    inverse covariance. *)
Definition normalization_vector (la : Backend) (iCov : mat) : vec :=
  let '(u, v) := eigh la iCov in
  sum_axis1 (compose (map sqrt u) v).

(** Every row of the resolution matrix sums to 1 within [1e-8]. *)
Definition rows_sum_to_one (R : mat) : Prop :=
  Forall (fun row => Rabs (rsum row - 1) <= 1e-8) R.

End Resolution.

(** *** PatchSolver *)

Section Solver.

Open Scope R_scope.

(** The raw flux as the specification states it: the solution of the
    plain weighted normal equations [(A^T W A) x = A^T W pix] with
    [W = diag(ivar)], as [nspec] rows of [nwave] bins. *)
Definition normal_equations_flux (la : Backend) (A : mat) (image ivar : mat)
  (nspec nwave : Z) : result mat :=
  let W := spdiags (ravel ivar) (length (ravel ivar)) in
  let C := matmul (transpose A) (matmul W A) in
  let y := matvec (transpose A) (matvec W (ravel image)) in
  reshape nspec nwave (solve la C y).

(** The window of the image a patch works on, its pixel weights and its
    bounding box: the arguments as given, or the crop to the box of the
    PSF when no box is given. *)
Definition window (psf : PSF) (specmin nspec : Z) (wavelengths : vec)
  (xyrange : option (Z * Z * Z * Z)) (image ivar : mat)
  : Z * Z * Z * Z * mat * mat :=
  match xyrange with
  | Some xyr => (xyr, image, ivar)
  | None =>
      let xyr := Psf.xyrange psf (specmin, (specmin + nspec)%Z)
                             (hd 0 wavelengths, last wavelengths 0) in
      let '(xmin, xmax, ymin, ymax) := xyr in
      (xyr, slice2 ymin ymax xmin xmax image,
            slice2 ymin ymax xmin xmax ivar)
  end.

(** No flux bin weighs less than [1e-4] of the heaviest. *)
Definition no_weak_bin (fluxweight : vec) : Prop :=
  forall m, np_max fluxweight = Ok m ->
    Forall (fun fw => ~ fw < 1e-4 * m) fluxweight.

(** Two runs of a patch extract the same spectra. *)
Definition same_extraction (r1 r2 : result PatchOut) : Prop :=
  match r1, r2 with
  | Ok o1, Ok o2 =>
      Patch.flux o1 = Patch.flux o2 /\ Patch.ivar o1 = Patch.ivar o2
      /\ Patch.Rmat o1 = Patch.Rmat o2 /\ Patch.xflux o1 = Patch.xflux o2
  | Raise e1, Raise e2 => e1 = e2
  | _, _ => False
  end.

End Solver.

(** *** Small inputs *)

Section Inputs.

Open Scope R_scope.

(** The routines on systems of at most one unknown, where the
    eigendecomposition of [[a]] is [([a], [[1]])] and the solution of
    [a x = y] is [y / a]. *)
Definition scalar_eigh (M : mat) : vec * mat :=
  match M with
  | [] => ([], [])
  | r :: _ => ([nth 0 r 0], [[1]])
  end.

Definition scalar_solve (M : mat) (y : vec) : vec :=
  [nth 0 y 0 / nth 0 (nth 0 M []) 0].

Definition scalar_backend : Backend :=
  {| eigh := scalar_eigh; solve := scalar_solve; lsqr := scalar_solve |}.

(** A PSF that sends one flux bin to one pixel with amplitude [a]. *)
Definition one_pixel_psf (a : R) : PSF :=
  {| Psf.wmin := 0; Psf.wmax := 0; Psf.wmin_all := 0; Psf.wmax_all := 0;
     Psf.psferr := 0;
     Psf.wavelength := fun _ _ => 0;
     Psf.wdisp := fun _ _ => 0;
     Psf.pix_shape := fun _ _ => (1%nat, 1%nat);
     Psf.xyrange := fun _ _ => (0, 1, 0, 1)%Z;
     Psf.projection_matrix := fun _ _ _ _ => [[a]] |}.

(** A symmetric positive-definite matrix with eigenvalues 9 and 784,
    and the eigensolver at that matrix. *)
Definition icov_9_784 : mat := [[505; -372]; [-372; 288]].

Definition eigh_9_784 (M : mat) : vec * mat :=
  ([9; 784], [[3 / 5; 4 / 5]; [4 / 5; - (3 / 5)]]).

Definition backend_9_784 : Backend :=
  {| eigh := eigh_9_784; solve := fun _ y => y; lsqr := fun _ y => y |}.

(** A backend whose eigensolver answers with the identity. *)
Definition identity_backend : Backend :=
  {| eigh := fun M => (ones (nrows M), identity (nrows M));
     solve := fun _ y => y; lsqr := fun _ y => y |}.

(** A variant of the engine whose patch extraction always returns, with
    empty arrays. *)
Definition empty_patch : PatchOut :=
  {| Patch.flux := []; Patch.ivar := []; Patch.Rmat := []; Patch.xflux := [];
     Patch.Amat := []; Patch.iCov := [];
     Patch.options :=
       {| Patch.opt_specmin := 0; Patch.opt_nspec := 0;
          Patch.opt_wavelengths := []; Patch.opt_xyrange := (0, 0, 0, 0)%Z;
          Patch.opt_regularize := 0; Patch.opt_ndecorr := false |} |}.

Definition constant_variant : Engine.Variant :=
  {| Engine.patch_call := fun _ _ _ _ _ _ _ _ _ => Ok empty_patch;
     Engine.band_needs_full_output := false;
     Engine.times_patches := false |}.

End Inputs.

End Spec.

(** ** Further vocabulary: the splitter *)

Module SplitterSpec.

Import Py.
Open Scope Z_scope.

(** One pass of adjacent exchanges from the left over [x :: t]: the
    functional reading of the [while i < n-1] loop of [split_bundle]. *)
Fixpoint bubble (x : Z) (t : list Z) : list Z :=
  match t with
  | [] => [x]
  | y :: t' => if y <? x then y :: bubble x t' else x :: bubble y t'
  end.

(** The subbundle sizes after the rearrangement, for [q = bundlesize // n]
    and [r = bundlesize % n]: all equal when [r = 0]; otherwise [r - 1]
    larger ones, the smaller ones, and one larger one at the far edge. *)
Definition rearranged_sizes (bundlesize n : Z) : list Z :=
  let q := bundlesize / n in
  let r := bundlesize mod n in
  if r =? 0 then repeat q (Z.to_nat n)
  else repeat (q + 1) (Z.to_nat (r - 1)) ++ repeat q (Z.to_nat (n - r))
       ++ [q + 1].

(** The lengths of the extract ranges of runs of the given sizes laid
    out from [imin] in a bundle of [bundlesize] fibers. *)
Fixpoint ext_lens (bundlesize imin : Z) (sizes : list Z) : list Z :=
  match sizes with
  | [] => []
  | s :: t =>
      (s + (if imin =? 0 then 0 else 1)
         + (if imin + s =? bundlesize then 0 else 1))
      :: ext_lens bundlesize (imin + s) t
  end.

End SplitterSpec.

(** ** Further vocabulary: matrices *)

Module MatrixSpec.

Import Py LA.
Open Scope R_scope.

(** Entry [(i, j)] of a matrix. *)
Definition entry (M : mat) (i j : nat) : R := nth j (nth i M []) 0.

(** The sum of [f 0], ..., [f (n - 1)]. *)
Definition sumn (n : nat) (f : nat -> R) : R := rsum (map f (seq 0 n)).

(** [v] is an orthogonal [n] by [n] matrix. *)
Definition orthogonal (n : nat) (v : mat) : Prop :=
  length v = n /\ Forall (fun r => length r = n) v
  /\ matmul (transpose v) v = spdiags (ones n) n
  /\ matmul v (transpose v) = spdiags (ones n) n.

End MatrixSpec.

(** ** Further vocabulary: the resolution builder *)

Module BlockSpec.

Import Py LA.
Open Scope Z_scope.

(** The upper ends of the blocks of sizes [d] laid out from [offset]. *)
Fixpoint cuts (offset : Z) (d : list Z) : list Z :=
  match d with
  | [] => []
  | b :: rest => (offset + b) :: cuts (offset + b) rest
  end.

(** The indices [i] and [j] lie in different blocks of sizes [d]: the
    end of some block falls between them. *)
Definition separated (d : list Z) (i j : nat) : Prop :=
  exists c, In c (cuts 0 d)
    /\ ((Z.of_nat i < c <= Z.of_nat j) \/ (Z.of_nat j < c <= Z.of_nat i)).

End BlockSpec.

(** ** Further vocabulary: where the arrays of the resolution stay finite

    [eigen_compose] divides by [minval], the largest eigenvalue times
    [10 eps] (or its square root times [10 eps]): with a positive
    largest eigenvalue [replace] and every regularised eigenvalue are
    finite numbers, and the matrix handed to the next [eigh] is one the
    routine accepts. *)

Module DomainSpec.

Import Py LA.
Open Scope R_scope.

(** [0.5*(icov + icov.T)] *)
Definition symmetrised (icov : mat) : mat :=
  mscale (1 / 2) (madd icov (transpose icov)).

(** [np.max(w)] is positive. *)
Definition positive_max (w : vec) : Prop :=
  exists m, np_max w = Ok m /\ 0 < m.

(** The eigenvalues returned for each diagonal block of [inverse], of
    sizes [d] from [offset] on, have a positive maximum. *)
Fixpoint blocks_positive (la : Backend) (inverse : mat) (offset : Z)
  (d : list Z) : Prop :=
  match d with
  | [] => True
  | b :: rest =>
      positive_max
        (fst (eigh la (slice2 offset (offset + b) offset (offset + b)
                              inverse)))
      /\ blocks_positive la inverse (offset + b)%Z rest
  end.

(** The decorrelation of [icov] in blocks of sizes [d] divides by no
    zero: the eigenvalues of the symmetrised matrix and those of every
    block of its regularised inverse have a positive maximum. *)
Definition regular_blocks (la : Backend) (icov : mat) (d : list Z) : Prop :=
  positive_max (fst (eigh la (symmetrised icov)))
  /\ forall inverse,
       Resolution.eigen_compose (fst (eigh la (symmetrised icov)))
                                (snd (eigh la (symmetrised icov))) true false
       = Ok inverse ->
       blocks_positive la inverse 0%Z d.

End DomainSpec.

(** ** Further vocabulary: the patch *)

Module PatchSpec.

Import Py LA.
Open Scope R_scope.

(** [M] has [r] rows of [c] entries. *)
Definition has_shape (r c : nat) (M : mat) : Prop :=
  length M = r /\ Forall (fun row => length row = c) M.

End PatchSpec.

(** ** Further vocabulary: small inputs *)

Module SmallInputs.

Import Py LA.
Open Scope R_scope.

(** [np.linalg.inv] on diagonal matrices without a zero on the
    diagonal. *)
Definition diagonal_inv (M : mat) : result mat :=
  Ok (spdiags (map (fun x => 1 / x) (diagonal M)) (nrows M)).

(** A PSF that sends every flux bin to a pixel of its own, on one row
    of [n] pixels with spots of one pixel: its projection matrix is the
    identity.  [wbelow] and [wabove] are the wavelengths of the rows
    [ymin] and [ymax] next to the sub-image, which set the border bins
    of a patch. *)
Definition pixel_per_bin_psf (n : nat) (wbelow wabove : R) : PSF :=
  {| Psf.wmin := 0; Psf.wmax := 0; Psf.wmin_all := 0; Psf.wmax_all := 0;
     Psf.psferr := 0;
     Psf.wavelength := fun _ y => if (y =? 1)%Z then wbelow else wabove;
     Psf.wdisp := fun _ _ => 0;
     Psf.pix_shape := fun _ _ => (1%nat, 1%nat);
     Psf.xyrange := fun _ _ => (0, Z.of_nat n, 0, 1)%Z;
     Psf.projection_matrix := fun _ _ _ _ => Spec.identity n |}.

(** What [ex2d_patch] returns for [nspec] spectra of [nw] bins that land
    on [nspec * nw] pixels of their own: flux 1 and variance 1 in every
    bin, and the identity as resolution matrix. *)
Definition patch_of_ones (specmin nspec : Z) (ww : vec)
  (xy : Z * Z * Z * Z) (n : nat) : PatchOut :=
  {| Patch.flux := chunks (Z.to_nat nspec) (length ww) (ones n);
     Patch.ivar := chunks (Z.to_nat nspec) (length ww) (ones n);
     Patch.Rmat := Spec.identity n;
     Patch.xflux := chunks (Z.to_nat nspec) (length ww) (ones n);
     Patch.Amat := Spec.identity n;
     Patch.iCov := Spec.identity n;
     Patch.options :=
       {| Patch.opt_specmin := specmin; Patch.opt_nspec := nspec;
          Patch.opt_wavelengths := ww; Patch.opt_xyrange := xy;
          Patch.opt_regularize := 0; Patch.opt_ndecorr := false |} |}.

End SmallInputs.

(** * Properties *)

(** ** Integer ranges *)

Module PyFacts.

Import Py.
Open Scope Z_scope.

Lemma arange_length lo hi : length (arange lo hi) = Z.to_nat (hi - lo).
Proof. unfold arange. now rewrite length_map, length_seq. Qed.

Lemma arange_In lo hi x : In x (arange lo hi) <-> lo <= x < hi.
Proof.
  unfold arange. rewrite in_map_iff. split.
  - intros [k [<- Hk]]. apply in_seq in Hk. lia.
  - intros H. exists (Z.to_nat (x - lo)). split; [lia|]. apply in_seq. lia.
Qed.

Lemma arange_nil lo hi : hi <= lo -> arange lo hi = [].
Proof. intros H. unfold arange. replace (Z.to_nat (hi - lo)) with 0%nat by lia. reflexivity. Qed.

Lemma arange_cons lo hi : lo < hi -> arange lo hi = lo :: arange (lo + 1) hi.
Proof.
  intros H. unfold arange.
  replace (Z.to_nat (hi - lo)) with (S (Z.to_nat (hi - (lo + 1)))) by lia.
  simpl. f_equal; [lia|].
  rewrite <- seq_shift, map_map. apply map_ext. intros k. lia.
Qed.

Lemma arange_app lo mid hi :
  lo <= mid -> mid <= hi -> arange lo mid ++ arange mid hi = arange lo hi.
Proof.
  intros H1 H2. unfold arange.
  replace (Z.to_nat (hi - lo)) with (Z.to_nat (mid - lo) + Z.to_nat (hi - mid))%nat by lia.
  rewrite seq_app, map_app. f_equal. simpl.
  assert (G : forall m s,
             map (fun k => mid + Z.of_nat k) (seq s m)
             = map (fun k => lo + Z.of_nat k) (seq (Z.to_nat (mid - lo) + s) m)).
  { induction m; intros s; simpl; [reflexivity|].
    f_equal; [lia|]. rewrite IHm. f_equal. f_equal. lia. }
  rewrite G. now rewrite Nat.add_0_r.
Qed.

Lemma arange_snoc lo hi : lo <= hi -> arange lo (hi + 1) = arange lo hi ++ [hi].
Proof.
  intros H. rewrite <- (arange_app lo hi (hi + 1)) by lia.
  f_equal. rewrite arange_cons by lia. now rewrite arange_nil by lia.
Qed.

Lemma arange_NoDup lo hi : NoDup (arange lo hi).
Proof.
  unfold arange. apply NoDup_map_NoDup_ForallPairs; [|apply seq_NoDup].
  intros a b _ _. lia.
Qed.

Lemma arange_last lo hi : lo < hi -> List.last (arange lo hi) 0 = hi - 1.
Proof.
  intros H. replace hi with ((hi - 1) + 1) at 1 by lia.
  rewrite arange_snoc by lia. apply last_last.
Qed.

Lemma set_nth_length {A : Type} k (x : A) (a : list A) :
  length (set_nth k x a) = length a.
Proof. revert k; induction a; intros [|k]; simpl; auto. Qed.

Lemma set_nth_Forall {A : Type} (P : A -> Prop) k x (a : list A) :
  P x -> Forall P a -> Forall P (set_nth k x a).
Proof.
  intros Hx. revert k. induction a; intros [|k] H; simpl; auto;
    inversion H; subst; constructor; auto.
Qed.

Lemma nth_set_nth_ne {A : Type} k j (x d : A) (a : list A) :
  k <> j -> nth j (set_nth k x a) d = nth j a d.
Proof.
  revert k j. induction a; intros [|k] [|j] H; simpl; auto; try congruence.
Qed.

Lemma nth_Forall {A : Type} (P : A -> Prop) k (a : list A) d :
  (k < length a)%nat -> Forall P a -> P (nth k a d).
Proof. intros Hk H. rewrite Forall_forall in H. apply H. now apply nth_In. Qed.

Lemma nth_set_nth_eq {A : Type} k (x d : A) (a : list A) :
  (k < length a)%nat -> nth k (set_nth k x a) d = x.
Proof.
  revert k. induction a as [|y a IH]; intros [|k] H; simpl in *; try lia.
  - reflexivity.
  - apply IH. lia.
Qed.

End PyFacts.

(** ** SubbundleSplitter *)

Module SplitFacts.

Import Py Split Spec PyFacts.
Open Scope Z_scope.

Lemma zsum_app a b : zsum (a ++ b) = zsum a + zsum b.
Proof. unfold zsum. induction a; simpl; lia. Qed.

Lemma zsum_repeat x k : zsum (repeat x k) = Z.of_nat k * x.
Proof.
  unfold zsum. induction k; [reflexivity|].
  rewrite Nat2Z.inj_succ. simpl. lia.
Qed.

Lemma array_split_sizes_ok l n :
  1 <= n -> n <= l ->
  exists sizes, array_split_sizes l n = Ok sizes
    /\ len sizes = n /\ zsum sizes = l /\ near_equal (l / n) sizes /\ 1 <= l / n.
Proof.
  intros Hn Hl. unfold array_split_sizes.
  destruct (Z.leb_spec n 0); [lia|].
  eexists; split; [reflexivity|].
  pose proof (Z.mod_pos_bound l n ltac:(lia)) as Hm.
  pose proof (Z.div_mod l n ltac:(lia)) as Hd.
  assert (1 <= l / n) by (apply Z.div_le_lower_bound; lia).
  repeat split.
  - unfold len. rewrite length_app, !repeat_length. lia.
  - rewrite zsum_app, !zsum_repeat. rewrite !Z2Nat.id by lia. nia.
  - unfold near_equal. apply Forall_app. split; apply Forall_forall; intros x Hx;
      apply repeat_spec in Hx; lia.
  - assumption.
Qed.

Lemma zsum_set_nth k x a :
  (k < length a)%nat -> zsum (set_nth k x a) = zsum a - nth k a 0 + x.
Proof.
  unfold zsum. revert k. induction a; intros [|k] H; simpl in *; try lia.
  rewrite IHa by lia. lia.
Qed.

Lemma swap_step_inv P a i :
  0 <= i -> i + 1 < len a -> Forall P a ->
  len (swap_step a i) = len a /\ zsum (swap_step a i) = zsum a
  /\ Forall P (swap_step a i).
Proof.
  unfold len. intros Hi Hl HP. unfold swap_step, get, set.
  destruct (_ <? _); [|auto].
  repeat split.
  - now rewrite !set_nth_length.
  - rewrite zsum_set_nth by (rewrite set_nth_length; lia).
    rewrite nth_set_nth_ne by lia.
    rewrite zsum_set_nth by lia. lia.
  - apply set_nth_Forall; [apply nth_Forall; [lia|auto]|].
    apply set_nth_Forall; [apply nth_Forall; [lia|auto]|auto].
Qed.

Lemma rearrange_inv P n a :
  len a = n -> Forall P a ->
  len (rearrange n a) = n /\ zsum (rearrange n a) = zsum a
  /\ Forall P (rearrange n a).
Proof.
  intros Hl HP. unfold rearrange.
  assert (G : forall idx b, (forall i, In i idx -> 0 <= i /\ i + 1 < n) ->
             len b = n -> Forall P b ->
             len (fold_left swap_step idx b) = n
             /\ zsum (fold_left swap_step idx b) = zsum b
             /\ Forall P (fold_left swap_step idx b)).
  { induction idx as [|i idx IH]; intros b Hidx Hb HPb; simpl; [auto|].
    destruct (swap_step_inv P b i) as (L & S & F);
      [apply Hidx; now left | rewrite Hb; apply Hidx; now left | auto |].
    destruct (IH (swap_step b i)) as (L' & S' & F'); auto.
    - intros j Hj. apply Hidx. now right.
    - lia.
    - repeat split; auto. lia. }
  apply G; auto. intros i Hi. apply arange_In in Hi. lia.
Qed.

Lemma populate_length imin sizes : length (populate imin sizes) = length sizes.
Proof. revert imin; induction sizes; intros; simpl; auto. Qed.

Lemma zsum_nonneg sizes : Forall (fun s => 1 <= s) sizes -> 0 <= zsum sizes.
Proof. unfold zsum. induction 1; simpl; lia. Qed.

Lemma populate_concat sizes : forall imin,
  Forall (fun s => 1 <= s) sizes ->
  concat (populate imin sizes) = arange imin (imin + zsum sizes).
Proof.
  induction sizes as [|s t IH]; intros imin H; simpl.
  - now rewrite arange_nil by (unfold zsum; simpl; lia).
  - inversion H as [|? ? Hs Ht]; subst. rewrite IH by assumption.
    pose proof (zsum_nonneg _ Ht).
    rewrite arange_app by lia. f_equal. unfold zsum in *. simpl. lia.
Qed.

Lemma populate_blocks sizes : forall imin,
  Forall (fun s => 1 <= s) sizes ->
  Forall (is_block imin (imin + zsum sizes) sizes) (populate imin sizes).
Proof.
  induction sizes as [|s t IH]; intros imin H; simpl; constructor.
  - inversion H as [|? ? Hs Ht]; subst. pose proof (zsum_nonneg _ Ht).
    exists imin, s. repeat split; [now left|lia| unfold zsum in *; simpl; lia].
  - inversion H as [|? ? Hs Ht]; subst.
    eapply Forall_impl; [|apply IH; assumption].
    intros ii (a & s' & Hin & Hlo & Hhi & Heq).
    exists a, s'. repeat split; [now right|lia| unfold zsum in *; simpl; lia|assumption].
Qed.

Lemma extract_one_block bundlesize a b :
  0 <= a -> a < b -> b <= bundlesize ->
  extract_one bundlesize (arange a b)
  = Ok (arange (if a =? 0 then a else a - 1)
               (if b =? bundlesize then b else b + 1)).
Proof.
  intros Ha Hab Hb. unfold extract_one.
  pose proof (arange_cons _ _ Hab) as Hc.
  destruct (arange a b) as [|first rest] eqn:E; [discriminate|].
  injection Hc as -> _. rewrite <- E, (arange_last _ _ Hab). f_equal.
  destruct (Z.ltb_spec 0 a), (Z.eqb_spec a 0); try lia;
  destruct (Z.ltb_spec (b - 1) (bundlesize - 1)), (Z.eqb_spec b bundlesize); try lia.
  - rewrite (arange_cons (a - 1)) by lia.
    replace (a - 1 + 1) with a by lia. simpl. f_equal.
    replace (b - 1 + 1) with b by lia. now rewrite arange_snoc by lia.
  - rewrite (arange_cons (a - 1)) by lia.
    replace (a - 1 + 1) with a by lia. simpl. now rewrite app_nil_r.
  - simpl. replace (b - 1 + 1) with b by lia. now rewrite arange_snoc by lia.
  - simpl. now rewrite app_nil_r.
Qed.

Lemma extract_all_blocks bundlesize sizes subs :
  Forall (fun s => 1 <= s) sizes ->
  Forall (is_block 0 bundlesize sizes) subs ->
  exists exts, extract_all bundlesize subs = Ok exts
    /\ Forall2 (padded bundlesize) subs exts.
Proof.
  intros Hs. induction 1 as [|ii t Hii Ht IH]; simpl.
  - exists []. split; [reflexivity|constructor].
  - destruct Hii as (a & s & Hin & Hlo & Hhi & ->).
    rewrite Forall_forall in Hs. specialize (Hs s Hin). simpl in Hs.
    rewrite extract_one_block by lia. simpl.
    destruct IH as (exts & -> & HF). simpl.
    eexists; split; [reflexivity|]. constructor; [|assumption].
    exists a, (a + s). repeat split. lia.
Qed.

Lemma concat_NoDup_disjoint (l : list (list Z)) :
  NoDup (concat l) ->
  forall i j x, (i < j < length l)%nat ->
    In x (nth i l []) -> In x (nth j l []) -> False.
Proof.
  induction l as [|h t IH]; intros ND i j x Hij Hi Hj; simpl in *; [lia|].
  destruct j as [|j]; [lia|].
  apply NoDup_app_remove_l in ND as NDt.
  destruct i as [|i].
  - clear IH. revert ND. generalize (concat t) (in_concat t x). intros c Hc ND.
    assert (In x c).
    { apply Hc. exists (nth j t []). split; [apply nth_In; lia|assumption]. }
    clear -Hi H ND. induction h; simpl in *; [contradiction|].
    inversion ND; subst. destruct Hi as [->|Hi]; [|auto].
    apply H2. apply in_or_app. now right.
  - apply (IH NDt i j x); [lia|assumption|assumption].
Qed.

(** C3: [split_bundle(10, 3)] returns the subgroups and extract-ranges of
    the docstring; and for every [n <= bundlesize] the call either
    returns [n] subgroups that are pairwise disjoint, whose concatenation
    is [0, ..., bundlesize-1] (so their union is the whole range), whose
    sizes differ by at most one, and whose extract-ranges are the
    subgroups padded by one index on each side except at the two ends of
    the bundle; or it raises, which happens only for [n <= 0]. *)
Theorem split_bundle_partition :
  split_bundle 10 3
  = Ok ([[0; 1; 2]; [3; 4; 5]; [6; 7; 8; 9]],
        [[0; 1; 2; 3]; [2; 3; 4; 5; 6]; [5; 6; 7; 8; 9]])
  /\ forall bundlesize n, n <= bundlesize ->
       match split_bundle bundlesize n with
       | Ok (subs, exts) =>
           len subs = n
           /\ pairwise_disjoint subs
           /\ concat subs = arange 0 bundlesize
           /\ (forall x, (exists ii, In ii subs /\ In x ii) <-> 0 <= x < bundlesize)
           /\ sizes_within_one subs
           /\ Forall2 (padded bundlesize) subs exts
       | Raise _ => n <= 0
       end.
Proof.
  split; [reflexivity|].
  intros bundlesize n Hle. unfold split_bundle.
  destruct (Z.ltb_spec bundlesize n); [lia|].
  destruct (Z.le_gt_cases n 0) as [Hn|Hn].
  { unfold array_split_sizes. destruct (Z.leb_spec n 0); [simpl; lia|lia]. }
  destruct (array_split_sizes_ok bundlesize n) as (sizes & -> & Hlen & Hsum & Hq & Hq1);
    [lia|lia|]. simpl.
  destruct (rearrange_inv (fun s => s = bundlesize / n \/ s = bundlesize / n + 1)
              n sizes Hlen Hq) as (Hlen' & Hsum' & Hq').
  set (sizes' := rearrange n sizes) in *.
  assert (Hpos : Forall (fun s => 1 <= s) sizes').
  { eapply Forall_impl; [|exact Hq']. simpl. lia. }
  pose proof (populate_blocks sizes' 0 Hpos) as Hblocks.
  pose proof (populate_concat sizes' 0 Hpos) as Hconcat.
  simpl in Hblocks, Hconcat. rewrite Hsum', Hsum in Hblocks, Hconcat.
  destruct (extract_all_blocks bundlesize sizes' _ Hpos Hblocks) as (exts & -> & HF).
  simpl. refine (conj _ (conj _ (conj Hconcat (conj _ (conj _ HF))))).
  - unfold len in *. now rewrite populate_length.
  - unfold pairwise_disjoint. apply concat_NoDup_disjoint.
    rewrite Hconcat. apply arange_NoDup.
  - intros x. rewrite <- (arange_In 0 bundlesize), <- Hconcat, in_concat.
    reflexivity.
  - intros s1 s2 H1 H2. rewrite Forall_forall in Hblocks, Hq'.
    destruct (Hblocks _ H1) as (a1 & z1 & Hz1 & _ & _ & ->).
    destruct (Hblocks _ H2) as (a2 & z2 & Hz2 & _ & _ & ->).
    specialize (Hq' _ Hz1) as Hz1'. specialize (Hq' _ Hz2) as Hz2'. simpl in *.
    unfold len. rewrite !arange_length. lia.
Qed.

(** The theorem at a bundle of 23 fibers in 7 subbundles. *)
Lemma split_bundle_partition_witness :
  7 <= 23 /\
  match split_bundle 23 7 with
  | Ok (subs, exts) =>
      len subs = 7
      /\ pairwise_disjoint subs
      /\ concat subs = arange 0 23
      /\ (forall x, (exists ii, In ii subs /\ In x ii) <-> 0 <= x < 23)
      /\ sizes_within_one subs
      /\ Forall2 (padded 23) subs exts
  | Raise _ => 7 <= 0
  end.
Proof.
  split; [lia | apply (proj2 split_bundle_partition 23 7); lia].
Defined.

End SplitFacts.


(** ** Real arrays *)

Module LAFacts.

Import Py LA.
Open Scope R_scope.

Lemma ltb_false a b : ~ a < b -> ltb a b = false.
Proof. intros H. unfold ltb. now destruct (Rlt_dec a b). Qed.

Lemma ltb_true a b : a < b -> ltb a b = true.
Proof. intros H. unfold ltb. now destruct (Rlt_dec a b). Qed.

Lemma gtb_true a b : a > b -> gtb a b = true.
Proof. intros H. unfold gtb. now destruct (Rlt_dec b a). Qed.

Lemma gtb_false a b : ~ a > b -> gtb a b = false.
Proof. intros H. unfold gtb. now destruct (Rlt_dec b a). Qed.

Lemma leb_true a b : a <= b -> leb a b = true.
Proof. intros H. unfold leb. now destruct (Rle_dec a b). Qed.

Lemma leb_false a b : ~ a <= b -> leb a b = false.
Proof. intros H. unfold leb. now destruct (Rle_dec a b). Qed.

Lemma neqb_false a : neqb a a = false.
Proof. unfold neqb. now destruct (Req_dec_T a a). Qed.

Lemma neqb_true a b : a <> b -> neqb a b = true.
Proof. intros H. unfold neqb. now destruct (Req_dec_T a b). Qed.

Lemma np_any_zero v : Forall (fun x => x = 0) v -> np_any v = false.
Proof.
  unfold np_any. induction 1 as [|x t Hx Ht IH]; simpl; [reflexivity|].
  now rewrite Hx, neqb_false, IH.
Qed.

Lemma nth_all_zero v i : Forall (fun x => x = 0) v -> nth i v 0 = 0.
Proof.
  intros H. revert i. induction H as [|x t Hx Ht IH]; intros [|i]; simpl; auto.
Qed.

Lemma diagonal_spdiags_zero d n :
  Forall (fun x => x = 0) d -> Forall (fun x => x = 0) (diagonal (spdiags d n)).
Proof.
  intros Hd. unfold diagonal. apply Forall_forall. intros x Hx.
  apply in_map_iff in Hx. destruct Hx as (i & <- & Hi).
  apply nth_all_zero.
  destruct (Nat.lt_ge_cases i (length (spdiags d n))) as [Hlt|Hge].
  - assert (Hall : Forall (Forall (fun x => x = 0)) (spdiags d n)).
    { unfold spdiags. apply Forall_forall. intros r Hr.
      apply in_map_iff in Hr. destruct Hr as (k & <- & _).
      apply Forall_forall. intros y Hy.
      apply in_map_iff in Hy. destruct Hy as (j & <- & _).
      destruct (Nat.eqb k j); [now apply nth_all_zero | reflexivity]. }
    rewrite Forall_forall in Hall. apply Hall. now apply nth_In.
  - rewrite nth_overflow by assumption. constructor.
Qed.

Lemma np_max_In v m : np_max v = Ok m -> In m v /\ Forall (fun x => x <= m) v.
Proof.
  destruct v as [|x t]; simpl; [discriminate|]. intros H. injection H as <-.
  revert x. induction t as [|y t IH]; intros x; simpl.
  - split; [now left | constructor; [lra | constructor]].
  - destruct (IH (Rmax x y)) as [Hin Hle]. split.
    + destruct Hin as [Heq|Hin]; [|now right; right].
      rewrite <- Heq. unfold Rmax. destruct (Rle_dec x y); [right|]; now left.
    + inversion Hle as [|? ? Hm Ht]; subst.
      pose proof (Rmax_l x y). pose proof (Rmax_r x y).
      constructor; [lra|]. constructor; [lra|assumption].
Qed.

(** Evaluation of the list, integer and control structure of a term,
    leaving the real arithmetic in place; and decision of the real
    comparisons that block it. *)
Ltac reval :=
  cbv -[Rplus Rmult Rminus Rdiv Rinv Ropp sqrt Rlt_dec Rle_dec Req_dec_T
        IZR Rmax Rabs pow INR Int_part up Rlt Rle Rgt Rge
        Resolution.threshold].

Ltac rdecide_with d :=
  first [ destruct d; [ | exfalso; lra ]
        | destruct d; [ exfalso; lra | ] ].

Ltac rdecide_step :=
  match goal with
  | |- context [Rlt_dec ?a ?b] => rdecide_with (Rlt_dec a b)
  | |- context [Rle_dec ?a ?b] => rdecide_with (Rle_dec a b)
  | |- context [Req_dec_T ?a ?b] => rdecide_with (Req_dec_T a b)
  end.

Ltac rrun := reval; repeat (rdecide_step; reval).

(** Equality of two arrays of reals of the same shape, entry by entry. *)
Ltac rlist :=
  repeat match goal with
    | |- (_ :: _) = (_ :: _) => apply f_equal2
    | |- [] = [] => reflexivity
    | |- @eq R _ _ => lra
    end.

(** Replace the square roots of the goal by their value [v]. *)
Ltac sqrt_is v :=
  repeat match goal with
    | |- context [sqrt ?x] =>
        replace (sqrt x) with v by (symmetry; apply sqrt_lem_1; lra)
    end.

End LAFacts.

(** ** PatchSolver, direct variant *)

Module GpuMatrixFacts.

Import Py LA Spec LAFacts.
Open Scope R_scope.

Lemma index_hd (w : vec) x : index w 0 = Ok x -> hd 0 w = x.
Proof.
  unfold index. destruct w as [|y t]; [discriminate|].
  change (0 <? 0)%Z with false. cbv iota.
  destruct ((0 <=? 0) && (0 <? len (y :: t)))%Z; simpl; congruence.
Qed.

Lemma index_last (w : vec) x : index w (-1) = Ok x -> last w 0 = x.
Proof.
  unfold index. change (-1 <? 0)%Z with true. cbv iota.
  destruct ((0 <=? -1 + len w) && (-1 + len w <? len w))%Z eqn:B;
    [|discriminate].
  apply andb_true_iff in B. destruct B as [B1 _]. apply Z.leb_le in B1.
  destruct (nth_error w (Z.to_nat (-1 + len w))) as [y|] eqn:E; [|discriminate].
  intros Hy. injection Hy as <-. unfold len in *.
  apply (nth_error_nth _ _ 0) in E. rewrite <- E.
  assert (Hn : w <> []) by (intros ->; simpl in *; lia).
  destruct (exists_last Hn) as (t & a & ->).
  rewrite last_last, length_app. change (length [a]) with 1%nat.
  replace (Z.to_nat (-1 + Z.of_nat (length t + 1))) with (length t) by lia.
  rewrite app_nth2 by lia. now rewrite Nat.sub_diag.
Qed.

Lemma Idiag_zero n minweight fluxweight Idiag :
  Forall (fun fw => ~ fw < minweight) fluxweight ->
  GpuMatrix.Idiag_of 0 n minweight fluxweight = Ok Idiag ->
  Forall (fun x => x = 0) Idiag.
Proof.
  intros Hfw. unfold GpuMatrix.Idiag_of.
  destruct (Nat.eqb _ _); [|discriminate]. intros H. injection H as <-.
  assert (Hz : Forall (fun x => x = 0) (map (fun _ : R => 0 * 1) (ones n))).
  { apply Forall_forall. intros x Hx. apply in_map_iff in Hx.
    destruct Hx as (? & <- & _). lra. }
  revert Hz. generalize (map (fun _ : R => 0 * 1) (ones n)) as z.
  induction Hfw as [|fw t Hx Ht IH]; intros z Hz; simpl; [constructor|].
  destruct z as [|z0 z]; simpl; [constructor|].
  rewrite ltb_false by assumption. inversion Hz; subst.
  constructor; [reflexivity|now apply IH].
Qed.

(** C5: when [ex2d_patch] of the direct variant is called with
    [regularize = 0] and no flux bin weighs less than [1e-4] of the
    heaviest one, no identity block is stacked onto the system: the
    matrix it solves is [A^T W A], and the raw flux it returns is the
    solution of the plain normal equations [(A^T W A) x = A^T W pix]. *)
Theorem unregularized_is_normal_equations :
  forall la image ivar psf specmin nspec wavelengths xyrange full_output
         ndecorr use_cache,
    let '(xyr, img, iv) :=
      window psf specmin nspec wavelengths xyrange image ivar in
    let '(xmin, xmax, ymin, ymax) := xyr in
    let A := Psf.projection_matrix psf (specmin, (specmin + nspec)%Z)
                                   wavelengths xyr use_cache in
    let npix := Z.to_nat ((xmax - xmin) * (ymax - ymin)) in
    no_weak_bin (GpuMatrix.fluxweight_of iv npix A) ->
    forall out,
      GpuMatrix.ex2d_patch la image ivar psf specmin nspec wavelengths
                           xyrange full_output 0 ndecorr use_cache = Ok out ->
      normal_equations_flux la A img iv nspec (len wavelengths)
      = Ok (Patch.xflux out)
      /\ Patch.iCov out
         = matmul (transpose A)
                  (matmul (spdiags (ravel iv) (length (ravel iv))) A)
      /\ Patch.Amat out = A.
Proof.
  intros. unfold GpuMatrix.ex2d_patch.
  destruct (index wavelengths 0) as [w0|e] eqn:E0;
    [|destruct window as [[[[[? ?] ?] ?] ?] ?]; intros; discriminate].
  destruct (index wavelengths (-1)) as [w1|e] eqn:E1;
    [|destruct window as [[[[[? ?] ?] ?] ?] ?]; intros; discriminate].
  apply index_hd in E0. apply index_last in E1. subst w0 w1.
  unfold window. simpl bind.
  destruct xyrange as [[[[xmin xmax] ymin] ymax]|];
    [|destruct (Psf.xyrange psf _ _) as [[[xmin xmax] ymin] ymax]];
    cbv zeta; intros Hweak out.
  all: destruct (np_max _) as [maxweight|e] eqn:Emax; simpl bind; [|discriminate].
  all: specialize (Hweak maxweight Emax).
  all: destruct (np_length _) as [nflux|e]; simpl bind; [|discriminate].
  all: destruct (GpuMatrix.Idiag_of _ _ _ _) as [Idiag|e] eqn:EI; simpl bind;
         [|discriminate].
  all: apply Idiag_zero in EI; [|exact Hweak].
  all: unfold GpuMatrix.augment.
  all: rewrite (np_any_zero _ (diagonal_spdiags_zero _ _ EI)).
  all: unfold normal_equations_flux.
  all: replace (specmin + nspec - specmin)%Z with nspec by lia.
  all: destruct (reshape nspec _ (solve _ _ _)) as [f|e]; simpl bind; [|discriminate].
  all: destruct (eigh la _) as [u v].
  all: destruct (reshape nspec _ (matvec _ _)) as [fx|e]; simpl bind; [|discriminate].
  all: destruct (reshape nspec _ (map _ _)) as [vx|e]; simpl bind; [|discriminate].
  all: intros H; injection H as <-; simpl; auto.
Qed.

(** The theorem at one pixel of value 2 and weight 1 that receives one
    flux bin with amplitude 3. *)
Lemma unregularized_is_normal_equations_witness :
  no_weak_bin (GpuMatrix.fluxweight_of [[1]] 1 [[3]])
  /\ exists out,
       GpuMatrix.ex2d_patch scalar_backend [[2]] [[1]] (one_pixel_psf 3) 0 1
         [5000] (Some (0, 1, 0, 1)%Z) true 0 false None = Ok out
       /\ normal_equations_flux scalar_backend [[3]] [[2]] [[1]] 1 1
          = Ok (Patch.xflux out).
Proof.
  assert (Hw : no_weak_bin (GpuMatrix.fluxweight_of [[1]] 1 [[3]])).
  { intros m Hm. injection Hm as <-. constructor; [|constructor].
    reval. lra. }
  split; [exact Hw|].
  pose proof (unregularized_is_normal_equations scalar_backend [[2]] [[1]]
                (one_pixel_psf 3) 0 1 [5000] (Some (0, 1, 0, 1)%Z) true false
                None) as H.
  cbv beta iota zeta delta [window] in H. specialize (H Hw).
  destruct (GpuMatrix.ex2d_patch scalar_backend [[2]] [[1]] (one_pixel_psf 3)
              0 1 [5000] (Some (0, 1, 0, 1)%Z) true 0 false None)
    as [out|e] eqn:E.
  - exists out. split; [reflexivity|]. exact (proj1 (H out eq_refl)).
  - exfalso. revert E. rrun. discriminate.
Defined.

(** What the direct variant returns as [ivar]: twice the normalisation
    vector. *)
Lemma direct_variant_ivar_is_twice_norm :
  forall la image ivar psf specmin nspec wavelengths xyrange full_output
         regularize ndecorr use_cache out,
    GpuMatrix.ex2d_patch la image ivar psf specmin nspec wavelengths
                         xyrange full_output regularize ndecorr use_cache
    = Ok out ->
    reshape nspec (len wavelengths)
            (map (fun n => n * 2) (normalization_vector la (Patch.iCov out)))
    = Ok (Patch.ivar out).
Proof.
  intros until out. unfold GpuMatrix.ex2d_patch.
  destruct (index wavelengths 0) as [w0|e]; simpl bind; [|discriminate].
  destruct (index wavelengths (-1)) as [w1|e]; simpl bind; [|discriminate].
  destruct (match xyrange with Some _ => _ | None => _ end)
    as [[[[[xmin xmax] ymin] ymax] img] iv].
  destruct (np_max _) as [maxweight|e]; simpl bind; [|discriminate].
  destruct (np_length _) as [nflux|e]; simpl bind; [|discriminate].
  destruct (GpuMatrix.Idiag_of _ _ _ _) as [Idiag|e]; simpl bind; [|discriminate].
  destruct (GpuMatrix.augment _ _ _ _ _) as [[pix Ax] wx].
  replace (specmin + nspec - specmin)%Z with nspec by lia.
  destruct (reshape nspec _ (solve _ _ _)) as [f|e]; simpl bind; [|discriminate].
  unfold normalization_vector, compose.
  destruct (eigh la _) as [u v] eqn:Eu.
  destruct (reshape nspec _ (matvec _ _)) as [fx|e]; simpl bind; [|discriminate].
  destruct (reshape nspec _ (map _ _)) as [vx|e] eqn:Ev; simpl bind; [|discriminate].
  intros H. injection H as <-. simpl. rewrite Eu, length_map. exact Ev.
Qed.

(** C1 at one pixel of value 2 and weight 1 that receives one flux bin
    with amplitude 3: the inverse covariance is [[9]], its square root
    [[3]], so the normalisation vector is [3] and its square 9; the
    direct variant of [ex2d_patch] returns the inverse variance 6. *)
Theorem direct_variant_ivar_at_norm_3 :
  exists out,
    GpuMatrix.ex2d_patch scalar_backend [[2]] [[1]] (one_pixel_psf 3) 0 1
      [5000] (Some (0, 1, 0, 1)%Z) true 0 false None = Ok out
    /\ Patch.iCov out = [[3 * (1 * 3 + 0) + 0]]
    /\ normalization_vector scalar_backend (Patch.iCov out) = [3]
    /\ Patch.ivar out = [[6]]
    /\ Patch.ivar out
       <> [map (fun n => n ^ 2)
               (normalization_vector scalar_backend (Patch.iCov out))].
Proof.
  eexists. split; [rrun; reflexivity|].
  cbv [Patch.iCov Patch.ivar].
  assert (Hn : normalization_vector scalar_backend [[3 * (1 * 3 + 0) + 0]]
               = [3]).
  { reval. sqrt_is 3. rlist. }
  split; [reflexivity|]. split; [exact Hn|]. rewrite Hn. split.
  - sqrt_is 3. rlist.
  - sqrt_is 3. intros H. injection H as H. simpl in H. lra.
Qed.

End GpuMatrixFacts.


(** ** PatchStitcher: the columns the patches assign *)

Module StitchFacts.

Import Py Spec PyFacts.
Open Scope Z_scope.

Lemma patch_starts_spec nwave wavesize :
  1 <= wavesize ->
  exists starts, Engine.patch_starts nwave wavesize = Ok starts
    /\ forall i, In i starts <-> (0 <= i < nwave /\ i mod wavesize = 0).
Proof.
  intros Hw. unfold Engine.patch_starts, range3.
  destruct (Z.eqb_spec wavesize 0); [lia|].
  eexists; split; [reflexivity|]. intros i.
  rewrite in_map_iff. unfold range_len.
  destruct (Z.ltb_spec 0 wavesize); [|lia].
  split.
  - intros (k & <- & Hk). apply in_seq in Hk.
    rewrite Z.add_0_l, Z.mod_mul by lia.
    destruct (Z.ltb_spec 0 nwave); [|simpl in Hk; lia].
    rewrite Z.sub_0_r in Hk.
    assert (Z.of_nat k <= (nwave - 1) / wavesize).
    { pose proof (Z.div_pos (nwave - 1) wavesize). lia. }
    pose proof (Z.mul_div_le (nwave - 1) wavesize). nia.
  - intros [Hi Hm]. exists (Z.to_nat (i / wavesize)).
    pose proof (Z.div_pos i wavesize).
    assert (Hq : i = wavesize * (i / wavesize)).
    { rewrite (Z.div_mod i wavesize) at 1 by lia. lia. }
    split; [rewrite Z2Nat.id by lia; lia|].
    apply in_seq. destruct (Z.ltb_spec 0 nwave); [|lia].
    rewrite Z.sub_0_r.
    assert (i / wavesize <= (nwave - 1) / wavesize)
      by (apply Z.div_le_mono; lia).
    pose proof (Z.div_pos (nwave - 1) wavesize). lia.
Qed.

Lemma core_columns_In nwave wavesize iwave c :
  0 <= iwave -> 0 <= wavesize -> 0 <= nwave ->
  In c (Engine.core_columns nwave wavesize iwave)
  <-> (iwave <= c < iwave + wavesize + 1 /\ c < nwave).
Proof.
  intros Hi Hw Hn. unfold Engine.core_columns, slice_indices.
  rewrite arange_In. unfold clip.
  destruct (Z.ltb_spec iwave 0); [lia|].
  destruct (Z.ltb_spec (iwave + wavesize + 1) 0); lia.
Qed.

(** An assignment to the columns [cols] leaves the other columns of a
    row as they were. *)
Lemma put_cols_frame (cols : list Z) : forall (row xs : LA.vec) (c : nat),
  (forall c', In c' cols -> Z.to_nat c' <> c) ->
  nth c (LA.put_cols row cols xs) 0%R = nth c row 0%R.
Proof.
  induction cols as [|c0 cols IH]; intros row [|x xs] c Hc; simpl; auto.
  rewrite IH by (intros c' Hc'; apply Hc; now right).
  unfold set. apply nth_set_nth_ne. apply Hc. now left.
Qed.

(** An assignment to the columns [cols] of some rows leaves every entry
    outside these columns as it was. *)
Lemma put_block_frame (rows cols : list Z) :
  forall (M X : LA.mat) (r c : nat),
    (forall c', In c' cols -> Z.to_nat c' <> c) ->
    nth c (nth r (LA.put_block M rows cols X) []) 0%R
    = nth c (nth r M []) 0%R.
Proof.
  induction rows as [|r0 rows IH]; intros M [|x X] r c Hc; simpl; auto.
  rewrite IH by assumption. unfold set, get.
  destruct (Nat.eq_dec (Z.to_nat r0) r) as [<-|Hne].
  - destruct (Nat.lt_ge_cases (Z.to_nat r0) (length M)) as [Hlt|Hge].
    + rewrite nth_set_nth_eq by assumption. now apply put_cols_frame.
    + rewrite !(nth_overflow _ []); [reflexivity|assumption|].
      now rewrite set_nth_length.
  - now rewrite nth_set_nth_ne.
Qed.

(** The assignment [flux[rows, iwave:iwave+wavesize+1] = X] of a patch
    goes to the columns [core_columns]. *)
Lemma assign_block_core_columns (flux : LA.mat) rows nwave wavesize iwave X :
  Z.of_nat (LA.ncols flux) = nwave ->
  LA.assign_block flux rows iwave (iwave + wavesize + 1) X
  = if Nat.eqb (length X) (length rows) then
      X' <- LA.broadcast_rows
              (length (Engine.core_columns nwave wavesize iwave)) X ;;
      Ok (LA.put_block flux rows (Engine.core_columns nwave wavesize iwave) X')
    else Raise ValueError.
Proof. intros <-. reflexivity. Qed.

(** C2, as the code has it: for a window of [wavesize >= 1] bins the
    patches start at the multiples of [wavesize] below [nwave]; the
    columns they assign cover the whole output; and two patches assign a
    common column exactly when one follows the other, the shared column
    being the first column of the later patch, which both of them
    assign. *)
Theorem core_columns_cover_with_seams :
  forall nwave wavesize, 0 <= nwave -> 1 <= wavesize ->
    exists starts, Engine.patch_starts nwave wavesize = Ok starts
      /\ covers nwave wavesize starts
      /\ overlap_is_seam nwave wavesize starts.
Proof.
  intros nwave wavesize Hn Hw.
  destruct (patch_starts_spec nwave wavesize Hw) as (starts & Hs & Hin).
  exists starts. split; [exact Hs|]. split.
  - intros c Hc. exists (wavesize * (c / wavesize)).
    pose proof (Z.div_pos c wavesize).
    pose proof (Z.mul_div_le c wavesize).
    pose proof (Z.mod_pos_bound c wavesize).
    pose proof (Z.div_mod c wavesize).
    split.
    + apply Hin. split; [nia|]. rewrite Z.mul_comm. apply Z.mod_mul. lia.
    + apply core_columns_In; nia.
  - intros i1 i2 c H1 H2 Hlt.
    apply Hin in H1, H2. destruct H1 as [B1 M1], H2 as [B2 M2].
    assert (Hge : i1 + wavesize <= i2).
    { apply Z.mod_divide in M1, M2; try lia.
      destruct M1 as [k1 ->], M2 as [k2 ->].
      assert (k1 < k2) by nia. nia. }
    clear M1 M2.
    pose proof (core_columns_In nwave wavesize i1 c) as C1.
    pose proof (core_columns_In nwave wavesize i2 c) as C2.
    rewrite C1, C2 by lia. lia.
Qed.

Lemma core_columns_cover_with_seams_witness :
  0 <= 120 /\ 1 <= 50 /\
  exists starts, Engine.patch_starts 120 50 = Ok starts
    /\ covers 120 50 starts /\ overlap_is_seam 120 50 starts.
Proof.
  split; [lia|]. split; [lia|].
  apply (core_columns_cover_with_seams 120 50); lia.
Defined.

(** C2, as the specification states it, fails: with four wavelengths
    and a window of two bins the patches start at 0 and 2, and both
    assign column 2. *)
Lemma tiles_exactly_fails : ~ tiles_exactly 4 2.
Proof.
  intros H. destruct (H [0; 2] eq_refl) as [_ Hno].
  apply (Hno 0 2 2); simpl; auto; lia.
Qed.

End StitchFacts.


(** ** Shapes of the arrays *)

Module ShapeFacts.

Import Py LA Spec PyFacts LAFacts.
Open Scope R_scope.

Lemma square_ncols n M : square n M -> (0 < n)%nat -> ncols M = n.
Proof.
  intros [Hl Hr] Hn. destruct M as [|r t]; simpl in *; [lia|].
  now inversion Hr.
Qed.

Lemma zip_with_length {A B C : Type} (f : A -> B -> C) a b :
  length (zip_with f a b) = Nat.min (length a) (length b).
Proof. revert b. induction a; intros [|y b]; simpl; auto. Qed.

Lemma col_length j M : length (col j M) = length M.
Proof. unfold col. apply length_map. Qed.

Lemma transpose_square n M : square n M -> square n (transpose M).
Proof.
  intros H. destruct (Nat.eq_dec n 0) as [->|Hn].
  - destruct H as [Hl _]. destruct M; [|discriminate]. split; [reflexivity|constructor].
  - pose proof (square_ncols n M H ltac:(lia)) as Hc. destruct H as [Hl Hr].
    unfold transpose. rewrite Hc. split.
    + now rewrite length_map, length_seq.
    + apply Forall_forall. intros r Hin. apply in_map_iff in Hin.
      destruct Hin as (j & <- & _). now rewrite col_length.
Qed.

Lemma madd_square n A B : square n A -> square n B -> square n (madd A B).
Proof.
  intros [HA FA] [HB FB]. unfold madd. split.
  - rewrite zip_with_length. lia.
  - clear HA HB. revert B FB. induction FA as [|a A Ha FA IH]; intros B FB;
      destruct FB as [|b B Hb FB]; simpl; constructor.
    + rewrite zip_with_length. lia.
    + now apply IH.
Qed.

Lemma mscale_square n c A : square n A -> square n (mscale c A).
Proof.
  intros [HA FA]. unfold mscale. split; [now rewrite length_map|].
  apply Forall_forall. intros r Hr. apply in_map_iff in Hr.
  destruct Hr as (r0 & <- & Hin). rewrite length_map.
  rewrite Forall_forall in FA. now apply FA.
Qed.

Lemma matmul_shape A B :
  length (matmul A B) = length A
  /\ Forall (fun r => length r = ncols B) (matmul A B).
Proof.
  unfold matmul. split; [apply length_map|].
  apply Forall_forall. intros r Hr. apply in_map_iff in Hr.
  destruct Hr as (r0 & <- & _). now rewrite length_map, length_seq.
Qed.

Lemma spdiags_length d n : length (spdiags d n) = n.
Proof. unfold spdiags. now rewrite length_map, length_seq. Qed.

Lemma compose_square n d v :
  square n v -> length d = n -> square n (compose d v).
Proof.
  intros Hv Hd. unfold compose.
  destruct (matmul_shape v (matmul (spdiags d (length d)) (transpose v)))
    as [Hl Hr].
  split; [rewrite Hl; apply Hv|].
  destruct (Nat.eq_dec n 0) as [->|Hn].
  - destruct Hv as [Hv _]. destruct v; [constructor|discriminate].
  - eapply Forall_impl; [|exact Hr]. intros r ->.
    destruct (matmul_shape (spdiags d (length d)) (transpose v)) as [Hl' Hr'].
    rewrite spdiags_length in Hl'.
    destruct (matmul (spdiags d (length d)) (transpose v)) as [|r0 t];
      simpl in *; [lia|].
    inversion Hr' as [|? ? Hr0 _]; subst. rewrite Hr0.
    apply square_ncols; [now apply transpose_square | lia].
Qed.

Lemma zeros2_square n : square n (zeros2 n n).
Proof.
  unfold zeros2, zeros. split; [apply repeat_length|].
  apply Forall_forall. intros r Hr. apply repeat_spec in Hr. subst.
  apply repeat_length.
Qed.

(** Assignments keep the shape. *)
Lemma put_cols_length row cols xs : length (put_cols row cols xs) = length row.
Proof.
  revert row xs. induction cols as [|c cols IH]; intros row [|x xs]; simpl; auto.
  rewrite IH. apply set_nth_length.
Qed.

Lemma set_nth_rows n k (x : vec) (M : mat) :
  Forall (fun r => length r = n) M ->
  ((k < length M)%nat -> length x = n) ->
  Forall (fun r => length r = n) (set_nth k x M).
Proof.
  intros HM. revert k. induction HM as [|r M Hr HM IH]; intros [|k] Hx; simpl;
    constructor; auto.
  - apply Hx. simpl. lia.
  - apply IH. intros Hk. apply Hx. simpl. lia.
Qed.

Lemma put_block_square n M rows cols X :
  square n M -> square n (put_block M rows cols X).
Proof.
  revert M X. induction rows as [|r rows IH]; intros M [|x X] HM; simpl; auto.
  apply IH. destruct HM as [HL HR]. unfold set, get. split.
  - now rewrite set_nth_length.
  - apply set_nth_rows; [assumption|]. intros Hk.
    rewrite put_cols_length. rewrite Forall_forall in HR. apply HR.
    now apply nth_In.
Qed.

Lemma assign_block_square n M rows c0 c1 X M' :
  square n M -> assign_block M rows c0 c1 X = Ok M' -> square n M'.
Proof.
  intros HM. unfold assign_block.
  destruct (Nat.eqb _ _); [|discriminate].
  destruct (broadcast_rows _ X) as [X'|e]; simpl; [|discriminate].
  intros H. injection H as <-. now apply put_block_square.
Qed.

Lemma broadcast_rows_fit c X :
  Forall (fun r => length r = c) X -> broadcast_rows c X = Ok X.
Proof.
  induction 1 as [|r X Hr HX IH]; simpl; [reflexivity|].
  unfold broadcast_row. rewrite Hr, Nat.eqb_refl. simpl. now rewrite IH.
Qed.

Lemma slice_length {A : Type} lo hi (a : list A) :
  (0 <= lo)%Z -> (lo <= hi)%Z -> (hi <= len a)%Z ->
  length (slice lo hi a) = Z.to_nat (hi - lo).
Proof.
  intros H1 H2 H3. unfold slice, clip.
  destruct (Z.ltb_spec lo 0); [lia|]. destruct (Z.ltb_spec hi 0); [lia|].
  rewrite length_firstn, length_skipn. unfold len in *. lia.
Qed.

Lemma slice_In {A : Type} lo hi (a : list A) x :
  In x (slice lo hi a) -> In x a.
Proof.
  unfold slice. intros Hx.
  set (k := Z.to_nat (clip (len a) lo)) in *.
  set (m := Z.to_nat (clip (len a) hi - clip (len a) lo)) in *.
  rewrite <- (firstn_skipn k a). apply in_or_app. right.
  rewrite <- (firstn_skipn m (skipn k a)). apply in_or_app. now left.
Qed.

Lemma slice_Forall {A : Type} (P : A -> Prop) lo hi (a : list A) :
  Forall P a -> Forall P (slice lo hi a).
Proof.
  intros H. apply Forall_forall. intros x Hx. apply slice_In in Hx.
  rewrite Forall_forall in H. auto.
Qed.

Lemma slice2_square n lo hi M :
  square n M -> (0 <= lo)%Z -> (lo <= hi)%Z -> (hi <= Z.of_nat n)%Z ->
  square (Z.to_nat (hi - lo)) (slice2 lo hi lo hi M).
Proof.
  intros [HL HR] H1 H2 H3. unfold slice2. split.
  - rewrite length_map. apply slice_length; unfold len; lia.
  - apply Forall_forall. intros r Hr. apply in_map_iff in Hr.
    destruct Hr as (r0 & <- & Hin).
    assert (Hr0 : length r0 = n).
    { pose proof (slice_Forall _ lo hi M HR) as F. rewrite Forall_forall in F. auto. }
    apply slice_length; unfold len; lia.
Qed.

Lemma slice_indices_length n lo hi :
  (0 <= lo)%Z -> (lo <= hi)%Z -> (hi <= n)%Z ->
  length (slice_indices n lo hi) = Z.to_nat (hi - lo).
Proof.
  intros H1 H2 H3. unfold slice_indices, clip.
  destruct (Z.ltb_spec lo 0); [lia|]. destruct (Z.ltb_spec hi 0); [lia|].
  rewrite arange_length. lia.
Qed.

End ShapeFacts.


(** ** PatchSolver, iterative variant *)

Module GpuFacts.

Import Py LA Spec.
Open Scope R_scope.

(** C9: in the iterative variant the [regularize] argument of
    [ex2d_patch] reaches nothing but the echoed options: two runs that
    differ only in it raise the same exception or return the same
    [flux], [ivar], [R] and [xflux], each echoing its own value; and the
    [ex2d] of that file, which does not pass its [regularize] on, returns
    the same result for any two values. *)
Theorem regularize_only_echoed :
  forall la image ivar psf specmin nspec wavelengths xyrange ndecorr use_cache
         (r1 r2 : R),
    same_extraction
      (Gpu.ex2d_patch la image ivar psf specmin nspec wavelengths xyrange
                      r1 ndecorr use_cache)
      (Gpu.ex2d_patch la image ivar psf specmin nspec wavelengths xyrange
                      r2 ndecorr use_cache)
    /\ match Gpu.ex2d_patch la image ivar psf specmin nspec wavelengths
                             xyrange r1 ndecorr use_cache with
       | Ok out => Patch.opt_regularize (Patch.options out) = r1
       | Raise _ => True
       end
    /\ (forall xy wavesize full_output,
          Gpu.ex2d la image ivar psf specmin nspec wavelengths xy r1 ndecorr
                   wavesize full_output
          = Gpu.ex2d la image ivar psf specmin nspec wavelengths xy r2 ndecorr
                     wavesize full_output).
Proof.
  intros. split; [|split].
  - unfold same_extraction, Gpu.ex2d_patch.
    destruct (reshape nspec (len wavelengths) _) as [f|e]; simpl; [|reflexivity].
    destruct (eigh la _) as [u v].
    destruct (reshape nspec (len wavelengths) (matvec _ _)) as [fx|e]; simpl;
      [|reflexivity].
    destruct (reshape nspec (len wavelengths) (diagonal _)) as [vx|e]; simpl;
      [|reflexivity].
    repeat split.
  - unfold Gpu.ex2d_patch.
    destruct (reshape nspec (len wavelengths) _) as [f|e]; simpl; [|exact I].
    destruct (eigh la _) as [u v].
    destruct (reshape nspec (len wavelengths) (matvec _ _)) as [fx|e]; simpl;
      [|exact I].
    destruct (reshape nspec (len wavelengths) (diagonal _)) as [vx|e]; simpl;
      [|exact I].
    reflexivity.
  - intros. reflexivity.
Qed.

End GpuFacts.


(** ** ResolutionBuilder *)

Module ResolutionFacts.

Import Py LA Spec PyFacts LAFacts ShapeFacts.
Import Resolution.
Open Scope R_scope.

Lemma threshold_val : threshold = 10 / 4503599627370496.
Proof.
  unfold threshold, float_epsilon.
  replace (2 ^ 52) with 4503599627370496 by (simpl; lra). reflexivity.
Qed.

Lemma threshold_bounds : 0 < threshold < 1.
Proof. rewrite threshold_val. lra. Qed.

Lemma rescale_length invert sqr m w : length (rescale invert sqr m w) = length w.
Proof. unfold rescale. destruct invert, sqr; now rewrite ?length_map. Qed.

Lemma np_max_nonempty (w : vec) : w <> [] -> exists m, np_max w = Ok m.
Proof. destruct w; [congruence|]. intros _. eexists. reflexivity. Qed.

Lemma eigen_compose_eq w v invert sqr m :
  np_max w = Ok m ->
  eigen_compose w v invert sqr = Ok (compose (rescale invert sqr m w) v).
Proof.
  intros Hm. unfold eigen_compose, compose. rewrite Hm. simpl.
  now rewrite rescale_length.
Qed.

Lemma eigen_compose_raise w v invert sqr e :
  eigen_compose w v invert sqr = Raise e -> e = ValueError /\ w = [].
Proof.
  unfold eigen_compose. destruct w; simpl; [|discriminate].
  intros H. injection H as <-. auto.
Qed.

Lemma eigen_compose_square n w v invert sqr M :
  square n v -> length w = n -> eigen_compose w v invert sqr = Ok M ->
  square n M.
Proof.
  intros Hv Hw. destruct (np_max w) as [m|e] eqn:Em.
  - rewrite (eigen_compose_eq w v invert sqr m Em). intros H. injection H as <-.
    apply compose_square; [assumption|]. now rewrite rescale_length.
  - unfold eigen_compose. rewrite Em. discriminate.
Qed.

Lemma broadcast_rows_raise c X e : broadcast_rows c X = Raise e -> e = ValueError.
Proof.
  induction X as [|x X IH]; simpl; [discriminate|].
  unfold broadcast_row. destruct (Nat.eqb (length x) c); simpl.
  - destruct (broadcast_rows c X); simpl; [discriminate|]. intros H.
    injection H as <-. now apply IH.
  - destruct (Nat.eqb (length x) 1); simpl.
    + destruct (broadcast_rows c X); simpl; [discriminate|]. intros H.
      injection H as <-. now apply IH.
    + intros H. now injection H as <-.
Qed.

Lemma assign_block_raise M rows c0 c1 X e :
  assign_block M rows c0 c1 X = Raise e -> e = ValueError.
Proof.
  unfold assign_block. destruct (Nat.eqb _ _).
  - destruct (broadcast_rows _ X) eqn:E; simpl; [discriminate|].
    intros H. injection H as <-. eapply broadcast_rows_raise; eassumption.
  - intros H. now injection H as <-.
Qed.

Lemma decorr_blocks_raise la inverse d : forall S offset e,
  decorr_blocks la inverse S offset d = Raise e -> e = ValueError.
Proof.
  induction d as [|b rest IH]; intros S offset e; simpl; [discriminate|].
  destruct (eigh la _) as [bw bv].
  destruct (eigen_compose bw bv true true) as [blk|e1] eqn:E1; simpl.
  - destruct (assign_slice2 _ _ _ _ _ blk) as [S'|e2] eqn:E2; simpl.
    + apply IH.
    + intros H. injection H as <-. unfold assign_slice2 in E2.
      eapply assign_block_raise; eassumption.
  - intros H. injection H as <-. now apply eigen_compose_raise in E1.
Qed.

Lemma decorr_blocks_square la inverse n d : forall S offset Q,
  square n S -> decorr_blocks la inverse S offset d = Ok Q -> square n Q.
Proof.
  induction d as [|b rest IH]; intros S offset Q HS; simpl.
  - intros H. now injection H as <-.
  - destruct (eigh la _) as [bw bv].
    destruct (eigen_compose bw bv true true) as [blk|e1]; simpl; [|discriminate].
    destruct (assign_slice2 _ _ _ _ _ blk) as [S'|e2] eqn:E2; simpl;
      [|discriminate].
    apply IH. unfold assign_slice2 in E2.
    eapply assign_block_square; eassumption.
Qed.

Lemma zsum_pos d : Forall (fun b => (0 < b)%Z) d -> (0 <= zsum d)%Z.
Proof. unfold zsum. induction 1; simpl; lia. Qed.

Lemma decorr_blocks_ok la inverse n :
  eigh_shaped la -> square n inverse -> (0 < n)%nat ->
  forall d S offset,
    Forall (fun b => (0 < b)%Z) d -> (0 <= offset)%Z ->
    (offset + zsum d = Z.of_nat n)%Z -> square n S ->
    exists Q, decorr_blocks la inverse S offset d = Ok Q.
Proof.
  intros Hla Hinv Hn. induction d as [|b rest IH]; intros S offset Hd Ho Hs HS;
    simpl; [eexists; reflexivity|].
  inversion Hd as [|? ? Hb Hrest]; subst.
  pose proof (zsum_pos rest Hrest) as Hz.
  assert (Hs' : (offset + b + zsum rest = Z.of_nat n)%Z)
    by (unfold zsum in *; simpl in Hs; lia).
  pose proof (slice2_square n offset (offset + b) inverse Hinv
                ltac:(lia) ltac:(lia) ltac:(lia)) as Hblk.
  replace (offset + b - offset)%Z with b in Hblk by lia.
  destruct (Hla (slice2 offset (offset + b) offset (offset + b) inverse))
    as [Hw Hv].
  destruct (eigh la _) as [bw bv]. simpl in Hw, Hv.
  unfold nrows in Hw, Hv. rewrite (proj1 Hblk) in Hw, Hv.
  destruct (np_max_nonempty bw) as [m Hm].
  { intros ->. simpl in Hw. lia. }
  rewrite (eigen_compose_eq bw bv true true m Hm).
  assert (Hc : square (Z.to_nat b) (compose (rescale true true m bw) bv))
    by (apply compose_square; [assumption | now rewrite rescale_length]).
  set (blk := compose (rescale true true m bw) bv) in *. simpl bind.
  unfold assign_slice2, assign_block.
  destruct HS as [HSl HSr]. unfold nrows. rewrite HSl.
  rewrite (square_ncols n S (conj HSl HSr) Hn).
  rewrite !slice_indices_length by lia.
  replace (offset + b - offset)%Z with b by lia.
  rewrite (proj1 Hc), Nat.eqb_refl.
  rewrite (broadcast_rows_fit _ _ (proj2 Hc)). simpl bind.
  apply IH; try assumption; try lia.
  apply put_block_square. now split.
Qed.

Lemma symmetrize_square n icov :
  square n icov -> square n (mscale (1 / 2) (madd icov (transpose icov))).
Proof.
  intros H. apply mscale_square, madd_square; [assumption|].
  now apply transpose_square.
Qed.

Lemma sqrt_icov_square la icov decorr n Q :
  eigh_shaped la -> square n icov ->
  sqrt_icov_of la icov decorr = Ok Q -> square n Q.
Proof.
  intros Hla Hic. unfold sqrt_icov_of.
  pose proof (symmetrize_square n icov Hic) as Hs.
  set (icov' := mscale (1 / 2) (madd icov (transpose icov))) in *.
  destruct (Hla icov') as [Hw Hv]. destruct (eigh la icov') as [w v].
  simpl in Hw, Hv. unfold nrows in *. rewrite (proj1 Hs) in *.
  destruct decorr as [d|].
  - destruct (negb _); [discriminate|].
    destruct (eigen_compose w v true false) as [inverse|e]; simpl bind;
      [|discriminate].
    apply decorr_blocks_square.
    destruct (Nat.eq_dec n 0) as [->|Hn].
    + split; [reflexivity|constructor].
    + rewrite (square_ncols n icov' Hs) by lia. apply zeros2_square.
  - now apply eigen_compose_square.
Qed.

(** C7, as the code has it: with a list [decorr], the function raises
    [RuntimeError] exactly when the entries do not sum to the dimension
    of the matrix; and when they do, every block size is positive and
    the largest eigenvalue of the symmetrised matrix is positive (so
    that the regularised inverse, whose blocks go to the eigensolver, is
    made of finite numbers), it decorrelates block by block and
    returns. *)
Theorem decorr_sizes_checked :
  forall la icov d n,
    eigh_shaped la -> square n icov -> (0 < n)%nat ->
    (resolution_from_icov la icov (Some d) = Raise RuntimeError
     <-> zsum d <> Z.of_nat n)
    /\ (zsum d = Z.of_nat n -> Forall (fun b => (0 < b)%Z) d ->
        DomainSpec.positive_max
          (fst (eigh la (DomainSpec.symmetrised icov))) ->
        exists R ivar, resolution_from_icov la icov (Some d) = Ok (R, ivar)).
Proof.
  intros la icov d n Hla Hic Hn.
  unfold resolution_from_icov, sqrt_icov_of.
  pose proof (symmetrize_square n icov Hic) as Hs.
  set (icov' := mscale (1 / 2) (madd icov (transpose icov))) in *.
  destruct (Hla icov') as [Hw Hv]. destruct (eigh la icov') as [w v].
  simpl in Hw, Hv. unfold nrows in *. rewrite (proj1 Hs) in *.
  rewrite (square_ncols n icov' Hs Hn).
  destruct (np_max_nonempty w) as [m Hm].
  { intros ->. simpl in Hw. lia. }
  rewrite (eigen_compose_eq w v true false m Hm).
  set (inverse := compose (rescale true false m w) v).
  assert (Hinv : square n inverse)
    by (apply compose_square; [assumption | now rewrite rescale_length]).
  simpl bind. destruct (Z.eqb_spec (zsum d) (Z.of_nat n)) as [He|He]; simpl.
  - split.
    + split; [|contradiction]. intros H.
      destruct (decorr_blocks la inverse (zeros2 n n) 0 d) as [Q|e] eqn:E;
        simpl in H; [discriminate|].
      apply decorr_blocks_raise in E. congruence.
    + intros _ Hd _.
      destruct (decorr_blocks_ok la inverse n Hla Hinv Hn d (zeros2 n n) 0%Z
                  Hd ltac:(lia) ltac:(lia) (zeros2_square n)) as [Q ->].
      simpl. eauto.
  - split; [split; auto|contradiction].
Qed.

Lemma identity_backend_shaped : eigh_shaped identity_backend.
Proof.
  intros M. simpl. unfold ones, identity. rewrite repeat_length.
  split; [reflexivity|]. unfold square, spdiags.
  rewrite length_map, length_seq. split; [reflexivity|].
  apply Forall_forall. intros r Hr. apply in_map_iff in Hr.
  destruct Hr as (i & <- & _). now rewrite length_map, length_seq.
Qed.

Lemma positive_max_ones n : (0 < n)%nat -> DomainSpec.positive_max (ones n).
Proof.
  intros Hn. destruct n as [|n]; [lia|]. unfold DomainSpec.positive_max, ones.
  cbn [repeat np_max]. eexists. split; [reflexivity|].
  assert (G : forall k a, 0 < a -> 0 < fold_left Rmax (repeat 1 k) a).
  { induction k as [|k IH]; intros a Ha; cbn [repeat fold_left]; [assumption|].
    apply IH. unfold Rmax. destruct (Rle_dec a 1); lra. }
  apply G. lra.
Qed.

(** The theorem at a diagonal matrix of two spectra with one bin each. *)
Lemma decorr_sizes_checked_witness :
  eigh_shaped identity_backend /\ square 2 [[2; 0]; [0; 3]] /\ (0 < 2)%nat
  /\ zsum [1; 1]%Z = Z.of_nat 2 /\ Forall (fun b => (0 < b)%Z) [1; 1]%Z
  /\ DomainSpec.positive_max
       (fst (eigh identity_backend
                  (DomainSpec.symmetrised [[2; 0]; [0; 3]])))
  /\ exists R ivar,
       resolution_from_icov identity_backend [[2; 0]; [0; 3]] (Some [1; 1]%Z)
       = Ok (R, ivar).
Proof.
  assert (Hsq : square 2 [[2; 0]; [0; 3]]) by (split; [reflexivity|repeat constructor]).
  assert (Hd : Forall (fun b => (0 < b)%Z) [1; 1]%Z) by (repeat constructor).
  assert (Hp : DomainSpec.positive_max
                 (fst (eigh identity_backend
                            (DomainSpec.symmetrised [[2; 0]; [0; 3]]))))
    by (apply (positive_max_ones 2); lia).
  split; [exact identity_backend_shaped|]. split; [exact Hsq|].
  split; [lia|]. split; [reflexivity|]. split; [exact Hd|].
  split; [exact Hp|].
  exact (proj2 (decorr_sizes_checked identity_backend [[2; 0]; [0; 3]]
                  [1; 1]%Z 2 identity_backend_shaped Hsq ltac:(lia))
               eq_refl Hd Hp).
Defined.

(** C7, as the specification states it, fails: for the matrix [[1]] and
    the block sizes [0; 1], which sum to the dimension, the function
    does not return: the empty block has no largest eigenvalue. *)
Lemma zero_block_raises :
  zsum [0; 1]%Z = Z.of_nat (nrows [[1]])
  /\ resolution_from_icov scalar_backend [[1]] (Some [0; 1]%Z)
     = Raise ValueError.
Proof. split; reflexivity. Qed.

(** *** Normalisation of the rows *)

Lemma rsum_scaled_ones c : forall (q : vec) n,
  length q = n ->
  rsum (zip_with Rmult (map (fun y => c * y) (ones n)) q) = c * rsum q.
Proof.
  unfold rsum, ones. induction q as [|x q IH]; intros n Hn; simpl in *.
  - destruct (map _ _); simpl; lra.
  - destruct n as [|n]; [discriminate|]. simpl. rewrite (IH n) by lia. lra.
Qed.

Lemma zip_with_map_self {A B C : Type} (g : B -> A -> C) (h : A -> B) a :
  zip_with g (map h a) a = map (fun x => g (h x) x) a.
Proof. induction a; simpl; congruence. Qed.

(** The matrix [R] that [resolution_from_icov] builds from [sqrt_icov]. *)
Lemma resolution_rows (Q : mat) :
  hadamard (outer (map Rinv (sum_axis1 Q)) (ones (length (sum_axis1 Q)))) Q
  = map (fun q => zip_with Rmult
                    (map (fun y => / rsum q * y) (ones (length Q))) q) Q.
Proof.
  unfold hadamard, outer, np_outer, sum_axis1.
  rewrite !map_map, length_map. apply zip_with_map_self.
Qed.

(** The inverse variance that [resolution_from_icov] returns is the
    elementwise square of the normalisation vector, the row sums of
    [sqrt_icov]. *)
Lemma resolution_from_icov_ivar la icov decorr R ivar :
  resolution_from_icov la icov decorr = Ok (R, ivar) ->
  exists Q, sqrt_icov_of la icov decorr = Ok Q
    /\ ivar = map (fun n => n ^ 2) (sum_axis1 Q).
Proof.
  unfold resolution_from_icov.
  destruct (sqrt_icov_of la icov decorr) as [Q|e]; simpl; [|discriminate].
  intros H. injection H as _ <-. eauto.
Qed.

(** C4, as the code has it: the function returns whenever it has built
    [sqrt_icov], and every row of the resolution matrix whose
    normalisation entry, the sum of that row of [sqrt_icov], is not zero
    sums to 1; so when no entry is zero all rows sum to 1 within
    [1e-8]. *)
Theorem rows_normalised :
  forall la icov decorr n Q,
    eigh_shaped la -> square n icov ->
    sqrt_icov_of la icov decorr = Ok Q ->
    exists R ivar,
      resolution_from_icov la icov decorr = Ok (R, ivar)
      /\ length R = n
      /\ (forall i, (i < n)%nat -> rsum (nth i Q []) <> 0 ->
                    rsum (nth i R []) = 1)
      /\ (Forall (fun q => rsum q <> 0) Q -> rows_sum_to_one R).
Proof.
  intros la icov decorr n Q Hla Hic HQ.
  pose proof (sqrt_icov_square la icov decorr n Q Hla Hic HQ) as [HQl HQr].
  unfold resolution_from_icov. rewrite HQ. simpl bind.
  do 2 eexists. split; [reflexivity|].
  rewrite resolution_rows, HQl.
  assert (Hrow : forall q, In q Q -> rsum q <> 0 ->
            rsum (zip_with Rmult (map (fun y => / rsum q * y) (ones n)) q) = 1).
  { intros q Hq Hne. rewrite Forall_forall in HQr.
    rewrite rsum_scaled_ones by (now apply HQr). now apply Rinv_l. }
  split; [now rewrite length_map|]. split.
  - intros i Hi Hne.
    set (f := fun q : vec =>
                zip_with Rmult (map (fun y => / rsum q * y) (ones n)) q).
    replace (@nil R) with (f []) at 1
      by (unfold f; now destruct (map _ (ones n))).
    rewrite map_nth. apply Hrow; [|assumption]. apply nth_In.
    unfold vec in *. lia.
  - intros Hall. unfold rows_sum_to_one. apply Forall_forall.
    intros r Hr. apply in_map_iff in Hr. destruct Hr as (q & <- & Hq).
    rewrite Forall_forall in Hall. rewrite Hrow by auto.
    replace (1 - 1) with 0 by lra. rewrite Rabs_R0. lra.
Qed.

(** The theorem at the matrix [[4]] of one bin. *)
Lemma rows_normalised_witness :
  eigh_shaped identity_backend /\ square 1 [[4]]
  /\ sqrt_icov_of identity_backend [[4]] None = Ok [[1 * (1 * 1 + 0) + 0]]
  /\ exists R ivar,
       resolution_from_icov identity_backend [[4]] None = Ok (R, ivar)
       /\ length R = 1%nat.
Proof.
  assert (Hsq : square 1 [[4]]) by (split; [reflexivity|repeat constructor]).
  assert (HQ : sqrt_icov_of identity_backend [[4]] None
               = Ok [[1 * (1 * 1 + 0) + 0]]).
  { reval. rewrite threshold_val, sqrt_1. rdecide_step. reflexivity. }
  split; [exact identity_backend_shaped|]. split; [exact Hsq|].
  split; [exact HQ|].
  destruct (rows_normalised identity_backend [[4]] None 1 _
              identity_backend_shaped Hsq HQ) as (R & ivar & H1 & H2 & _).
  exists R, ivar. now split.
Defined.

Lemma Rmax_9_784 : Rmax 9 784 = 784.
Proof. unfold Rmax. destruct (Rle_dec 9 784); lra. Qed.

Lemma sqrt_9 : sqrt 9 = 3.
Proof. apply sqrt_lem_1; lra. Qed.

Lemma sqrt_784 : sqrt 784 = 28.
Proof. apply sqrt_lem_1; lra. Qed.

Lemma eigh_9_784_correct :
  symmetric icov_9_784
  /\ positive_eigendecomposition icov_9_784 (fst (eigh_9_784 icov_9_784))
                                            (snd (eigh_9_784 icov_9_784)).
Proof.
  split; [reflexivity|]. split; [|split].
  - repeat constructor; simpl; lra.
  - reval. rlist.
  - reval. rlist.
Qed.

(** C4, as the specification states it, fails: [icov_9_784] is symmetric
    and positive definite, with eigenvalues 9 and 784; its square root is
    [[19, -12], [-12, 12]], whose second row sums to zero, so the second
    row of the resolution matrix is not normalised (its entries are the
    products of the reciprocal of zero, which is not finite in the
    source and is 0 here). *)
Lemma zero_norm_row_not_normalised :
  symmetric icov_9_784
  /\ positive_eigendecomposition icov_9_784 (fst (eigh_9_784 icov_9_784))
                                            (snd (eigh_9_784 icov_9_784))
  /\ exists Q R ivar,
       sqrt_icov_of backend_9_784 icov_9_784 None = Ok Q
       /\ sum_axis1 Q = [7; 0]
       /\ resolution_from_icov backend_9_784 icov_9_784 None = Ok (R, ivar)
       /\ ~ rows_sum_to_one R.
Proof.
  destruct eigh_9_784_correct as [Hs Hp]. split; [exact Hs|]. split; [exact Hp|].
  assert (HQ : exists Q, sqrt_icov_of backend_9_784 icov_9_784 None = Ok Q
                 /\ length Q = 2%nat
                 /\ Forall (fun q => length q = 2%nat) Q
                 /\ sum_axis1 Q = [7; 0]).
  { reval. rewrite Rmax_9_784, sqrt_784, sqrt_9, threshold_val.
    repeat rdecide_step.
    eexists. split; [reflexivity|]. split; [reflexivity|].
    split; [repeat constructor|]. reval. rlist. }
  destruct HQ as (Q & HQ & HQl & HQr & Hsum).
  exists Q. unfold resolution_from_icov. rewrite HQ. simpl bind.
  do 2 eexists. split; [reflexivity|]. split; [exact Hsum|].
  split; [reflexivity|].
  rewrite resolution_rows, HQl. intros Hall.
  destruct Q as [|q0 [|q1 [|q2 Q]]]; try discriminate.
  inversion HQr as [|? ? _ HQr1]; subst.
  inversion HQr1 as [|? ? Hq1 _]; subst.
  injection Hsum as _ Hsum1.
  unfold rows_sum_to_one in Hall. rewrite Forall_forall in Hall.
  set (f := fun q : vec =>
              zip_with Rmult (map (fun y => / rsum q * y) (ones 2)) q) in *.
  assert (H1 : Rabs (rsum (f q1) - 1) <= 1e-8).
  { apply Hall. apply (in_map f [q0; q1] q1). simpl. auto. }
  unfold f in H1. rewrite rsum_scaled_ones in H1 by assumption.
  rewrite Hsum1 in H1.
  replace (/ 0 * 0 - 1) with (- (1)) in H1 by lra.
  rewrite Rabs_Ropp, Rabs_R1 in H1. lra.
Qed.

(** *** Round trips of [eigen_compose] *)

Lemma rescale_invert w m :
  Forall (fun x => x > threshold * m) w ->
  rescale true false m w = map Rinv w.
Proof.
  intros H. unfold rescale. apply map_ext_in. intros x Hx.
  rewrite Forall_forall in H. rewrite gtb_true by (apply Rlt_gt; rewrite Rmult_comm; apply H, Hx).
  unfold Rdiv. apply Rmult_1_l.
Qed.

(** Inverting twice: for positive, well-conditioned eigenvalues [w] the
    first call returns [v diag(1/w) v^T], and the call on the inverted
    eigenvalues returns [v diag(w) v^T] again. *)
Lemma double_inversion w v :
  w <> [] -> Forall (fun x => 0 < x) w -> well_conditioned w ->
  eigen_compose w v true false = Ok (compose (map Rinv w) v)
  /\ eigen_compose (map Rinv w) v true false = Ok (compose w v).
Proof.
  intros Hne Hpos Hwc. destruct (np_max_nonempty w Hne) as [m Hm].
  specialize (Hwc m Hm). pose proof threshold_bounds as Ht.
  destruct (np_max_In w m Hm) as [Hin Hle].
  split.
  - rewrite (eigen_compose_eq w v true false m Hm). now rewrite rescale_invert.
  - destruct (np_max_nonempty (map Rinv w)) as [m' Hm'].
    { destruct w; [congruence|discriminate]. }
    rewrite (eigen_compose_eq _ v true false m' Hm'). f_equal. f_equal.
    destruct (np_max_In _ m' Hm') as [Hin' _].
    apply in_map_iff in Hin'. destruct Hin' as (wk & <- & Hk).
    unfold rescale. rewrite map_map. rewrite <- (map_id w) at 2.
    apply map_ext_in. intros x Hx.
    rewrite Forall_forall in Hpos, Hwc, Hle.
    pose proof (Hpos x Hx) as Px. pose proof (Hpos wk Hk) as Pk.
    pose proof (Hwc wk Hk) as Wk. pose proof (Hle x Hx) as Lx.
    pose proof (Hpos m Hin) as Pm.
    rewrite gtb_true.
    + field. lra.
    + (* 1/x > (1/wk) * threshold, as wk > threshold * m >= threshold * x *)
      apply Rlt_gt. apply (Rmult_lt_reg_r (x * wk)); [nra|].
      replace (/ wk * threshold * (x * wk)) with (threshold * x) by (field; lra).
      replace (/ x * (x * wk)) with wk by (field; lra).
      nra.
Qed.

Lemma sqrt_1e_30 : sqrt 1e-30 = 1e-15.
Proof. apply sqrt_lem_1; lra. Qed.

(** C8 at the matrix [[1e-30]]: its eigendecomposition is
    [([1e-30], [[1]])], its only eigenvalue is the largest one and so
    above the threshold of the claim; the square-root branch compares
    the eigenvalue itself, not its root [1e-15], with
    [sqrt(max) * threshold = 2.2e-30] and replaces the root by that
    bound, so that the square of the result is below [1e-50] instead of
    [1e-30].  Inverting twice does return the matrix. *)
Theorem sqrt_twice_at_small_scale :
  well_conditioned [1e-30]
  /\ positive_eigendecomposition [[1e-30]] [1e-30] [[1]]
  /\ (exists Minv,
        eigen_compose [1e-30] [[1]] true false = Ok Minv
        /\ Minv = compose (map Rinv [1e-30]) [[1]]
        /\ eigen_compose (map Rinv [1e-30]) [[1]] true false
           = Ok (compose [1e-30] [[1]]))
  /\ exists S,
       eigen_compose [1e-30] [[1]] false true = Ok S
       /\ S = [[1 * (sqrt 1e-30 * threshold * 1 + 0) + 0]]
       /\ nth 0 (nth 0 (matmul S S) []) 0 < 1e-50
       /\ matmul S S <> [[1e-30]].
Proof.
  pose proof threshold_bounds as Ht.
  assert (Hwc : well_conditioned [1e-30]).
  { intros m Hm. injection Hm as <-. constructor; [nra|constructor]. }
  assert (Hpos : Forall (fun x => 0 < x) [1e-30])
    by (constructor; [lra|constructor]).
  split; [exact Hwc|]. split; [|split].
  - split; [exact Hpos|]. split; reval; rlist.
  - destruct (double_inversion [1e-30] [[1]] ltac:(discriminate) Hpos Hwc)
      as [H1 H2].
    eexists. split; [exact H1|]. split; [reflexivity|exact H2].
  - eexists. split.
    + rewrite (eigen_compose_eq [1e-30] [[1]] false true 1e-30 eq_refl).
      unfold rescale. cbv [map].
      rewrite gtb_false by (rewrite sqrt_1e_30, threshold_val; lra).
      reflexivity.
    + split; [reflexivity|].
      assert (Hv : nth 0 (nth 0 (matmul (compose [sqrt 1e-30 * threshold] [[1]])
                                        (compose [sqrt 1e-30 * threshold] [[1]]))
                                 []) 0 < 1e-50).
      { reval. sqrt_is 1e-15. rewrite threshold_val. lra. }
      split; [exact Hv|].
      intros H. rewrite H in Hv. simpl in Hv. lra.
Qed.

End ResolutionFacts.


(** ** PatchPlanner and PatchStitcher: [ex2d] *)

Module EngineFacts.

Import Py LA Spec PyFacts LAFacts.
Import Engine.
Open Scope R_scope.

Ltac rabs := unfold Rabs; repeat destruct (Rcase_abs _); lra.

Lemma index_ok {A : Type} (a : list A) (i : Z) :
  (0 <= i < len a)%Z -> exists x, index a i = Ok x.
Proof.
  intros H. unfold index.
  destruct (Z.ltb_spec i 0); [lia|].
  destruct (Z.leb_spec 0 i); [|lia]. destruct (Z.ltb_spec i (len a)); [|lia].
  cbn [andb]. destruct (nth_error a (Z.to_nat i)) eqn:E; [eexists; reflexivity|].
  apply nth_error_None in E. unfold len in H. lia.
Qed.

Lemma index_last_ok {A : Type} (a : list A) :
  (0 < len a)%Z -> exists x, index a (-1) = Ok x.
Proof.
  intros H. unfold index. change (-1 <? 0)%Z with true. cbv iota.
  destruct (Z.leb_spec 0 (-1 + len a)); [|lia].
  destruct (Z.ltb_spec (-1 + len a) (len a)); [|lia].
  cbn [andb]. destruct (nth_error a (Z.to_nat (-1 + len a))) eqn:E; [eexists; reflexivity|].
  apply nth_error_None in E. unfold len in *. lia.
Qed.

Lemma index_raise {A : Type} (a : list A) (i : Z) e :
  index a i = Raise e -> e = IndexError.
Proof.
  unfold index. destruct (_ && _); [|congruence].
  destruct (nth_error _ _); congruence.
Qed.

(** The entries of [np.diff(w)] are the steps of [w]. *)
Lemma diff_In (w : vec) x :
  In x (diff w) <-> exists i, (S i < length w)%nat /\ x = step w i.
Proof.
  unfold diff, step. induction w as [|a [|b t] IH].
  - simpl. split; [contradiction|]. intros (i & Hi & _). simpl in Hi. lia.
  - simpl. split; [contradiction|]. intros (i & Hi & _). simpl in Hi. lia.
  - change (tl (a :: b :: t)) with (b :: t).
    change (tl (b :: t)) with t in IH.
    simpl zip_with. simpl In. rewrite IH. split.
    + intros [<-|(i & Hi & ->)].
      * exists 0%nat. simpl. split; [lia|reflexivity].
      * exists (S i). simpl in *. split; [lia|reflexivity].
    + intros ([|i] & Hi & ->).
      * left. reflexivity.
      * right. exists i. simpl in *. split; [lia|reflexivity].
Qed.

Lemma check_grid_short (w : vec) :
  (length w < 2)%nat -> check_grid w = Raise IndexError.
Proof.
  intros H. unfold check_grid.
  destruct w as [|a [|b t]]; simpl in H; try lia; reflexivity.
Qed.

Lemma check_grid_long (w : vec) :
  (2 <= length w)%nat ->
  check_grid w
  = if negb (allclose (step w 0) (diff w)) then Raise ValueError
    else Ok (step w 0).
Proof.
  intros H. unfold check_grid.
  destruct w as [|a [|b t]]; simpl in H; try lia.
  destruct (index_ok (a :: b :: t) 1) as [x1 H1]; [unfold len; simpl length; lia|].
  destruct (index_ok (a :: b :: t) 0) as [x0 H0]; [unfold len; simpl length; lia|].
  rewrite H1, H0. simpl bind.
  assert (x1 = b).
  { revert H1. unfold index. change (1 <? 0)%Z with false. cbv iota.
    destruct (_ && _); simpl; congruence. }
  assert (x0 = a).
  { revert H0. unfold index. change (0 <? 0)%Z with false. cbv iota.
    destruct (_ && _); simpl; congruence. }
  subst. reflexivity.
Qed.

Lemma allclose_false a (b : vec) :
  allclose a b = false
  <-> exists x, In x b /\ Rabs (a - x) > atol + rtol * Rabs x.
Proof.
  unfold allclose. induction b as [|y b IH]; simpl.
  - split; [discriminate|]. intros (x & [] & _).
  - rewrite andb_false_iff, IH. split.
    + intros [H|(x & Hx & Hgt)].
      * exists y. split; [now left|]. unfold leb in H.
        destruct (Rle_dec _ _); [discriminate|lra].
      * exists x. split; [now right|assumption].
    + intros (x & [->|Hx] & Hgt).
      * left. apply leb_false. lra.
      * right. eauto.
Qed.

Lemma check_grid_raise (w : vec) e :
  check_grid w = Raise e -> e = IndexError \/ e = ValueError.
Proof.
  destruct (Nat.lt_ge_cases (length w) 2) as [H|H].
  - rewrite check_grid_short by assumption. intros E. left. congruence.
  - rewrite check_grid_long by assumption.
    destruct (negb _); intros E; [right; congruence|discriminate].
Qed.

Lemma check_grid_ok_length (w : vec) dw :
  check_grid w = Ok dw -> (2 <= length w)%nat /\ dw = step w 0.
Proof.
  destruct (Nat.lt_ge_cases (length w) 2) as [H|H].
  - rewrite check_grid_short by assumption. discriminate.
  - rewrite check_grid_long by assumption.
    destruct (negb _); [discriminate|]. intros E. split; [assumption|congruence].
Qed.

Lemma check_grid_uniform (w : vec) :
  (2 <= length w)%nat -> uniform w -> check_grid w = Ok (step w 0).
Proof.
  intros H Hu. rewrite check_grid_long by assumption.
  destruct (allclose (step w 0) (diff w)) eqn:E; [reflexivity|].
  apply allclose_false in E. destruct E as (x & Hx & Hgt).
  apply diff_In in Hx. destruct Hx as (i & Hi & ->).
  rewrite (Hu i Hi) in Hgt. exfalso.
  replace (step w 0 - step w 0) with 0 in Hgt by lra.
  rewrite Rabs_R0 in Hgt. pose proof (Rabs_pos (step w 0)).
  unfold atol, rtol in Hgt. nra.
Qed.

(** C6, as the code has it: [ex2d] raises [ValueError], as its first
    step and whatever the other arguments are, exactly when the grid has
    at least two wavelengths and some step is farther from the first one
    than the tolerance of [np.allclose] ([1e-8 + 1e-5 |step|]); a grid of
    at least two wavelengths with one step throughout passes the test. *)
Theorem grid_check_tolerance :
  forall wavelengths,
    (check_grid wavelengths = Raise ValueError
     <-> (2 <= length wavelengths)%nat /\ beyond_tolerance wavelengths)
    /\ ((2 <= length wavelengths)%nat -> uniform wavelengths ->
        check_grid wavelengths = Ok (step wavelengths 0))
    /\ (forall variant image imageivar psf specmin nspec xyrange regularize
               ndecorr wavesize full_output,
          check_grid wavelengths = Raise ValueError ->
          ex2d variant image imageivar psf specmin nspec wavelengths xyrange
               regularize ndecorr wavesize full_output = Raise ValueError).
Proof.
  intros w. split; [|split].
  - destruct (Nat.lt_ge_cases (length w) 2) as [H|H].
    + rewrite check_grid_short by assumption. split; [discriminate|]. lia.
    + rewrite check_grid_long by assumption.
      destruct (allclose (step w 0) (diff w)) eqn:E; simpl.
      * split; [discriminate|]. intros [_ (i & Hi & Hgt)].
        assert (F : allclose (step w 0) (diff w) = false).
        { apply allclose_false. exists (step w i). split; [|exact Hgt].
          apply diff_In. eauto. }
        congruence.
      * split; [|reflexivity]. intros _. split; [assumption|].
        apply allclose_false in E. destruct E as (x & Hx & Hgt).
        apply diff_In in Hx. destruct Hx as (i & Hi & ->). exists i. auto.
  - apply check_grid_uniform.
  - intros. unfold ex2d. rewrite H. reflexivity.
Qed.

(** The theorem at the grid 3600, 3601, 3602. *)
Lemma grid_check_tolerance_witness :
  (2 <= length [3600; 3601; 3602])%nat /\ uniform [3600; 3601; 3602]
  /\ check_grid [3600; 3601; 3602] = Ok (step [3600; 3601; 3602] 0).
Proof.
  assert (Hu : uniform [3600; 3601; 3602]).
  { intros [|[|i]] Hi; unfold step; simpl in *; try lra; lia. }
  split; [simpl; lia|]. split; [exact Hu|].
  apply (proj1 (proj2 (grid_check_tolerance [3600; 3601; 3602])));
    [simpl; lia|exact Hu].
Defined.

(** C6, as the specification states it, fails: the grid 0, 1, 2.000001
    does not have one step throughout, and passes the test. *)
Lemma nearly_uniform_grid_accepted :
  ~ uniform [0; 1; 2.000001]
  /\ check_grid [0; 1; 2.000001] = Ok (step [0; 1; 2.000001] 0)
  /\ check_grid [0; 1; 2.000001] <> Raise ValueError.
Proof.
  assert (Hc : check_grid [0; 1; 2.000001] = Ok (step [0; 1; 2.000001] 0)).
  { rewrite check_grid_long by (simpl; lia).
    replace (allclose _ _) with true; [reflexivity|].
    symmetry. unfold allclose, diff, step, atol, rtol. simpl.
    rewrite !leb_true; [reflexivity| |]; rabs. }
  split; [|split; [exact Hc | rewrite Hc; discriminate]].
  intros Hu. specialize (Hu 1%nat ltac:(simpl; lia)).
  unfold step in Hu. simpl in Hu. lra.
Qed.

(** *** The mask of 25 spectra *)






Lemma ndiag_term_ok psf dw ispec w :
  dw <> 0 ->
  ndiag_term psf dw ispec w = Ok (py_round (9 * Psf.wdisp psf ispec w / dw)).
Proof. intros H. unfold ndiag_term. now destruct (Req_dec_T dw 0). Qed.

Lemma ndiag_of_ok psf specmin nspec dw :
  dw <> 0 -> exists ndiag, ndiag_of psf specmin nspec dw = Ok ndiag
                           /\ (0 <= ndiag)%Z.
Proof.
  intros Hdw. unfold ndiag_of.
  assert (G : forall samples acc, (0 <= acc)%Z ->
            exists nd,
              for_each (fun (ndiag : Z) '(ispec, w) =>
                          t <- ndiag_term psf dw ispec w ;;
                          Ok (Z.max ndiag t)) samples acc = Ok nd
              /\ (0 <= nd)%Z).
  { induction samples as [|[ispec w] rest IH]; intros acc Hacc;
      cbn [for_each].
    - eauto.
    - rewrite ndiag_term_ok by assumption. simpl bind. apply IH. lia. }
  destruct (G (list_prod [specmin; (specmin + nspec / 2)%Z;
                          (specmin + nspec - 1)%Z]
                         [Psf.wmin psf; 0.5 * (Psf.wmin psf + Psf.wmax psf);
                          Psf.wmax psf]) 0%Z ltac:(lia)) as (nd & -> & Hnd).
  simpl bind. eexists. split; [reflexivity|].
  pose proof (Z.div_pos (Z.of_nat (fst (Psf.pix_shape psf 0%Z
                ((Psf.wmin_all psf + Psf.wmax_all psf) / 2)))) 2).
  pose proof (Z.div_pos (Z.of_nat (snd (Psf.pix_shape psf 0%Z
                ((Psf.wmin_all psf + Psf.wmax_all psf) / 2)))) 2).
  lia.
Qed.


Lemma np_zeros2_ok r c :
  (0 <= r)%Z -> (0 <= c)%Z -> exists M, np_zeros2 r c = Ok M.
Proof.
  intros Hr Hc. unfold np_zeros2.
  destruct (Z.ltb_spec r 0); [lia|]. destruct (Z.ltb_spec c 0); [lia|].
  eexists. reflexivity.
Qed.

Lemma np_zeros3_ok r b c :
  (0 <= r)%Z -> (0 <= b)%Z -> (0 <= c)%Z -> exists M, np_zeros3 r b c = Ok M.
Proof.
  intros Hr Hb Hc. unfold np_zeros3.
  destruct (Z.ltb_spec r 0); [lia|]. destruct (Z.ltb_spec b 0); [lia|].
  destruct (Z.ltb_spec c 0); [lia|]. eexists. reflexivity.
Qed.

#[local] Arguments patch_step : simpl never.


Lemma uniform_0_1_2 : uniform [0; 1; 2].
Proof. intros [|[|i]] Hi; unfold step; simpl in *; try lra; lia. Qed.



End EngineFacts.


(** * Further properties *)

(** ** SubbundleSplitter: errors, sizes and extract ranges *)

Module SplitMore.

Import Py Split Spec SplitterSpec PyFacts SplitFacts.
Open Scope Z_scope.

Lemma set_nth_app {A : Type} (l1 : list A) k v (t : list A) :
  set_nth (length l1 + k) v (l1 ++ t) = l1 ++ set_nth k v t.
Proof. induction l1; simpl; [reflexivity|]. now rewrite IHl1. Qed.

Lemma swap_step_app l1 x y l2 :
  swap_step (l1 ++ x :: y :: l2) (len l1)
  = l1 ++ (if y <? x then y :: x :: l2 else x :: y :: l2).
Proof.
  unfold swap_step, get, set, len.
  replace (Z.to_nat (Z.of_nat (length l1) + 1)) with (length l1 + 1)%nat by lia.
  rewrite Nat2Z.id.
  rewrite !app_nth2 by lia.
  replace (length l1 + 1 - length l1)%nat with 1%nat by lia.
  rewrite Nat.sub_diag. simpl nth.
  destruct (y <? x); [|reflexivity].
  rewrite set_nth_app. simpl set_nth.
  rewrite <- (Nat.add_0_r (length l1)) at 1. rewrite set_nth_app. reflexivity.
Qed.

Lemma fold_bubble : forall t l1 x,
  fold_left swap_step (arange (len l1) (len l1 + len t)) (l1 ++ x :: t)
  = l1 ++ bubble x t.
Proof.
  induction t as [|y t IH]; intros l1 x.
  - unfold len at 3. simpl length. rewrite arange_nil by lia. reflexivity.
  - rewrite arange_cons by (unfold len; simpl length; lia).
    simpl fold_left. rewrite swap_step_app. simpl bubble.
    assert (E : len l1 + 1 = len (l1 ++ [x])).
    { unfold len. rewrite length_app. simpl. lia. }
    assert (E' : forall a : Z, len l1 + 1 = len (l1 ++ [a])).
    { intros a. unfold len. rewrite length_app. simpl. lia. }
    replace (len l1 + len (y :: t)) with (len l1 + 1 + len t)
      by (unfold len; simpl length; lia).
    destruct (y <? x).
    + rewrite (E' y).
      change (l1 ++ y :: x :: t) with (l1 ++ [y] ++ x :: t).
      rewrite app_assoc, IH, <- app_assoc. reflexivity.
    + rewrite (E' x).
      change (l1 ++ x :: y :: t) with (l1 ++ [x] ++ y :: t).
      rewrite app_assoc, IH, <- app_assoc. reflexivity.
Qed.

(** The loop of [split_bundle] over a list of [n] sizes is one bubble
    pass. *)
Lemma rearrange_bubble x t :
  rearrange (len (x :: t)) (x :: t) = bubble x t.
Proof.
  unfold rearrange.
  replace (len (x :: t) - 1) with (len (@nil Z) + len t)
    by (unfold len; simpl length; lia).
  change 0 with (len (@nil Z)). apply (fold_bubble t [] x).
Qed.

Lemma bubble_small q m : bubble (q + 1) (repeat q m) = repeat q m ++ [q + 1].
Proof.
  induction m; simpl; [reflexivity|].
  destruct (Z.ltb_spec q (q + 1)); [|lia]. now rewrite IHm.
Qed.

Lemma bubble_large q k m :
  bubble (q + 1) (repeat (q + 1) k ++ repeat q m)
  = repeat (q + 1) k ++ repeat q m ++ [q + 1].
Proof.
  induction k; simpl; [apply bubble_small|].
  destruct (Z.ltb_spec (q + 1) (q + 1)); [lia|]. now rewrite IHk.
Qed.

Lemma bubble_equal q m : bubble q (repeat q m) = q :: repeat q m.
Proof.
  induction m; simpl; [reflexivity|].
  destruct (Z.ltb_spec q q); [lia|]. now rewrite IHm.
Qed.


Lemma rearranged_sizes_pos bundlesize n :
  1 <= n -> n <= bundlesize ->
  Forall (fun s => 1 <= s) (rearranged_sizes bundlesize n)
  /\ zsum (rearranged_sizes bundlesize n) = bundlesize.
Proof.
  intros Hn Hl. unfold rearranged_sizes.
  pose proof (Z.mod_pos_bound bundlesize n ltac:(lia)) as Hm.
  pose proof (Z.div_mod bundlesize n ltac:(lia)) as Hd.
  assert (1 <= bundlesize / n) by (apply Z.div_le_lower_bound; lia).
  destruct (Z.eqb_spec (bundlesize mod n) 0) as [E|E].
  - split.
    + apply Forall_forall. intros x Hx. apply repeat_spec in Hx. lia.
    + rewrite zsum_repeat, Z2Nat.id by lia. nia.
  - split.
    + repeat (apply Forall_app; split);
        try (apply Forall_forall; intros x Hx; apply repeat_spec in Hx; lia).
      constructor; [lia|constructor].
    + rewrite !zsum_app, !zsum_repeat, !Z2Nat.id by lia.
      unfold zsum. simpl. nia.
Qed.

(** What the sizes are once the loop of [split_bundle] has run. *)
Lemma rearrange_sizes bundlesize n :
  1 <= n -> n <= bundlesize ->
  exists sizes, array_split_sizes bundlesize n = Ok sizes
    /\ rearrange n sizes = rearranged_sizes bundlesize n.
Proof.
  intros Hn Hl. unfold array_split_sizes, rearranged_sizes.
  destruct (Z.leb_spec n 0); [lia|].
  eexists; split; [reflexivity|].
  pose proof (Z.mod_pos_bound bundlesize n ltac:(lia)) as Hm.
  set (q := bundlesize / n). set (r := bundlesize mod n) in *.
  destruct (Z.eqb_spec r 0) as [E|E].
  - rewrite E. simpl app. rewrite Z.sub_0_r.
    destruct (Z.to_nat n) as [|k] eqn:Ek; [lia|]. simpl repeat.
    replace n with (len (q :: repeat q k))
      by (unfold len; simpl length; rewrite repeat_length; lia).
    rewrite rearrange_bubble. apply bubble_equal.
  - replace (Z.to_nat r) with (S (Z.to_nat (r - 1))) by lia.
    simpl repeat. simpl app.
    set (t := repeat (q + 1) (Z.to_nat (r - 1)) ++ repeat q (Z.to_nat (n - r))).
    assert (Hlen : n = len (q + 1 :: t)).
    { unfold len, t. simpl length. rewrite !length_app, !repeat_length. lia. }
    rewrite Hlen at 1. unfold t.
    rewrite rearrange_bubble. apply bubble_large.
Qed.

Lemma populate_lengths sizes : forall imin,
  Forall (fun s => 1 <= s) sizes -> map len (populate imin sizes) = sizes.
Proof.
  induction sizes as [|s t IH]; intros imin H; simpl; [reflexivity|].
  inversion H; subst. rewrite IH by assumption. f_equal.
  unfold len. rewrite arange_length. lia.
Qed.

Lemma extract_all_lengths bundlesize sizes : forall imin,
  Forall (fun s => 1 <= s) sizes -> 0 <= imin ->
  imin + zsum sizes <= bundlesize ->
  exists exts, extract_all bundlesize (populate imin sizes) = Ok exts
    /\ map len exts = ext_lens bundlesize imin sizes.
Proof.
  induction sizes as [|s t IH]; intros imin H Hi Hs; simpl.
  - exists []. split; reflexivity.
  - apply Forall_cons_iff in H as [H1 Ht]. pose proof (zsum_nonneg _ Ht).
    assert (Hz : zsum (s :: t) = s + zsum t) by (unfold zsum; reflexivity).
    rewrite extract_one_block by lia. simpl.
    destruct (IH (imin + s) Ht) as (exts & -> & HL); [lia|lia|]. simpl.
    eexists; split; [reflexivity|]. simpl. rewrite HL. f_equal.
    unfold len. rewrite arange_length.
    destruct (Z.eqb_spec imin 0), (Z.eqb_spec (imin + s) bundlesize); lia.
Qed.

Lemma ext_lens_tail bundlesize mid : forall imin sl,
  0 < imin -> Forall (fun s => 1 <= s) mid -> 1 <= sl ->
  imin + zsum mid + sl = bundlesize ->
  ext_lens bundlesize imin (mid ++ [sl])
  = map (fun s => s + 2) mid ++ [sl + 1].
Proof.
  induction mid as [|s t IH]; intros imin sl Hi H Hsl Hs; simpl.
  - unfold zsum in Hs. simpl in Hs.
    destruct (Z.eqb_spec imin 0), (Z.eqb_spec (imin + sl) bundlesize); try lia.
    f_equal. lia.
  - apply Forall_cons_iff in H as [H1 Ht]. pose proof (zsum_nonneg _ Ht).
    assert (Hz : zsum (s :: t) = s + zsum t) by (unfold zsum; reflexivity).
    rewrite IH by (try assumption; lia).
    destruct (Z.eqb_spec imin 0), (Z.eqb_spec (imin + s) bundlesize); try lia.
    f_equal. lia.
Qed.

Lemma ext_lens_head bundlesize s0 mid sl :
  1 <= s0 -> Forall (fun s => 1 <= s) mid -> 1 <= sl ->
  s0 + zsum mid + sl = bundlesize ->
  ext_lens bundlesize 0 (s0 :: mid ++ [sl])
  = (s0 + 1) :: map (fun s => s + 2) mid ++ [sl + 1].
Proof.
  intros H0 H Hsl Hs. pose proof (zsum_nonneg _ H). simpl.
  rewrite ext_lens_tail by (try assumption; lia).
  destruct (Z.eqb_spec (s0) bundlesize); try lia. f_equal. lia.
Qed.

Lemma Forall_repeat {A : Type} (P : A -> Prop) x k : P x -> Forall P (repeat x k).
Proof. intros H. apply Forall_forall. intros y Hy. apply repeat_spec in Hy. now subst. Qed.

Lemma map_repeat {A B : Type} (f : A -> B) x k : map f (repeat x k) = repeat (f x) k.
Proof. induction k; simpl; congruence. Qed.

(** The extract lengths of the rearranged sizes take two consecutive
    values at most. *)
Lemma ext_lens_rearranged bundlesize n :
  1 <= n -> n <= bundlesize ->
  exists c, Forall (fun x => x = c \/ x = c + 1)
              (ext_lens bundlesize 0 (rearranged_sizes bundlesize n)).
Proof.
  intros Hn Hl.
  destruct (rearranged_sizes_pos bundlesize n Hn Hl) as (Hpos & Hsum).
  revert Hpos Hsum. unfold rearranged_sizes.
  pose proof (Z.mod_pos_bound bundlesize n ltac:(lia)) as Hm.
  assert (1 <= bundlesize / n) by (apply Z.div_le_lower_bound; lia).
  set (q := bundlesize / n) in *. set (r := bundlesize mod n) in *.
  destruct (Z.eqb_spec r 0) as [E|E].
  - (* all sizes equal *)
    destruct (Z.eq_dec n 1) as [->|N1].
    + change (Z.to_nat 1) with 1%nat. intros _ Hs.
      change (zsum (repeat q 1)) with (q + 0) in Hs.
      exists q. cbn [repeat ext_lens]. constructor; [|constructor].
      destruct (Z.eqb_spec (0 + q) bundlesize), (Z.eqb_spec 0 0); lia.
    + replace (Z.to_nat n) with (S (Z.to_nat (n - 2) + 1)) by lia.
      simpl repeat. rewrite repeat_app. simpl (repeat q 1).
      intros Hpos Hs.
      assert (Hz : forall x l, zsum (x :: l) = x + zsum l) by (intros; reflexivity).
      rewrite Hz, zsum_app in Hs. rewrite (Hz q []) in Hs.
      change (zsum []) with 0 in Hs.
      rewrite ext_lens_head; [|lia|apply Forall_repeat; lia|lia|lia].
      exists (q + 1). rewrite map_repeat.
      constructor; [lia|]. apply Forall_app. split.
      * apply Forall_repeat. lia.
      * constructor; [lia|constructor].
  - destruct (Z.eq_dec r 1) as [R1|R1].
    + (* one larger subbundle, at the far edge *)
      replace (Z.to_nat (r - 1)) with 0%nat by lia. simpl app.
      replace (Z.to_nat (n - r)) with (S (Z.to_nat (n - 2))) by lia.
      simpl repeat. simpl app. intros Hpos Hs.
      assert (Hz : forall x l, zsum (x :: l) = x + zsum l) by (intros; reflexivity).
      rewrite Hz, zsum_app in Hs. rewrite (Hz (q + 1) []) in Hs.
      change (zsum []) with 0 in Hs.
      rewrite ext_lens_head; [|lia|apply Forall_repeat; lia|lia|lia].
      exists (q + 1). rewrite map_repeat.
      constructor; [lia|]. apply Forall_app. split.
      * apply Forall_repeat. lia.
      * constructor; [lia|constructor].
    + (* a larger subbundle at each edge *)
      replace (Z.to_nat (r - 1)) with (S (Z.to_nat (r - 2))) by lia.
      simpl repeat. rewrite <- app_comm_cons, app_assoc. intros Hpos Hs.
      assert (Hz : forall x l, zsum (x :: l) = x + zsum l) by (intros; reflexivity).
      rewrite Hz, zsum_app in Hs. rewrite (Hz (q + 1) []) in Hs.
      change (zsum []) with 0 in Hs.
      rewrite ext_lens_head;
        [|lia|apply Forall_app; split; apply Forall_repeat; lia|lia|lia].
      exists (q + 2). rewrite map_app, !map_repeat.
      constructor; [lia|]. repeat (apply Forall_app; split).
      * apply Forall_repeat. lia.
      * apply Forall_repeat. lia.
      * constructor; [lia|constructor].
Qed.

(** The run of [split_bundle] on a valid request. *)
Lemma split_bundle_run bundlesize n :
  1 <= n -> n <= bundlesize ->
  exists exts,
    split_bundle bundlesize n
    = Ok (populate 0 (rearranged_sizes bundlesize n), exts)
    /\ map len exts = ext_lens bundlesize 0 (rearranged_sizes bundlesize n).
Proof.
  intros Hn Hl. unfold split_bundle.
  destruct (Z.ltb_spec bundlesize n); [lia|].
  destruct (rearrange_sizes bundlesize n Hn Hl) as (sizes & -> & E).
  destruct (rearranged_sizes_pos bundlesize n Hn Hl) as (Hpos & Hsum).
  cbv beta iota delta [bind]. rewrite E.
  destruct (extract_all_lengths bundlesize _ 0 Hpos) as (exts & -> & HL);
    [lia|lia|].
  exists exts. split; [reflexivity|assumption].
Qed.

(** X1: for a bundle of at most a million fibers (a size whose index
    array [np.arange(bundlesize)] numpy builds as the integers
    [0 .. bundlesize-1]), [split_bundle] raises exactly when more
    subbundles are asked for than the bundle has fibers, or fewer than
    one; the exception is then [ValueError], and no other exception is
    raised. *)
Theorem split_bundle_raises_iff bundlesize n :
  bundlesize <= 1000000 ->
  (split_bundle bundlesize n = Raise ValueError
   <-> bundlesize < n \/ n <= 0)
  /\ forall e, split_bundle bundlesize n = Raise e -> e = ValueError.
Proof.
  intros _.
  assert (R : bundlesize < n \/ n <= 0 ->
              split_bundle bundlesize n = Raise ValueError).
  { intros Hc. unfold split_bundle.
    destruct (Z.ltb_spec bundlesize n); [reflexivity|].
    unfold array_split_sizes. destruct (Z.leb_spec n 0); [reflexivity|lia]. }
  assert (O : ~ (bundlesize < n \/ n <= 0) ->
              forall e, split_bundle bundlesize n <> Raise e).
  { intros Hc e. destruct (split_bundle_run bundlesize n) as (exts & -> & _);
      [lia|lia|discriminate]. }
  split; [split|].
  - intros HR. destruct (Z.lt_ge_cases bundlesize n); [now left|].
    destruct (Z.le_gt_cases n 0); [now right|].
    exfalso. apply (O ltac:(lia) _ HR).
  - exact R.
  - intros e He.
    destruct (Z.lt_ge_cases bundlesize n);
      [rewrite R in He by lia; congruence|].
    destruct (Z.le_gt_cases n 0);
      [rewrite R in He by lia; congruence|].
    exfalso. apply (O ltac:(lia) _ He).
Qed.

(** The theorem at the bundle of 10 fibers of the docstring, split in
    three. *)
Lemma split_bundle_raises_iff_witness :
  10 <= 1000000
  /\ (split_bundle 10 3 = Raise ValueError <-> 10 < 3 \/ 3 <= 0)
  /\ forall e, split_bundle 10 3 = Raise e -> e = ValueError.
Proof.
  split; [lia|]. apply (split_bundle_raises_iff 10 3). lia.
Defined.

(** X2: for [1 <= n <= bundlesize] the subbundles returned have, in
    order, the sizes left by the exchange loop: with
    [q = bundlesize // n] and [r = bundlesize % n], all [q] when
    [r = 0], and otherwise [r - 1] of size [q + 1], then [n - r] of size
    [q], then one of size [q + 1] at the far edge. *)
Theorem split_bundle_sizes bundlesize n :
  1 <= n -> n <= bundlesize ->
  exists subs exts,
    split_bundle bundlesize n = Ok (subs, exts)
    /\ map len subs
       = if bundlesize mod n =? 0 then repeat (bundlesize / n) (Z.to_nat n)
         else repeat (bundlesize / n + 1) (Z.to_nat (bundlesize mod n - 1))
              ++ repeat (bundlesize / n) (Z.to_nat (n - bundlesize mod n))
              ++ [bundlesize / n + 1].
Proof.
  intros Hn Hl.
  destruct (split_bundle_run bundlesize n Hn Hl) as (exts & E & _).
  destruct (rearranged_sizes_pos bundlesize n Hn Hl) as (Hpos & _).
  eexists _, exts. split; [exact E|].
  rewrite populate_lengths by assumption. reflexivity.
Qed.

(** The theorem at 23 fibers in 7 subbundles: sizes 4, 3, 3, 3, 3, 3, 4. *)
Lemma split_bundle_sizes_witness :
  exists subs exts,
    split_bundle 23 7 = Ok (subs, exts)
    /\ map len subs = [4; 3; 3; 3; 3; 3; 4].
Proof. apply (split_bundle_sizes 23 7); lia. Defined.

(** X3: for [1 <= n <= bundlesize] the lengths of the extract ranges
    returned differ by at most one, as the docstring of [split_bundle]
    notes. *)
Theorem extract_lengths_within_one bundlesize n :
  1 <= n -> n <= bundlesize ->
  exists subs exts,
    split_bundle bundlesize n = Ok (subs, exts)
    /\ forall e1 e2, In e1 exts -> In e2 exts -> len e1 - len e2 <= 1.
Proof.
  intros Hn Hl.
  destruct (split_bundle_run bundlesize n Hn Hl) as (exts & E & HL).
  destruct (ext_lens_rearranged bundlesize n Hn Hl) as (c & Hc).
  eexists _, exts. split; [exact E|].
  rewrite <- HL in Hc. rewrite Forall_forall in Hc.
  intros e1 e2 H1 H2.
  pose proof (Hc _ (in_map len _ _ H1)). pose proof (Hc _ (in_map len _ _ H2)).
  lia.
Qed.

(** The theorem at 23 fibers in 7 subbundles. *)
Lemma extract_lengths_within_one_witness :
  exists subs exts,
    split_bundle 23 7 = Ok (subs, exts)
    /\ forall e1 e2, In e1 exts -> In e2 exts -> len e1 - len e2 <= 1.
Proof. apply (extract_lengths_within_one 23 7); lia. Defined.

End SplitMore.


(** ** Entries of products *)

Module LAMore.

Import Py LA Spec MatrixSpec PyFacts LAFacts ShapeFacts.
Open Scope R_scope.

Lemma nth_map_seq {A : Type} (f : nat -> A) n i d :
  (i < n)%nat -> nth i (map f (seq 0 n)) d = f i.
Proof.
  intros Hi. rewrite (nth_indep _ d (f 0%nat)) by (now rewrite length_map, length_seq).
  rewrite map_nth, seq_nth by assumption. reflexivity.
Qed.

Lemma map_seq_shift {A : Type} (f : nat -> A) n :
  map f (seq 0 (S n)) = f 0%nat :: map (fun i => f (S i)) (seq 0 n).
Proof. simpl. now rewrite <- seq_shift, map_map. Qed.

Lemma map_nth_seq {A : Type} (l : list A) d :
  map (fun i => nth i l d) (seq 0 (length l)) = l.
Proof.
  induction l as [|x l IH]; [reflexivity|].
  simpl length. rewrite map_seq_shift. simpl. now rewrite IH.
Qed.

Lemma rsum_zero v : Forall (fun x => x = 0) v -> rsum v = 0.
Proof. unfold rsum. induction 1; simpl; subst; lra. Qed.

(** The dot product with a vector that has one entry [c], at [i]. *)
Lemma dot_indicator_l c i : forall n s (x : vec),
  dot (map (fun j => if Nat.eqb i j then c else 0) (seq s n)) x
  = if (Nat.leb s i && Nat.ltb i (s + n))%bool then c * nth (i - s) x 0 else 0.
Proof.
  unfold dot, rsum.
  induction n as [|n IH]; intros s x; simpl.
  - destruct (Nat.leb_spec s i), (Nat.ltb_spec i (s + 0)); simpl; try lra; lia.
  - destruct x as [|y x]; simpl.
    + destruct (_ && _)%bool; [destruct (i - s)%nat|]; lra.
    + rewrite IH.
      destruct (Nat.eqb_spec i s) as [->|Hne].
      * rewrite Nat.sub_diag.
        destruct (Nat.leb_spec (S s) s); [lia|].
        destruct (Nat.leb_spec s s); [|lia].
        destruct (Nat.ltb_spec s (s + S n)); [|lia]. simpl. lra.
      * destruct (Nat.leb_spec (S s) i), (Nat.leb_spec s i),
          (Nat.ltb_spec i (S s + n)), (Nat.ltb_spec i (s + S n));
          simpl; try lia; try lra.
        replace (i - s)%nat with (S (i - S s)) by lia. simpl. lra.
Qed.

Lemma dot_comm : forall (a b : vec), dot a b = dot b a.
Proof.
  unfold dot, rsum. induction a as [|x a IH]; intros [|y b]; simpl; try lra.
  rewrite IH. lra.
Qed.

Lemma dot_indicator_r c i n (x : vec) :
  (i < n)%nat ->
  dot x (map (fun j => if Nat.eqb i j then c else 0) (seq 0 n))
  = nth i x 0 * c.
Proof.
  intros Hi. rewrite dot_comm, dot_indicator_l.
  destruct (Nat.ltb_spec i (0 + n)); [|lia]. simpl. rewrite Nat.sub_0_r. lra.
Qed.

Lemma nth_col j M i : nth i (col j M) 0 = entry M i j.
Proof.
  unfold col, entry.
  replace 0 with ((fun r : list R => nth j r 0) []) at 1
    by (now destruct j).
  apply (map_nth (fun r : list R => nth j r 0)).
Qed.

Lemma col_entries j (M : mat) :
  col j M = map (fun k => entry M k j) (seq 0 (length M)).
Proof.
  induction M as [|r M IH]; [reflexivity|].
  simpl length. rewrite map_seq_shift. simpl. now rewrite IH.
Qed.

Lemma entry_transpose M i j :
  (i < ncols M)%nat -> entry (transpose M) i j = entry M j i.
Proof.
  intros Hi. unfold entry at 1, transpose.
  rewrite (nth_map_seq (fun j => col j M)) by assumption. apply nth_col.
Qed.

Lemma entry_matmul A B i j :
  (i < length A)%nat -> (j < ncols B)%nat ->
  entry (matmul A B) i j = dot (nth i A []) (col j B).
Proof.
  intros Hi Hj. unfold entry, matmul.
  rewrite (nth_indep _ [] ((fun r => map (fun j => dot r (col j B)) (seq 0 (ncols B))) []))
    by (now rewrite length_map).
  rewrite (map_nth (fun r => map (fun j => dot r (col j B)) (seq 0 (ncols B)))).
  now rewrite (nth_map_seq (fun j => dot (nth i A []) (col j B))).
Qed.

Lemma ncols_transpose_square n M :
  square n M -> (0 < n)%nat -> ncols (transpose M) = n.
Proof. intros H Hn. apply square_ncols; [now apply transpose_square|assumption]. Qed.

(** A matrix is the table of its entries. *)
Lemma mat_table n (M : mat) :
  length M = n -> Forall (fun r => length r = n) M ->
  M = map (fun i => map (fun j => entry M i j) (seq 0 n)) (seq 0 n).
Proof.
  intros Hl Hr. unfold entry.
  rewrite <- (map_nth_seq M []) at 1. rewrite Hl.
  apply map_ext_in. intros i Hi. apply in_seq in Hi.
  rewrite Forall_forall in Hr.
  assert (Hn : length (nth i M []) = n) by (apply Hr, nth_In; lia).
  rewrite <- Hn. symmetry. apply map_nth_seq.
Qed.

Lemma mat_ext n (M N : mat) :
  square n M -> square n N ->
  (forall i j, (i < n)%nat -> (j < n)%nat -> entry M i j = entry N i j) ->
  M = N.
Proof.
  intros [HM FM] [HN FN] H.
  rewrite (mat_table n M HM FM), (mat_table n N HN FN).
  apply map_ext_in. intros i Hi. apply in_seq in Hi.
  apply map_ext_in. intros j Hj. apply in_seq in Hj.
  apply H; lia.
Qed.

Lemma spdiags_row d n i :
  (i < n)%nat ->
  nth i (spdiags d n) []
  = map (fun j => if Nat.eqb i j then nth i d 0 else 0) (seq 0 n).
Proof.
  intros Hi. unfold spdiags.
  now rewrite (nth_map_seq
    (fun i => map (fun j => if Nat.eqb i j then nth i d 0 else 0) (seq 0 n))).
Qed.

Lemma spdiags_square d n : square n (spdiags d n).
Proof.
  split; [apply spdiags_length|]. unfold spdiags.
  apply Forall_forall. intros r Hr. apply in_map_iff in Hr.
  destruct Hr as (i & <- & _). now rewrite length_map, length_seq.
Qed.

Lemma entry_spdiags d n i j :
  (i < n)%nat -> (j < n)%nat ->
  entry (spdiags d n) i j = if Nat.eqb i j then nth i d 0 else 0.
Proof.
  intros Hi Hj. unfold entry. rewrite spdiags_row by assumption.
  now rewrite (nth_map_seq (fun j => if Nat.eqb i j then nth i d 0 else 0)).
Qed.

Lemma col_spdiags d n j :
  (j < n)%nat ->
  col j (spdiags d n)
  = map (fun i => if Nat.eqb j i then nth j d 0 else 0) (seq 0 n).
Proof.
  intros Hj. unfold col, spdiags. rewrite map_map.
  apply map_ext_in. intros i Hi. apply in_seq in Hi.
  rewrite (nth_map_seq (fun j => if Nat.eqb i j then nth i d 0 else 0)) by assumption.
  destruct (Nat.eqb_spec i j), (Nat.eqb_spec j i); subst; try reflexivity; lia.
Qed.

(** [diag(d) M] scales the rows of [M]. *)
Lemma entry_diag_mul d n M i j :
  (i < n)%nat -> (j < ncols M)%nat ->
  entry (matmul (spdiags d n) M) i j = nth i d 0 * entry M i j.
Proof.
  intros Hi Hj.
  rewrite entry_matmul by (rewrite ?spdiags_length; assumption).
  rewrite spdiags_row by assumption.
  rewrite dot_indicator_l.
  destruct (Nat.ltb_spec i (0 + n)); [|lia]. simpl.
  now rewrite Nat.sub_0_r, nth_col.
Qed.

(** [M diag(d)] scales the columns of [M]. *)
Lemma entry_mul_diag d n M i j :
  (i < length M)%nat -> (j < n)%nat ->
  entry (matmul M (spdiags d n)) i j = entry M i j * nth j d 0.
Proof.
  intros Hi Hj.
  assert (Hc : ncols (spdiags d n) = n)
    by (apply square_ncols; [apply spdiags_square|lia]).
  rewrite entry_matmul by (rewrite ?Hc; assumption).
  rewrite col_spdiags by assumption.
  now rewrite dot_indicator_r.
Qed.

Lemma zip_nth_seq (d b : vec) : forall n,
  length d = n -> length b = n ->
  map (fun i => nth i d 0 * nth i b 0) (seq 0 n) = zip_with Rmult d b.
Proof.
  revert b. induction d as [|x d IH]; intros [|y b] n Hd Hb; simpl in *;
    subst n; try discriminate; [reflexivity|].
  rewrite map_seq_shift. simpl. f_equal. apply IH; [reflexivity|lia].
Qed.

Lemma dot_weighted_comm : forall (d a b : vec),
  dot a (zip_with Rmult d b) = dot b (zip_with Rmult d a).
Proof.
  unfold dot, rsum.
  induction d as [|x d IH]; intros [|y a] [|z b]; simpl; try lra.
  rewrite IH. lra.
Qed.

(** The entries of [v diag(d) v^T]: a weighted product of two rows of
    [v]. *)
Lemma entry_compose n d v i j :
  square n v -> length d = n -> (i < n)%nat -> (j < n)%nat ->
  entry (compose d v) i j
  = dot (nth i v []) (zip_with Rmult d (nth j v [])).
Proof.
  intros Hv Hd Hi Hj. unfold compose. rewrite Hd.
  pose proof (ncols_transpose_square n v Hv ltac:(lia)) as Hct.
  pose proof (square_ncols n v Hv ltac:(lia)) as Hcv.
  destruct (matmul_shape (spdiags d n) (transpose v)) as [Hl Hr].
  rewrite spdiags_length in Hl.
  assert (Hc : ncols (matmul (spdiags d n) (transpose v)) = n).
  { destruct (matmul (spdiags d n) (transpose v)) as [|r t]; simpl in *; [lia|].
    inversion Hr; subst. congruence. }
  destruct Hv as [Hvl Hvr].
  rewrite entry_matmul by (rewrite ?Hc; lia).
  f_equal.
  rewrite <- (zip_nth_seq d (nth j v []) n); [| assumption |].
  2:{ rewrite Forall_forall in Hvr. apply Hvr, nth_In. lia. }
  rewrite col_entries, Hl.
  apply map_ext_in. intros k Hk. apply in_seq in Hk.
  rewrite entry_diag_mul by (rewrite ?Hct; lia).
  rewrite entry_transpose by lia. reflexivity.
Qed.

Lemma transpose_entries n M :
  square n M ->
  (forall i j, (i < n)%nat -> (j < n)%nat -> entry M i j = entry M j i) ->
  symmetric M.
Proof.
  intros HM H. unfold symmetric.
  apply (mat_ext n); [now apply transpose_square|assumption|].
  intros i j Hi Hj. rewrite entry_transpose; [now apply H|].
  rewrite (square_ncols n M HM); lia.
Qed.

Lemma compose_symmetric n d v :
  square n v -> length d = n -> symmetric (compose d v).
Proof.
  intros Hv Hd. apply (transpose_entries n).
  - now apply compose_square.
  - intros i j Hi Hj.
    rewrite !(entry_compose n) by assumption. apply dot_weighted_comm.
Qed.

End LAMore.


(** ** ResolutionBuilder: symmetry, conditioning, shapes and blocks *)

Module ResolutionMore.

Import Py LA Spec MatrixSpec BlockSpec DomainSpec PyFacts LAFacts ShapeFacts LAMore.
Import Resolution ResolutionFacts.
Open Scope R_scope.

(** X4: for a square matrix of eigenvectors with one eigenvalue per
    row, the matrix [eigen_compose] returns is symmetric, in each of its
    four modes. *)
Theorem eigen_compose_symmetric n w v invert sqr M :
  square n v -> length w = n ->
  eigen_compose w v invert sqr = Ok M -> symmetric M.
Proof.
  intros Hv Hw. destruct (np_max w) as [m|e] eqn:Em.
  - rewrite (eigen_compose_eq w v invert sqr m Em). intros H. injection H as <-.
    apply (compose_symmetric n); [assumption|]. now rewrite rescale_length.
  - unfold eigen_compose. rewrite Em. discriminate.
Qed.

(** The theorem at the eigenvalues 9 and 784 and a rotation. *)
Lemma eigen_compose_symmetric_witness :
  square 2 [[3 / 5; 4 / 5]; [4 / 5; - (3 / 5)]]
  /\ length [9; 784] = 2%nat
  /\ exists M,
       eigen_compose [9; 784] [[3 / 5; 4 / 5]; [4 / 5; - (3 / 5)]] true true
       = Ok M /\ symmetric M.
Proof.
  assert (Hsq : square 2 [[3 / 5; 4 / 5]; [4 / 5; - (3 / 5)]])
    by (split; [reflexivity|repeat constructor]).
  split; [exact Hsq|]. split; [reflexivity|].
  assert (E : eigen_compose [9; 784] [[3 / 5; 4 / 5]; [4 / 5; - (3 / 5)]]
                 true true
               = Ok (compose (rescale true true (Rmax 9 784) [9; 784])
                             [[3 / 5; 4 / 5]; [4 / 5; - (3 / 5)]]))
    by (apply eigen_compose_eq; reflexivity).
  eexists. split; [exact E|].
  exact (eigen_compose_symmetric 2 [9; 784] _ true true _ Hsq eq_refl E).
Defined.

Lemma gtb_spec a b : gtb a b = true /\ a > b \/ gtb a b = false /\ a <= b.
Proof. unfold gtb. destruct (Rlt_dec b a); [left|right]; split; auto; lra. Qed.

Lemma inv_le a b : 0 < a -> a <= b -> 1 / b <= 1 / a.
Proof.
  intros Ha Hab. unfold Rdiv. rewrite !Rmult_1_l.
  apply Rinv_le_contravar; assumption.
Qed.

Lemma inv_pos a : 0 < a -> 0 < 1 / a.
Proof. intros Ha. unfold Rdiv. rewrite Rmult_1_l. now apply Rinv_0_lt_compat. Qed.

(** X5: when the largest eigenvalue is positive, the values
    [eigen_compose] puts on the diagonal are all positive, in each
    mode; and without the square root (plain or inverting) any two of
    them are within the factor [1 / threshold] of each other, which
    bounds the condition number of the result. *)
Theorem regularised_eigenvalues_bounded w v invert sqr m :
  np_max w = Ok m -> 0 < m ->
  eigen_compose w v invert sqr = Ok (compose (rescale invert sqr m w) v)
  /\ Forall (fun x => 0 < x) (rescale invert sqr m w)
  /\ (sqr = false ->
      forall x y, In x (rescale invert sqr m w) ->
                  In y (rescale invert sqr m w) -> x * threshold <= y).
Proof.
  intros Hm Hpos. split; [now apply eigen_compose_eq|].
  pose proof threshold_bounds as [Ht0 Ht1].
  destruct (np_max_In w m Hm) as [_ Hle]. rewrite Forall_forall in Hle.
  assert (Hmt : 0 < m * threshold) by (now apply Rmult_lt_0_compat).
  assert (Hst : 0 < sqrt m * threshold)
    by (apply Rmult_lt_0_compat; [now apply sqrt_lt_R0|assumption]).
  split.
  - apply Forall_forall. intros x Hx. unfold rescale in Hx.
    destruct invert, sqr.
    + rewrite map_map in Hx. apply in_map_iff in Hx. destruct Hx as (a & <- & Ha).
      destruct (gtb_spec (sqrt a) (sqrt m * threshold)) as [[-> G]|[-> G]];
        apply inv_pos; lra.
    + apply in_map_iff in Hx. destruct Hx as (a & <- & Ha).
      destruct (gtb_spec a (m * threshold)) as [[-> G]|[-> G]];
        apply inv_pos; lra.
    + apply in_map_iff in Hx. destruct Hx as (a & <- & Ha).
      destruct (gtb_spec a (sqrt m * threshold)) as [[-> G]|[-> G]];
        [apply sqrt_lt_R0; lra | lra].
    + apply in_map_iff in Hx. destruct Hx as (a & <- & Ha).
      destruct (gtb_spec a (m * threshold)) as [[-> G]|[-> G]]; lra.
  - intros -> x y Hx Hy. unfold rescale in Hx, Hy. destruct invert.
    + apply in_map_iff in Hx. destruct Hx as (a & <- & Ha).
      apply in_map_iff in Hy. destruct Hy as (b & <- & Hb).
      pose proof (Hle a Ha). pose proof (Hle b Hb).
      assert (Hx : (if gtb a (m * threshold) then 1 / a else 1 / (m * threshold))
                   <= 1 / (m * threshold)).
      { destruct (gtb_spec a (m * threshold)) as [[-> G]|[-> G]];
          [apply inv_le; lra | lra]. }
      assert (Hy : 1 / m <= (if gtb b (m * threshold) then 1 / b
                             else 1 / (m * threshold))).
      { destruct (gtb_spec b (m * threshold)) as [[-> G]|[-> G]];
          apply inv_le; try lra. nra. }
      assert (E : 1 / (m * threshold) * threshold = 1 / m) by (field; lra).
      apply Rle_trans with (1 / (m * threshold) * threshold); [|lra].
      apply Rmult_le_compat_r; lra.
    + apply in_map_iff in Hx. destruct Hx as (a & <- & Ha).
      apply in_map_iff in Hy. destruct Hy as (b & <- & Hb).
      pose proof (Hle a Ha). pose proof (Hle b Hb).
      assert (Hx : (if gtb a (m * threshold) then a else m * threshold) <= m).
      { destruct (gtb_spec a (m * threshold)) as [[-> G]|[-> G]]; [lra|nra]. }
      assert (Hy : m * threshold <= (if gtb b (m * threshold) then b
                                     else m * threshold)).
      { destruct (gtb_spec b (m * threshold)) as [[-> G]|[-> G]]; lra. }
      apply Rle_trans with (m * threshold); [|lra].
      apply Rmult_le_compat_r; lra.
Qed.

(** The theorem at the eigenvalues 9 and 784. *)
Lemma regularised_eigenvalues_bounded_witness :
  np_max [9; 784] = Ok 784 /\ 0 < 784
  /\ Forall (fun x => 0 < x) (rescale true false 784 [9; 784]).
Proof.
  assert (Hm : np_max [9; 784] = Ok 784) by (simpl; now rewrite Rmax_9_784).
  split; [exact Hm|]. split; [lra|].
  apply (regularised_eigenvalues_bounded [9; 784] [] true false 784 Hm); lra.
Defined.


(** *** Without block decorrelation *)

Lemma resolution_square n (Q : mat) :
  square n Q ->
  square n (hadamard (outer (map Rinv (sum_axis1 Q))
                            (ones (length (sum_axis1 Q)))) Q).
Proof.
  intros [HQl HQr]. rewrite resolution_rows, HQl. split.
  - now rewrite length_map.
  - apply Forall_forall. intros r Hr. apply in_map_iff in Hr.
    destruct Hr as (q & <- & Hq). rewrite Forall_forall in HQr.
    rewrite zip_with_length, length_map. unfold ones.
    rewrite repeat_length, (HQr q Hq). lia.
Qed.

(** X6: with an eigensolver that returns arrays of the shape of its
    argument and no [decorr], [resolution_from_icov] refuses the empty
    matrix with [ValueError] and returns on every other square matrix:
    a resolution matrix of the same shape and one inverse variance per
    row, none of them negative. *)
Theorem resolution_of_square_matrix la icov n :
  eigh_shaped la -> square n icov ->
  (n = 0%nat -> resolution_from_icov la icov None = Raise ValueError)
  /\ ((0 < n)%nat ->
      exists R ivar,
        resolution_from_icov la icov None = Ok (R, ivar)
        /\ square n R /\ length ivar = n
        /\ Forall (fun x => 0 <= x) ivar).
Proof.
  intros Hla Hic.
  pose proof (sqrt_icov_square la icov None n) as Hsq.
  unfold resolution_from_icov. revert Hsq. unfold sqrt_icov_of.
  pose proof (symmetrize_square n icov Hic) as Hs.
  set (icov' := mscale (1 / 2) (madd icov (transpose icov))) in *.
  destruct (Hla icov') as [Hw Hv]. destruct (eigh la icov') as [w v].
  simpl in Hw, Hv. unfold nrows in *. rewrite (proj1 Hs) in *.
  intros Hsq. split.
  - intros ->. destruct w; [reflexivity|discriminate].
  - intros Hn. destruct (np_max_nonempty w) as [m Hm].
    { intros ->. simpl in Hw. lia. }
    rewrite (eigen_compose_eq w v false true m Hm) in *.
    specialize (Hsq _ Hla Hic eq_refl).
    cbv beta iota delta [bind].
    do 2 eexists. split; [reflexivity|]. split; [|split].
    + now apply resolution_square.
    + unfold sum_axis1. rewrite !length_map. apply Hsq.
    + apply Forall_forall. intros x Hx. apply in_map_iff in Hx.
      destruct Hx as (y & <- & _). apply pow2_ge_0.
Qed.

(** The theorem at a diagonal matrix of two bins. *)
Lemma resolution_of_square_matrix_witness :
  eigh_shaped identity_backend /\ square 2 [[2; 0]; [0; 3]]
  /\ exists R ivar,
       resolution_from_icov identity_backend [[2; 0]; [0; 3]] None
       = Ok (R, ivar)
       /\ square 2 R /\ length ivar = 2%nat
       /\ Forall (fun x => 0 <= x) ivar.
Proof.
  assert (Hsq : square 2 [[2; 0]; [0; 3]])
    by (split; [reflexivity|repeat constructor]).
  split; [exact identity_backend_shaped|]. split; [exact Hsq|].
  apply (proj2 (resolution_of_square_matrix identity_backend
                  [[2; 0]; [0; 3]] 2 identity_backend_shaped Hsq)).
  lia.
Defined.

(** *** Block decorrelation *)

Lemma entry_set_row_ne (M : mat) k (x : vec) i j :
  k <> i -> entry (set_nth k x M) i j = entry M i j.
Proof. intros H. unfold entry. now rewrite nth_set_nth_ne. Qed.

Lemma put_block_row_frame (rows cols : list Z) :
  forall (M X : mat) (r : nat),
    (forall r', In r' rows -> Z.to_nat r' <> r) ->
    nth r (put_block M rows cols X) [] = nth r M [].
Proof.
  induction rows as [|r0 rows IH]; intros M [|x X] r Hr; simpl; auto.
  rewrite IH by (intros r' Hr'; apply Hr; now right).
  unfold set. apply nth_set_nth_ne. apply Hr. now left.
Qed.

Lemma slice_indices_bounds n lo hi x :
  (0 <= lo)%Z -> (0 <= hi)%Z ->
  In x (slice_indices n lo hi) -> (lo <= x < hi)%Z.
Proof.
  intros Hlo Hhi. unfold slice_indices, clip. rewrite arange_In.
  destruct (Z.ltb_spec lo 0), (Z.ltb_spec hi 0); lia.
Qed.

(** An assignment to [M[r0:r1, c0:c1]] leaves every entry outside the
    block as it was. *)
Lemma assign_slice2_frame M r0 r1 c0 c1 X M' i j :
  (0 <= r0)%Z -> (0 <= r1)%Z -> (0 <= c0)%Z -> (0 <= c1)%Z ->
  assign_slice2 M r0 r1 c0 c1 X = Ok M' ->
  ~ ((r0 <= Z.of_nat i < r1)%Z /\ (c0 <= Z.of_nat j < c1)%Z) ->
  entry M' i j = entry M i j.
Proof.
  intros Hr0 Hr1 Hc0 Hc1. unfold assign_slice2, assign_block.
  destruct (Nat.eqb _ _); [|discriminate].
  destruct (broadcast_rows _ X) as [X'|e]; simpl; [|discriminate].
  intros H. injection H as <-. intros Hout. unfold entry.
  destruct (Z_le_gt_dec r0 (Z.of_nat i)) as [Hi0|Hi0];
    [destruct (Z_lt_le_dec (Z.of_nat i) r1) as [Hi1|Hi1]|].
  - apply StitchFacts.put_block_frame. intros c' Hc'.
    apply slice_indices_bounds in Hc'; lia.
  - rewrite put_block_row_frame; [reflexivity|]. intros r' Hr'.
    apply slice_indices_bounds in Hr'; lia.
  - rewrite put_block_row_frame; [reflexivity|]. intros r' Hr'.
    apply slice_indices_bounds in Hr'; lia.
Qed.

Lemma cuts_lower d : forall offset c,
  Forall (fun b => (0 <= b)%Z) d -> In c (cuts offset d) -> (offset <= c)%Z.
Proof.
  induction d as [|b rest IH]; intros offset c Hd Hc; simpl in *; [contradiction|].
  inversion Hd; subst. destruct Hc as [<-|Hc]; [lia|].
  specialize (IH (offset + b)%Z c H2 Hc). lia.
Qed.

(** The loop over the blocks leaves zero every entry that is zero and
    lies outside the blocks still to come. *)
Lemma decorr_blocks_frame la inverse d : forall S offset Q i j,
  Forall (fun b => (0 <= b)%Z) d -> (0 <= offset)%Z ->
  decorr_blocks la inverse S offset d = Ok Q ->
  entry S i j = 0 ->
  ((Z.of_nat i < offset)%Z \/ (Z.of_nat j < offset)%Z
   \/ exists c, In c (cuts offset d)
        /\ ((Z.of_nat i < c <= Z.of_nat j)%Z
            \/ (Z.of_nat j < c <= Z.of_nat i)%Z)) ->
  entry Q i j = 0.
Proof.
  induction d as [|b rest IH]; intros S offset Q i j Hd Ho; simpl.
  - intros H. injection H as <-. auto.
  - inversion Hd as [|? ? Hb Hrest]; subst.
    destruct (eigh la _) as [bw bv].
    destruct (eigen_compose bw bv true true) as [blk|e1]; simpl; [|discriminate].
    destruct (assign_slice2 _ _ _ _ _ blk) as [S'|e2] eqn:E2; simpl;
      [|discriminate].
    intros HQ HS Hsep.
    apply (IH S' (offset + b)%Z Q i j Hrest ltac:(lia) HQ).
    + rewrite (assign_slice2_frame S offset (offset + b)%Z offset
                 (offset + b)%Z blk S' i j
                 ltac:(lia) ltac:(lia) ltac:(lia) ltac:(lia) E2); [assumption|].
      destruct Hsep as [H|[H|(c & [<-|Hc] & H)]]; try lia.
      pose proof (cuts_lower rest _ c Hrest Hc). lia.
    + destruct Hsep as [H|[H|(c & [<-|Hc] & H)]]; try lia.
      right. right. exists c. split; assumption.
Qed.

Lemma entry_zeros2 r c i j : entry (zeros2 r c) i j = 0.
Proof.
  unfold entry, zeros2, zeros.
  destruct (Nat.lt_ge_cases i r) as [Hi|Hi].
  - rewrite nth_repeat_lt by assumption.
    destruct (Nat.lt_ge_cases j c); [now apply nth_repeat_lt|].
    apply nth_overflow. now rewrite repeat_length.
  - rewrite (nth_overflow (repeat (repeat 0 c) r))
      by (now rewrite repeat_length).
    now destruct j.
Qed.

Lemma nth_zip_zero : forall (a q : vec) j,
  nth j q 0 = 0 -> nth j (zip_with Rmult a q) 0 = 0.
Proof.
  induction a as [|x a IH]; intros [|y q] [|j] H; simpl in *; try reflexivity.
  - subst. lra.
  - now apply IH.
Qed.

(** The resolution matrix is zero wherever [sqrt_icov] is. *)
Lemma resolution_entry_zero (Q : mat) i j :
  entry Q i j = 0 ->
  entry (hadamard (outer (map Rinv (sum_axis1 Q))
                         (ones (length (sum_axis1 Q)))) Q) i j = 0.
Proof.
  intros H. rewrite resolution_rows. unfold entry in *.
  set (f := fun q : vec =>
              zip_with Rmult (map (fun y => / rsum q * y) (ones (length Q))) q).
  replace (@nil R) with (f []) at 1
    by (unfold f; now destruct (map _ (ones (length Q)))).
  rewrite map_nth. unfold f. now apply nth_zip_zero.
Qed.

(** X7: with block sizes [decorr] that are positive and sum to the
    dimension, and eigenvalues whose maxima are positive (for the
    symmetrised matrix and for every block of its regularised inverse,
    so that no array holds a value that is not finite),
    [resolution_from_icov] returns a resolution matrix whose entries
    between two different blocks are zero on every row whose
    normalisation, the sum of that row of [sqrt_icov], is not zero: no
    spectrum is coupled to another block. *)
Theorem decorrelated_blocks_uncoupled la icov d n :
  eigh_shaped la -> square n icov -> (0 < n)%nat ->
  zsum d = Z.of_nat n -> Forall (fun b => (0 < b)%Z) d ->
  regular_blocks la icov d ->
  exists Q R ivar,
    sqrt_icov_of la icov (Some d) = Ok Q
    /\ resolution_from_icov la icov (Some d) = Ok (R, ivar)
    /\ forall i j, separated d i j -> nth i (sum_axis1 Q) 0 <> 0 ->
                   entry R i j = 0.
Proof.
  intros Hla Hic Hn Hsum Hd _.
  assert (HQ : exists Q, sqrt_icov_of la icov (Some d) = Ok Q
                 /\ forall i j, separated d i j -> entry Q i j = 0).
  { unfold sqrt_icov_of.
    pose proof (symmetrize_square n icov Hic) as Hs.
    set (icov' := mscale (1 / 2) (madd icov (transpose icov))) in *.
    destruct (Hla icov') as [Hw Hv]. destruct (eigh la icov') as [w v].
    simpl in Hw, Hv. unfold nrows in *. rewrite (proj1 Hs) in *.
    rewrite (square_ncols n icov' Hs Hn).
    destruct (np_max_nonempty w) as [m Hm].
    { intros ->. simpl in Hw. lia. }
    rewrite (eigen_compose_eq w v true false m Hm).
    set (inverse := compose (rescale true false m w) v).
    assert (Hinv : square n inverse)
      by (apply compose_square; [assumption | now rewrite rescale_length]).
    destruct (Z.eqb_spec (zsum d) (Z.of_nat n)) as [_|He]; [|contradiction].
    cbv beta iota delta [bind negb].
    destruct (decorr_blocks_ok la inverse n Hla Hinv Hn d (zeros2 n n) 0%Z
                Hd ltac:(lia) ltac:(lia) (zeros2_square n)) as [Q HQ].
    exists Q. split; [exact HQ|].
    intros i j (c & Hc & Hij).
    apply (decorr_blocks_frame la inverse d (zeros2 n n) 0%Z Q i j).
    - eapply Forall_impl; [|exact Hd]. simpl. lia.
    - lia.
    - exact HQ.
    - apply entry_zeros2.
    - right. right. exists c. split; assumption. }
  destruct HQ as (Q & HQ & Hz). exists Q.
  unfold resolution_from_icov. rewrite HQ. cbv beta iota delta [bind].
  do 2 eexists. split; [reflexivity|]. split; [reflexivity|].
  intros i j Hij _. apply resolution_entry_zero. apply Hz, Hij.
Qed.

(** The theorem at a matrix of two spectra with one bin each: the two
    rows of [sqrt_icov] sum to 1, and the entry of the resolution matrix
    between the two spectra is zero. *)
Lemma decorrelated_blocks_uncoupled_witness :
  eigh_shaped identity_backend /\ square 2 [[2; 1]; [1; 3]] /\ (0 < 2)%nat
  /\ zsum [1; 1]%Z = Z.of_nat 2 /\ Forall (fun b => (0 < b)%Z) [1; 1]%Z
  /\ regular_blocks identity_backend [[2; 1]; [1; 3]] [1; 1]%Z
  /\ separated [1; 1]%Z 0 1
  /\ exists Q R ivar,
       sqrt_icov_of identity_backend [[2; 1]; [1; 3]] (Some [1; 1]%Z) = Ok Q
       /\ resolution_from_icov identity_backend [[2; 1]; [1; 3]]
                               (Some [1; 1]%Z) = Ok (R, ivar)
       /\ nth 0 (sum_axis1 Q) 0 <> 0
       /\ entry R 0 1 = 0.
Proof.
  assert (Hsq : square 2 [[2; 1]; [1; 3]])
    by (split; [reflexivity|repeat constructor]).
  assert (Hd : Forall (fun b => (0 < b)%Z) [1; 1]%Z) by (repeat constructor; lia).
  assert (Hs : separated [1; 1]%Z 0 1)
    by (exists 1%Z; split; [now left|]; left; simpl; lia).
  assert (Hr : regular_blocks identity_backend [[2; 1]; [1; 3]] [1; 1]%Z).
  { split; [apply (positive_max_ones 2); lia|].
    intros inverse Hinv.
    assert (Hl : square 2 inverse).
    { revert Hinv. reval. intros H. injection H as <-.
      split; [reflexivity|repeat constructor]. }
    destruct inverse as [|r0 [|r1 [|r2 inverse]]];
      try (destruct Hl as [Hl _]; discriminate).
    cbn [blocks_positive]. split; [apply (positive_max_ones 1); lia|].
    split; [apply (positive_max_ones 1); lia|exact I]. }
  assert (HQ : sqrt_icov_of identity_backend [[2; 1]; [1; 3]] (Some [1; 1]%Z)
               = Ok [[1; 0]; [0; 1]]).
  { reval. rewrite !sqrt_1, threshold_val. repeat rdecide_step.
    f_equal. rlist. }
  split; [exact identity_backend_shaped|]. split; [exact Hsq|].
  split; [lia|]. split; [reflexivity|]. split; [exact Hd|].
  split; [exact Hr|]. split; [exact Hs|].
  destruct (decorrelated_blocks_uncoupled identity_backend [[2; 1]; [1; 3]]
              [1; 1]%Z 2 identity_backend_shaped Hsq ltac:(lia) eq_refl Hd Hr)
    as (Q & R & ivar & HQ' & HR & Hz).
  exists Q, R, ivar. split; [exact HQ'|]. split; [exact HR|].
  assert (Hn : nth 0 (sum_axis1 Q) 0 <> 0).
  { rewrite HQ in HQ'. injection HQ' as <-. reval. lra. }
  split; [exact Hn|]. apply Hz; assumption.
Defined.

End ResolutionMore.


(** ** PatchPlanner: refused calls, empty loops and the unit conversion *)

Module EngineMore.

Import Py LA Spec MatrixSpec PyFacts LAFacts ShapeFacts LAMore.
Import Engine EngineFacts.
Open Scope R_scope.

#[local] Arguments patch_step : simpl never.

(** On a grid whose first step is zero the number of diagonals cannot
    be computed. *)
Lemma ndiag_of_zero_step psf specmin nspec :
  exists e, ndiag_of psf specmin nspec 0 = Raise e.
Proof.
  unfold ndiag_of. cbn [list_prod map app for_each].
  unfold ndiag_term at 1.
  destruct (Req_dec_T 0 0) as [_|H]; [|now contradiction H].
  destruct (Req_dec_T _ 0); eexists; reflexivity.
Qed.

Lemma patch_starts_negative nwave wavesize :
  (0 <= nwave)%Z -> (wavesize < 0)%Z -> patch_starts nwave wavesize = Ok [].
Proof.
  intros Hn Hw. unfold patch_starts, range3, range_len.
  destruct (Z.eqb_spec wavesize 0); [lia|].
  destruct (Z.ltb_spec 0 wavesize); [lia|].
  destruct (Z.ltb_spec nwave 0); [lia|]. reflexivity.
Qed.

(** The run of [ex2d] with a negative window: no patch is extracted. *)
Lemma negative_window_run variant image imageivar psf specmin nspec
      wavelengths xyrange regularize ndecorr wavesize full_output dw :
  check_grid wavelengths = Ok dw -> dw <> 0 -> (0 <= nspec)%Z ->
  (wavesize < 0)%Z ->
  if times_patches variant
  then ex2d variant image imageivar psf specmin nspec wavelengths xyrange
            regularize ndecorr wavesize full_output = Raise NameError
  else exists out,
         ex2d variant image imageivar psf specmin nspec wavelengths xyrange
              regularize ndecorr wavesize full_output = Ok out.
Proof.
  intros Eg Hdw Hns Hw. unfold ex2d. rewrite Eg. cbv beta iota delta [bind].
  destruct (np_zeros2_ok nspec (len wavelengths)) as [flux ->];
    [lia | unfold len; lia |]. cbv beta iota delta [bind].
  destruct (ndiag_of_ok psf specmin nspec dw Hdw) as (ndiag & -> & Hnd).
  cbv beta iota delta [bind].
  destruct (np_zeros3_ok nspec (2 * ndiag + 1) (len wavelengths)) as [Rd ->];
    [lia | lia | unfold len; lia |]. cbv beta iota delta [bind].
  rewrite patch_starts_negative by (unfold len; lia).
  cbv beta iota delta [bind]. cbn [for_each length Nat.eqb].
  destruct (times_patches variant); cbn [andb]; cbv beta iota delta [bind].
  - reflexivity.
  - eexists. reflexivity.
Qed.

(** X8: [ex2d] refuses a grid of fewer than two wavelengths with
    [IndexError], whatever the other arguments; and it never returns
    when the first two wavelengths coincide, when [nspec] is negative or
    when [wavesize] is zero. *)
Theorem ex2d_refused_calls variant image imageivar psf specmin nspec
      wavelengths xyrange regularize ndecorr wavesize full_output :
  ((length wavelengths < 2)%nat ->
   ex2d variant image imageivar psf specmin nspec wavelengths xyrange
        regularize ndecorr wavesize full_output = Raise IndexError)
  /\ (step wavelengths 0 = 0 \/ (nspec < 0)%Z \/ wavesize = 0%Z ->
      exists e,
        ex2d variant image imageivar psf specmin nspec wavelengths xyrange
             regularize ndecorr wavesize full_output = Raise e).
Proof.
  split.
  - intros H. unfold ex2d. now rewrite check_grid_short.
  - intros H. unfold ex2d.
    destruct (check_grid wavelengths) as [dw|e] eqn:Eg;
      cbv beta iota delta [bind]; [|eexists; reflexivity].
    apply check_grid_ok_length in Eg. destruct Eg as [Hlen ->].
    destruct (np_zeros2 nspec (len wavelengths)) as [flux|e] eqn:Ez;
      cbv beta iota delta [bind]; [|eexists; reflexivity].
    assert (Hns : (0 <= nspec)%Z).
    { revert Ez. unfold np_zeros2. destruct (Z.ltb_spec nspec 0); [discriminate|lia]. }
    destruct (ndiag_of psf specmin nspec (step wavelengths 0)) as [ndiag|e] eqn:En;
      cbv beta iota delta [bind]; [|eexists; reflexivity].
    assert (Hst : step wavelengths 0 <> 0).
    { intros E0. rewrite E0 in En.
      destruct (ndiag_of_zero_step psf specmin nspec) as [e He]. congruence. }
    destruct (np_zeros3 _ _ _) as [Rd|e]; cbv beta iota delta [bind];
      [|eexists; reflexivity].
    destruct H as [H|[H| ->]]; [contradiction|lia|].
    unfold patch_starts, range3. change (0 =? 0)%Z with true.
    cbv beta iota delta [bind]. eexists. reflexivity.
Qed.

(** The theorem at a grid of one wavelength, and at a window of zero
    bins. *)
Lemma ex2d_refused_calls_witness :
  (length [5000] < 2)%nat
  /\ ex2d constant_variant [] [] (one_pixel_psf 1) 0 25 [5000] None 0 false
          50 false = Raise IndexError
  /\ exists e,
       ex2d constant_variant [] [] (one_pixel_psf 1) 0 25 [0; 1; 2] None 0
            false 0 false = Raise e.
Proof.
  split; [simpl; lia|]. split.
  - apply (proj1 (ex2d_refused_calls constant_variant [] [] (one_pixel_psf 1)
                    0 25 [5000] None 0 false 50 false)).
    simpl. lia.
  - apply (proj2 (ex2d_refused_calls constant_variant [] [] (one_pixel_psf 1)
                    0 25 [0; 1; 2] None 0 false 0 false)).
    right. right. reflexivity.
Defined.

(** X9: with a negative [wavesize] the loop over the patches is empty.
    When the grid passes the test with a step that is not zero and
    [nspec] is not negative, the [ex2d] of the direct variant then
    raises [NameError], at the mean of the patch timings that no patch
    has bound, and the [ex2d] of the iterative variant returns. *)
Theorem negative_window_without_patches la image imageivar psf specmin nspec
      wavelengths xyrange regularize ndecorr wavesize full_output dw :
  check_grid wavelengths = Ok dw -> dw <> 0 -> (0 <= nspec)%Z ->
  (wavesize < 0)%Z ->
  GpuMatrix.ex2d la image imageivar psf specmin nspec wavelengths xyrange
                 regularize ndecorr wavesize full_output = Raise NameError
  /\ exists out,
       Gpu.ex2d la image imageivar psf specmin nspec wavelengths xyrange
                regularize ndecorr wavesize full_output = Ok out.
Proof.
  intros Eg Hdw Hns Hw. split.
  - exact (negative_window_run (GpuMatrix.variant la) image imageivar psf
             specmin nspec wavelengths xyrange regularize ndecorr wavesize
             full_output dw Eg Hdw Hns Hw).
  - exact (negative_window_run (Gpu.variant la) image imageivar psf
             specmin nspec wavelengths xyrange regularize ndecorr wavesize
             full_output dw Eg Hdw Hns Hw).
Qed.

(** The theorem at 25 spectra on the grid 0, 1, 2. *)
Lemma negative_window_without_patches_witness :
  check_grid [0; 1; 2] = Ok (step [0; 1; 2] 0) /\ step [0; 1; 2] 0 <> 0
  /\ (0 <= 25)%Z /\ (-50 < 0)%Z
  /\ GpuMatrix.ex2d scalar_backend [] [] (one_pixel_psf 1) 0 25 [0; 1; 2]
                    None 0 false (-50) false = Raise NameError.
Proof.
  assert (Hg : check_grid [0; 1; 2] = Ok (step [0; 1; 2] 0))
    by (apply check_grid_uniform; [simpl; lia | exact uniform_0_1_2]).
  assert (Hs : step [0; 1; 2] 0 <> 0) by (unfold step; simpl; lra).
  split; [exact Hg|]. split; [exact Hs|]. split; [lia|]. split; [lia|].
  exact (proj1 (negative_window_without_patches scalar_backend [] []
                  (one_pixel_psf 1) 0 25 [0; 1; 2] None 0 false (-50) false
                  (step [0; 1; 2] 0) Hg Hs ltac:(lia) ltac:(lia))).
Defined.

(** *** The conversion to photons per Angstrom *)

(** [np.gradient] of a grid with one step throughout is that step. *)
Lemma gradient_uniform (w : vec) c :
  uniform w -> (c < length w)%nat -> (2 <= length w)%nat ->
  nth c (gradient w) 0 = step w 0.
Proof.
  intros Hu Hc Hn. unfold gradient.
  rewrite (nth_map_seq
    (fun i => if Nat.eqb i 0 then nth 1 w 0 - nth 0 w 0
              else if Nat.eqb i (length w - 1)
                   then nth (length w - 1) w 0 - nth (length w - 2) w 0
                   else (nth (i + 1) w 0 - nth (i - 1) w 0) / 2)) by assumption.
  destruct (Nat.eqb_spec c 0) as [->|Hc0]; [reflexivity|].
  destruct (Nat.eqb_spec c (length w - 1)) as [->|Hc1].
  - rewrite <- (Hu (length w - 2)%nat) by lia. unfold step.
    replace (S (length w - 2)) with (length w - 1)%nat by lia. reflexivity.
  - pose proof (Hu c ltac:(lia)) as H1. pose proof (Hu (c - 1)%nat ltac:(lia)) as H2.
    unfold step in *. replace (S (c - 1)) with c in H2 by lia.
    replace (c + 1)%nat with (S c) by lia. lra.
Qed.

Lemma nth_zip_div : forall (a b : vec) c,
  (c < length b)%nat -> nth c (zip_with Rdiv a b) 0 = nth c a 0 / nth c b 0.
Proof.
  induction a as [|x a IH]; intros b c H.
  - simpl. destruct c; unfold Rdiv; now rewrite Rmult_0_l.
  - destruct b as [|y b]; simpl in *; [lia|].
    destruct c; [reflexivity|apply IH; lia].
Qed.

Lemma nth_zip_mul : forall (a b : vec) c,
  nth c (zip_with Rmult a b) 0 = nth c a 0 * nth c b 0.
Proof.
  induction a as [|x a IH]; intros b c.
  - simpl. destruct c; now rewrite Rmult_0_l.
  - destruct b as [|y b]; simpl.
    + destruct c; now rewrite Rmult_0_r.
    + destruct c; [reflexivity|apply IH].
Qed.

Lemma entry_map_rows (f : vec -> vec) (M : mat) s c :
  f [] = [] -> entry (map f M) s c = nth c (f (nth s M [])) 0.
Proof.
  intros Hf. unfold entry. rewrite <- Hf at 1. now rewrite map_nth.
Qed.

(** X10: when [ex2d], called without [full_output], returns on a grid
    with one step [dw] throughout, every flux it returns is the flux
    that the loop over the patches, started from arrays of zeros, has
    stitched, divided by [dw], and every inverse variance the stitched
    one multiplied by [dw^2]; the resolution data are returned as
    stitched. *)
Theorem uniform_grid_unit_conversion variant image imageivar psf specmin
      nspec wavelengths xyrange regularize ndecorr wavesize flux ivar Rd :
  uniform wavelengths ->
  ex2d variant image imageivar psf specmin nspec wavelengths xyrange
       regularize ndecorr wavesize false = Ok (flux, ivar, Rd) ->
  exists ndiag starts flux0 ivar0,
    ndiag_of psf specmin nspec (step wavelengths 0) = Ok ndiag
    /\ patch_starts (len wavelengths) wavesize = Ok starts
    /\ for_each (patch_step variant image imageivar psf specmin nspec
                            wavelengths xyrange regularize ndecorr wavesize
                            false (step wavelengths 0) ndiag)
                starts
                (zeros2 (Z.to_nat nspec) (length wavelengths),
                 zeros2 (Z.to_nat nspec) (length wavelengths),
                 repeat (zeros2 (Z.to_nat (2 * ndiag + 1))
                                (length wavelengths))
                        (Z.to_nat nspec))
       = Ok (flux0, ivar0, Rd)
    /\ forall s c, (c < length wavelengths)%nat ->
         entry flux s c = entry flux0 s c / step wavelengths 0
         /\ entry ivar s c = entry ivar0 s c * step wavelengths 0 ^ 2.
Proof.
  intros Hu. unfold ex2d.
  destruct (check_grid wavelengths) as [dw|e] eqn:Eg;
    cbv beta iota delta [bind]; [|discriminate].
  apply check_grid_ok_length in Eg. destruct Eg as [Hlen ->].
  unfold np_zeros2.
  destruct ((nspec <? 0)%Z || (len wavelengths <? 0)%Z)%bool;
    cbv beta iota delta [bind]; [discriminate|].
  destruct (ndiag_of psf specmin nspec (step wavelengths 0)) as [ndiag|e];
    cbv beta iota delta [bind]; [|discriminate].
  unfold np_zeros3.
  destruct ((nspec <? 0)%Z || (2 * ndiag + 1 <? 0)%Z
            || (len wavelengths <? 0)%Z)%bool;
    cbv beta iota delta [bind]; [discriminate|].
  destruct (patch_starts (len wavelengths) wavesize) as [starts|e];
    cbv beta iota delta [bind]; [|discriminate].
  unfold len at 1 2 3. rewrite !Nat2Z.id.
  destruct (for_each _ starts _) as [[[flux0 ivar0] Rd0]|e] eqn:Ef;
    cbv beta iota delta [bind]; [|discriminate].
  destruct (_ && _); cbv beta iota delta [bind]; [discriminate|].
  intros H. injection H as <- <- <-.
  exists ndiag, starts, flux0, ivar0.
  split; [reflexivity|]. split; [reflexivity|]. split; [exact Ef|].
  intros s c Hc. split.
  - rewrite (entry_map_rows (fun row => zip_with Rdiv row (gradient wavelengths)))
      by reflexivity.
    rewrite nth_zip_div
      by (unfold gradient; now rewrite length_map, length_seq).
    now rewrite gradient_uniform.
  - rewrite (entry_map_rows
               (fun row => zip_with Rmult row
                             (map (fun d => d ^ 2) (gradient wavelengths))))
      by reflexivity.
    rewrite nth_zip_mul.
    rewrite (nth_indep (map (fun d => d ^ 2) (gradient wavelengths)) 0
                       ((fun d => d ^ 2) 0))
      by (unfold gradient; now rewrite !length_map, length_seq).
    rewrite (map_nth (fun d => d ^ 2)).
    now rewrite gradient_uniform.
Qed.

End EngineMore.


(** ** PatchSolver: what one patch returns *)

Module PatchMore.

Import Py LA Spec MatrixSpec PatchSpec PyFacts LAFacts ShapeFacts LAMore.
Import ResolutionFacts.
Open Scope R_scope.

(** *** [reshape] and [ravel] *)

Lemma chunks_concat : forall r c (v : vec),
  length v = (r * c)%nat -> concat (chunks r c v) = v.
Proof.
  induction r as [|r IH]; intros c v H; simpl in *.
  - now destruct v.
  - rewrite IH; [apply firstn_skipn|]. rewrite length_skipn. lia.
Qed.

Lemma chunks_shape : forall r c (v : vec),
  length v = (r * c)%nat ->
  length (chunks r c v) = r
  /\ Forall (fun row => length row = c) (chunks r c v).
Proof.
  induction r as [|r IH]; intros c v H; simpl in *.
  - split; [reflexivity|constructor].
  - destruct (IH c (skipn c v)) as [Hl Hr]; [rewrite length_skipn; lia|].
    split; [now rewrite Hl|]. constructor; [|assumption].
    rewrite length_firstn. lia.
Qed.

Lemma reshape_sizes r c (v : vec) M :
  reshape r c v = Ok M ->
  exists r' c', M = chunks r' c' v /\ length v = (r' * c')%nat
    /\ ((0 <= r)%Z -> r' = Z.to_nat r /\ c' = Z.to_nat c).
Proof.
  unfold reshape. destruct (Z.eqb_spec r (-1)) as [->|Hr].
  - destruct (Z.ltb_spec 0 c); cbn [andb]; [|discriminate].
    destruct (Z.eqb_spec (len v mod c) 0) as [Hm|]; [|discriminate].
    intros E. injection E as <-. do 2 eexists. split; [reflexivity|].
    split; [|lia].
    pose proof (Z.div_mod (len v) c ltac:(lia)) as Hd.
    assert (0 <= len v / c)%Z by (apply Z.div_pos; unfold len; lia).
    unfold len in *. nia.
  - destruct (Z.leb_spec 0 r); cbn [andb]; [|discriminate].
    destruct (Z.leb_spec 0 c); cbn [andb]; [|discriminate].
    destruct (Z.eqb_spec (len v) (r * c)) as [Hl|]; [|discriminate].
    intros E. injection E as <-. do 2 eexists. split; [reflexivity|].
    split; [unfold len in *; nia|auto].
Qed.

(** [ravel] undoes [reshape]. *)
Lemma reshape_ravel r c (v : vec) M : reshape r c v = Ok M -> ravel M = v.
Proof.
  intros H. apply reshape_sizes in H. destruct H as (r' & c' & -> & Hl & _).
  now apply chunks_concat.
Qed.

Lemma reshape_shape r c (v : vec) M :
  reshape r c v = Ok M -> (0 <= r)%Z ->
  length M = Z.to_nat r /\ Forall (fun row => length row = Z.to_nat c) M.
Proof.
  intros H Hr. apply reshape_sizes in H.
  destruct H as (r' & c' & -> & Hl & Hs). destruct (Hs Hr) as [-> ->].
  now apply chunks_shape.
Qed.

(** *** The parts of a returned patch *)

(** The resolution matrix both variants build from the eigenvalues [u]
    and eigenvectors [v] of the inverse covariance. *)
Lemma patch_resolution (u : vec) (v : mat) :
  hadamard
    (np_outer
       (map Rinv (sum_axis1 (matmul v (matmul (spdiags (map sqrt u) (length u))
                                              (transpose v)))))
       (ones (length (sum_axis1 (matmul v (matmul (spdiags (map sqrt u)
                                                           (length u))
                                                  (transpose v)))))))
    (matmul v (matmul (spdiags (map sqrt u) (length u)) (transpose v)))
  = hadamard (Resolution.outer (map Rinv (sum_axis1 (compose (map sqrt u) v)))
                               (ones (length (sum_axis1 (compose (map sqrt u) v)))))
             (compose (map sqrt u) v).
Proof. unfold compose, Resolution.outer. now rewrite length_map. Qed.

Lemma gpu_patch_parts la image ivar psf specmin nspec wavelengths xyrange
      regularize ndecorr use_cache out :
  Gpu.ex2d_patch la image ivar psf specmin nspec wavelengths xyrange
                 regularize ndecorr use_cache = Ok out ->
  let Q := compose (map sqrt (fst (eigh la (Patch.iCov out))))
                   (snd (eigh la (Patch.iCov out))) in
  Patch.Rmat out
  = hadamard (Resolution.outer (map Rinv (sum_axis1 Q))
                               (ones (length (sum_axis1 Q)))) Q
  /\ reshape nspec (len wavelengths)
             (matvec (Patch.Rmat out) (ravel (Patch.xflux out)))
     = Ok (Patch.flux out)
  /\ (exists x, reshape nspec (len wavelengths) x = Ok (Patch.xflux out))
  /\ (exists x, reshape nspec (len wavelengths) x = Ok (Patch.ivar out)).
Proof.
  unfold Gpu.ex2d_patch.
  destruct (reshape nspec (len wavelengths) _) as [f|e] eqn:Ef;
    cbv beta iota delta [bind]; [|discriminate].
  destruct (eigh la _) as [u v] eqn:Eu.
  rewrite patch_resolution.
  destruct (reshape nspec (len wavelengths) (matvec _ _)) as [fx|e] eqn:Efx;
    cbv beta iota delta [bind]; [|discriminate].
  destruct (reshape nspec (len wavelengths) (diagonal _)) as [vx|e] eqn:Evx;
    cbv beta iota delta [bind]; [|discriminate].
  intros H. injection H as <-. cbv [Patch.iCov Patch.Rmat Patch.flux
                                     Patch.xflux Patch.ivar].
  rewrite Eu. cbv [fst snd].
  split; [reflexivity|]. split; [exact Efx|]. split; eexists; eassumption.
Qed.

Lemma gpumatrix_patch_parts la image ivar psf specmin nspec wavelengths
      xyrange full_output regularize ndecorr use_cache out :
  GpuMatrix.ex2d_patch la image ivar psf specmin nspec wavelengths xyrange
                       full_output regularize ndecorr use_cache = Ok out ->
  let Q := compose (map sqrt (fst (eigh la (Patch.iCov out))))
                   (snd (eigh la (Patch.iCov out))) in
  Patch.Rmat out
  = hadamard (Resolution.outer (map Rinv (sum_axis1 Q))
                               (ones (length (sum_axis1 Q)))) Q
  /\ reshape nspec (len wavelengths)
             (matvec (Patch.Rmat out) (ravel (Patch.xflux out)))
     = Ok (Patch.flux out)
  /\ (exists x, reshape nspec (len wavelengths) x = Ok (Patch.xflux out))
  /\ (exists x, reshape nspec (len wavelengths) x = Ok (Patch.ivar out)).
Proof.
  unfold GpuMatrix.ex2d_patch.
  destruct (index wavelengths 0) as [w0|e]; cbv beta iota delta [bind];
    [|discriminate].
  destruct (index wavelengths (-1)) as [w1|e]; cbv beta iota delta [bind];
    [|discriminate].
  destruct (match xyrange with Some _ => _ | None => _ end)
    as [[[[[xmin xmax] ymin] ymax] img] iv].
  destruct (np_max _) as [maxweight|e]; cbv beta iota delta [bind];
    [|discriminate].
  destruct (np_length _) as [nflux|e]; cbv beta iota delta [bind];
    [|discriminate].
  destruct (GpuMatrix.Idiag_of _ _ _ _) as [Idiag|e];
    cbv beta iota delta [bind]; [|discriminate].
  destruct (GpuMatrix.augment _ _ _ _ _) as [[pix Ax] wx].
  cbv [fst snd].
  replace (specmin + nspec - specmin)%Z with nspec by lia.
  destruct (reshape nspec _ (solve _ _ _)) as [f|e] eqn:Ef;
    cbv beta iota delta [bind]; [|discriminate].
  destruct (eigh la _) as [u v] eqn:Eu.
  rewrite patch_resolution.
  destruct (reshape nspec _ (matvec _ _)) as [fx|e] eqn:Efx;
    cbv beta iota delta [bind]; [|discriminate].
  destruct (reshape nspec _ (map _ _)) as [vx|e] eqn:Evx;
    cbv beta iota delta [bind]; [|discriminate].
  intros H. injection H as <-. cbv [Patch.iCov Patch.Rmat Patch.flux
                                     Patch.xflux Patch.ivar].
  rewrite Eu. cbv [fst snd].
  split; [reflexivity|]. split; [exact Efx|]. split; eexists; eassumption.
Qed.


(** X11: in both variants the flux of a returned patch is the raw flux
    convolved with the returned resolution matrix:
    [flux.ravel() = R.dot(xflux.ravel())]. *)
Theorem flux_is_resolved_xflux la image ivar psf specmin nspec wavelengths
      regularize ndecorr use_cache out :
  (forall xyrange,
      Gpu.ex2d_patch la image ivar psf specmin nspec wavelengths xyrange
                     regularize ndecorr use_cache = Ok out ->
      ravel (Patch.flux out)
      = matvec (Patch.Rmat out) (ravel (Patch.xflux out)))
  /\ (forall xyrange full_output,
        GpuMatrix.ex2d_patch la image ivar psf specmin nspec wavelengths
                             xyrange full_output regularize ndecorr use_cache
        = Ok out ->
        ravel (Patch.flux out)
        = matvec (Patch.Rmat out) (ravel (Patch.xflux out))).
Proof.
  split.
  - intros xyrange H. apply gpu_patch_parts in H.
    destruct H as (_ & Hf & _). now apply reshape_ravel in Hf.
  - intros xyrange full_output H. apply gpumatrix_patch_parts in H.
    destruct H as (_ & Hf & _). now apply reshape_ravel in Hf.
Qed.

(** The theorem at one pixel of value 2 and weight 1 that receives one
    flux bin with amplitude 3. *)
Lemma flux_is_resolved_xflux_witness :
  exists out,
    GpuMatrix.ex2d_patch scalar_backend [[2]] [[1]] (one_pixel_psf 3) 0 1
      [5000] (Some (0, 1, 0, 1)%Z) true 0 false None = Ok out
    /\ ravel (Patch.flux out)
       = matvec (Patch.Rmat out) (ravel (Patch.xflux out)).
Proof.
  destruct (GpuMatrix.ex2d_patch scalar_backend [[2]] [[1]] (one_pixel_psf 3)
              0 1 [5000] (Some (0, 1, 0, 1)%Z) true 0 false None)
    as [out|e] eqn:E.
  - exists out. split; [reflexivity|].
    exact (proj2 (flux_is_resolved_xflux scalar_backend [[2]] [[1]]
                    (one_pixel_psf 3) 0 1 [5000] 0 false None out)
                 (Some (0, 1, 0, 1)%Z) true E).
  - exfalso. revert E. rrun. discriminate.
Defined.

(** X12: in both variants, for [nspec >= 0], the flux, the inverse
    variance and the raw flux of a returned patch have [nspec] rows of
    one entry per wavelength. *)
Theorem patch_outputs_shaped la image ivar psf specmin nspec wavelengths
      regularize ndecorr use_cache out :
  (0 <= nspec)%Z ->
  let shaped := has_shape (Z.to_nat nspec) (length wavelengths) in
  (forall xyrange,
      Gpu.ex2d_patch la image ivar psf specmin nspec wavelengths xyrange
                     regularize ndecorr use_cache = Ok out ->
      shaped (Patch.flux out) /\ shaped (Patch.ivar out)
      /\ shaped (Patch.xflux out))
  /\ (forall xyrange full_output,
        GpuMatrix.ex2d_patch la image ivar psf specmin nspec wavelengths
                             xyrange full_output regularize ndecorr use_cache
        = Ok out ->
        shaped (Patch.flux out) /\ shaped (Patch.ivar out)
        /\ shaped (Patch.xflux out)).
Proof.
  intros Hn shaped.
  assert (G : forall x M, reshape nspec (len wavelengths) x = Ok M -> shaped M).
  { intros x M H. apply reshape_shape in H; [|assumption].
    unfold shaped, has_shape, len in *. now rewrite Nat2Z.id in H. }
  split.
  - intros xyrange H. apply gpu_patch_parts in H.
    destruct H as (_ & Hf & (x1 & H1) & (x2 & H2)).
    split; [exact (G _ _ Hf)|]. split; [exact (G _ _ H2)|exact (G _ _ H1)].
  - intros xyrange full_output H. apply gpumatrix_patch_parts in H.
    destruct H as (_ & Hf & (x1 & H1) & (x2 & H2)).
    split; [exact (G _ _ Hf)|]. split; [exact (G _ _ H2)|exact (G _ _ H1)].
Qed.

(** The theorem at one pixel of value 2 and weight 1 that receives one
    flux bin with amplitude 3. *)
Lemma patch_outputs_shaped_witness :
  (0 <= 1)%Z
  /\ exists out,
       Gpu.ex2d_patch scalar_backend [[2]] [[1]] (one_pixel_psf 3) 0 1
         [5000] (0, 1, 0, 1)%Z 0 false None = Ok out
       /\ has_shape 1 1 (Patch.flux out) /\ has_shape 1 1 (Patch.ivar out)
       /\ has_shape 1 1 (Patch.xflux out).
Proof.
  split; [lia|].
  destruct (Gpu.ex2d_patch scalar_backend [[2]] [[1]] (one_pixel_psf 3)
              0 1 [5000] (0, 1, 0, 1)%Z 0 false None) as [out|e] eqn:E.
  - exists out. split; [reflexivity|].
    exact (proj1 (patch_outputs_shaped scalar_backend [[2]] [[1]]
                    (one_pixel_psf 3) 0 1 [5000] 0 false None out
                    ltac:(lia))
                 (0, 1, 0, 1)%Z E).
  - exfalso. revert E. rrun. discriminate.
Defined.

(** *** Normalisation *)






End PatchMore.


(** ** PatchSolver, direct variant: the regularisation *)

Module RegularizeMore.

Import Py LA Spec MatrixSpec PatchSpec PyFacts LAFacts ShapeFacts LAMore.
Import GpuMatrixFacts.
Open Scope R_scope.

Lemma zip_with_app {A B C : Type} (f : A -> B -> C) :
  forall a1 a2 b1 b2, length a1 = length b1 ->
    zip_with f (a1 ++ a2) (b1 ++ b2) = zip_with f a1 b1 ++ zip_with f a2 b2.
Proof.
  induction a1 as [|x a1 IH]; intros a2 [|y b1] b2 H; simpl in *;
    try discriminate; [reflexivity|].
  f_equal. apply IH. lia.
Qed.

Lemma rsum_app (a b : vec) : rsum (a ++ b) = rsum a + rsum b.
Proof. unfold rsum. induction a; simpl; lra. Qed.

Lemma dot_app (a1 a2 b1 b2 : vec) :
  length a1 = length b1 ->
  dot (a1 ++ a2) (b1 ++ b2) = dot a1 b1 + dot a2 b2.
Proof. intros H. unfold dot. now rewrite zip_with_app, rsum_app. Qed.

Lemma col_app j (A B : mat) : col j (A ++ B) = col j A ++ col j B.
Proof. unfold col. apply map_app. Qed.

Lemma zip_ones : forall (x : vec) n,
  length x = n -> zip_with Rmult (ones n) x = x.
Proof.
  unfold ones. induction x as [|a x IH]; intros [|n] H; simpl in *;
    try discriminate; [reflexivity|].
  rewrite IH by lia. now rewrite Rmult_1_l.
Qed.

Lemma ncols_rows n (M : mat) :
  Forall (fun r => length r = n) M -> M <> [] -> ncols M = n.
Proof. intros H Hne. destruct M; [congruence|]. now inversion H. Qed.

(** The entries of [M^T diag(w) M]. *)
Lemma normal_entry n (M : mat) (w : vec) i j :
  Forall (fun r => length r = n) M -> length w = length M ->
  (i < n)%nat -> (j < n)%nat ->
  entry (matmul (transpose M) (matmul (spdiags w (length w)) M)) i j
  = dot (col i M) (zip_with Rmult w (col j M)).
Proof.
  intros HM Hw Hi Hj. destruct M as [|r0 M0] eqn:EM.
  - destruct w; [|discriminate]. unfold entry. simpl. now destruct i, j.
  - rewrite <- EM in *. assert (Hne : M <> []) by (rewrite EM; discriminate).
    pose proof (ncols_rows n M HM Hne) as Hc.
    destruct (matmul_shape (spdiags w (length w)) M) as [Hl Hr].
    rewrite spdiags_length in Hl.
    assert (Hc' : ncols (matmul (spdiags w (length w)) M) = n).
    { destruct (matmul (spdiags w (length w)) M) as [|r t] eqn:E.
      - simpl in Hl. rewrite Hw, EM in Hl. discriminate.
      - apply Forall_inv in Hr. simpl. rewrite Hr. exact Hc. }
    rewrite entry_matmul;
      [| unfold transpose; rewrite length_map, length_seq; lia | lia].
    unfold transpose.
    rewrite (nth_map_seq (fun j => col j M)) by lia.
    f_equal. rewrite col_entries, Hl.
    rewrite <- (zip_nth_seq w (col j M) (length w));
      [|reflexivity|now rewrite col_length].
    apply map_ext_in. intros k Hk. apply in_seq in Hk.
    rewrite entry_diag_mul by lia. now rewrite nth_col.
Qed.

(** The entries of the normal matrix of the system with the rows
    [diag(d)] of unit weight stacked under [A]. *)
Lemma stacked_normal_entry n (A : mat) (d w : vec) i j :
  Forall (fun r => length r = n) A -> length w = length A ->
  (i < n)%nat -> (j < n)%nat ->
  entry (matmul (transpose (A ++ spdiags d n))
                (matmul (spdiags (w ++ ones n) (length (w ++ ones n)))
                        (A ++ spdiags d n))) i j
  = entry (matmul (transpose A) (matmul (spdiags w (length w)) A)) i j
    + (if Nat.eqb i j then nth i d 0 * nth i d 0 else 0).
Proof.
  intros HA Hw Hi Hj.
  rewrite (normal_entry n (A ++ spdiags d n)); try assumption.
  - rewrite (normal_entry n A) by assumption.
    rewrite !col_app.
    rewrite zip_with_app by (now rewrite col_length).
    rewrite dot_app
      by (now rewrite zip_with_length, !col_length, Hw, Nat.min_id).
    f_equal.
    rewrite zip_ones by (now rewrite col_length, spdiags_length).
    rewrite (col_spdiags d n i) by assumption.
    rewrite dot_indicator_l.
    destruct (Nat.ltb_spec i (0 + n)); [|lia]. cbn [Nat.leb andb].
    rewrite Nat.sub_0_r, nth_col, entry_spdiags by assumption.
    destruct (Nat.eqb i j); lra.
  - apply Forall_app. split; [assumption|]. apply spdiags_square.
  - rewrite !length_app, spdiags_length. unfold ones.
    rewrite repeat_length. lia.
Qed.

Lemma np_any_false v : np_any v = false -> Forall (fun x => x = 0) v.
Proof.
  unfold np_any. induction v as [|x v IH]; simpl; [constructor|].
  intros H. apply orb_false_iff in H. destruct H as [Hx Hv].
  constructor; [|now apply IH].
  unfold neqb in Hx. now destruct (Req_dec_T x 0).
Qed.

Lemma diagonal_spdiags d n i :
  (0 < n)%nat -> (i < n)%nat ->
  nth i (diagonal (spdiags d n)) 0 = nth i d 0.
Proof.
  intros Hn Hi. unfold diagonal, nrows.
  rewrite spdiags_length, (square_ncols n _ (spdiags_square d n) Hn), Nat.min_id.
  rewrite (nth_map_seq (fun i => nth i (nth i (spdiags d n) []) 0)) by assumption.
  change (entry (spdiags d n) i i = nth i d 0).
  rewrite entry_spdiags by assumption. now rewrite Nat.eqb_refl.
Qed.

(** The entries of [Idiag]: the shortfall of a weak flux bin, and
    [regularize] at every other bin. *)
Lemma Idiag_entry regularize n minweight fluxweight Idiag i :
  GpuMatrix.Idiag_of regularize n minweight fluxweight = Ok Idiag ->
  (i < n)%nat ->
  nth i Idiag 0
  = if ltb (nth i fluxweight 0) minweight
    then minweight - nth i fluxweight 0 else regularize.
Proof.
  unfold GpuMatrix.Idiag_of.
  destruct (Nat.eqb_spec (length (map (fun fw => ltb fw minweight) fluxweight))
                         (length (map (fun _ : R => regularize * 1) (ones n))))
    as [Hl|]; [|discriminate].
  intros H. injection H as <-. intros Hi.
  rewrite !length_map in Hl. unfold ones in *. rewrite repeat_length in Hl.
  subst n. revert i Hi.
  induction fluxweight as [|fw t IH]; intros i Hi; simpl in *; [lia|].
  destruct i as [|i].
  - destruct (ltb fw minweight); simpl; lra.
  - apply IH. lia.
Qed.


(** X14: in the direct variant the matrix a returned patch has solved
    is the plain normal matrix [A^T W A] with the square of [Idiag]
    added on its diagonal, where [Idiag] is [minweight - fluxweight] at
    a flux bin lighter than [minweight = 1e-4 max(fluxweight)] and
    [regularize] at every other bin; the projection matrix is taken to
    have one row per pixel weight and one column per flux bin. *)
Theorem regularisation_on_the_diagonal :
  forall la image ivar psf specmin nspec wavelengths xyrange full_output
         regularize ndecorr use_cache out,
    let '(xyr, img, iv) :=
      window psf specmin nspec wavelengths xyrange image ivar in
    let '(xmin, xmax, ymin, ymax) := xyr in
    let A := Psf.projection_matrix psf (specmin, (specmin + nspec)%Z)
                                   wavelengths xyr use_cache in
    let npix := Z.to_nat ((xmax - xmin) * (ymax - ymin)) in
    let nflux := Z.to_nat (nspec * len wavelengths) in
    let fluxweight := GpuMatrix.fluxweight_of iv npix A in
    Forall (fun r => length r = nflux) A ->
    length (ravel iv) = length A ->
    GpuMatrix.ex2d_patch la image ivar psf specmin nspec wavelengths
                         xyrange full_output regularize ndecorr use_cache
    = Ok out ->
    exists maxweight,
      np_max fluxweight = Ok maxweight
      /\ forall i j, (i < nflux)%nat -> (j < nflux)%nat ->
           entry (Patch.iCov out) i j
           = entry (matmul (transpose A)
                           (matmul (spdiags (ravel iv) (length (ravel iv))) A))
                   i j
             + (if Nat.eqb i j
                then (if ltb (nth i fluxweight 0) (1e-4 * maxweight)
                      then 1e-4 * maxweight - nth i fluxweight 0
                      else regularize) ^ 2
                else 0).
Proof.
  intros. unfold GpuMatrix.ex2d_patch.
  destruct (index wavelengths 0) as [w0|e] eqn:E0;
    [|destruct window as [[[[[? ?] ?] ?] ?] ?]; intros; discriminate].
  destruct (index wavelengths (-1)) as [w1|e] eqn:E1;
    [|destruct window as [[[[[? ?] ?] ?] ?] ?]; intros; discriminate].
  apply index_hd in E0. apply index_last in E1. subst w0 w1.
  unfold window. cbv beta iota delta [bind].
  destruct xyrange as [[[[xmin xmax] ymin] ymax]|];
    [|destruct (Psf.xyrange psf _ _) as [[[xmin xmax] ymin] ymax]];
    cbv zeta; intros HA Hw.
  all: destruct (np_max _) as [maxweight|e] eqn:Emax;
         cbv beta iota delta [bind]; [|discriminate].
  all: cbv [fst snd].
  all: replace (specmin + nspec - specmin)%Z with nspec by lia.
  all: unfold np_length;
       destruct (Z.ltb_spec (nspec * len wavelengths) 0);
       cbv beta iota delta [bind]; [discriminate|].
  all: destruct (GpuMatrix.Idiag_of _ _ _ _) as [Idiag|e] eqn:EI;
         cbv beta iota delta [bind]; [|discriminate].
  all: unfold GpuMatrix.augment.
  all: destruct (np_any _) eqn:Eany.
  all: destruct (reshape nspec _ (solve _ _ _)) as [f|e];
         cbv beta iota delta [bind]; [|discriminate].
  all: destruct (eigh la _) as [u v].
  all: destruct (reshape nspec _ (matvec _ _)) as [fx|e];
         cbv beta iota delta [bind]; [|discriminate].
  all: destruct (reshape nspec _ (map _ _)) as [vx|e];
         cbv beta iota delta [bind]; [|discriminate].
  all: intros Hout; injection Hout as <-; cbv [Patch.iCov].
  all: exists maxweight; split; [reflexivity|]; intros i j Hi Hj.
  all: rewrite <- (Idiag_entry _ _ _ _ _ i EI Hi).
  all: try (rewrite stacked_normal_entry by (assumption || lia);
            f_equal; destruct (Nat.eqb i j); simpl; lra).
  all: apply np_any_false in Eany.
  all: assert (Hz : nth i Idiag 0 = 0)
         by (rewrite <- (diagonal_spdiags Idiag
                           (Z.to_nat (nspec * len wavelengths)) i) by lia;
             now apply nth_all_zero).
  all: rewrite Hz; destruct (Nat.eqb i j); simpl; lra.
Qed.

(** The theorem at one pixel of value 2 and weight 1 that receives one
    flux bin with amplitude 3, with [regularize = 1/2]: the matrix
    solved is [[9 + 1/4]]. *)
Lemma regularisation_on_the_diagonal_witness :
  Forall (fun r => length r = Z.to_nat (1 * len [5000])) [[3]]
  /\ length (ravel [[1]]) = length [[3]]
  /\ exists out,
       GpuMatrix.ex2d_patch scalar_backend [[2]] [[1]] (one_pixel_psf 3) 0 1
         [5000] (Some (0, 1, 0, 1)%Z) true (1 / 2) false None = Ok out
       /\ entry (Patch.iCov out) 0 0 = 9 + 1 / 4.
Proof.
  assert (HA : Forall (fun r => length r = Z.to_nat (1 * len [5000])) [[3]])
    by (repeat constructor).
  split; [exact HA|]. split; [reflexivity|].
  destruct (GpuMatrix.ex2d_patch scalar_backend [[2]] [[1]] (one_pixel_psf 3)
              0 1 [5000] (Some (0, 1, 0, 1)%Z) true (1 / 2) false None)
    as [out|e] eqn:E.
  - exists out. split; [reflexivity|].
    pose proof (regularisation_on_the_diagonal scalar_backend [[2]] [[1]]
                  (one_pixel_psf 3) 0 1 [5000] (Some (0, 1, 0, 1)%Z) true
                  (1 / 2) false None out) as H.
    cbv beta iota zeta delta [window] in H.
    destruct (H HA eq_refl E) as (maxweight & Hm & Hent).
    rewrite (Hent 0%nat 0%nat) by (simpl; lia).
    revert Hm. reval. intros Hm. injection Hm as <-.
    rdecide_step. lra.
  - exfalso. revert E. rrun. discriminate.
Defined.

End RegularizeMore.


(** ** PSF bias *)

Module BiasMore.

Import Py LA Spec MatrixSpec DomainSpec SmallInputs PyFacts LAFacts ShapeFacts
       LAMore.
Import ResolutionFacts.
Open Scope R_scope.

Lemma matmul_identity_r n (M : mat) :
  Forall (fun r => length r = n) M -> (0 < n)%nat ->
  matmul M (identity n) = M.
Proof.
  intros HM Hn. unfold matmul, identity.
  rewrite (square_ncols n _ (spdiags_square (ones n) n) Hn).
  transitivity (map (fun r : vec => r) M); [|apply map_id].
  apply map_ext_in. intros r Hr.
  rewrite Forall_forall in HM. specialize (HM r Hr).
  transitivity (map (fun j => nth j r 0) (seq 0 n));
    [|rewrite <- HM; apply map_nth_seq].
  apply map_ext_in. intros j Hj. apply in_seq in Hj.
  rewrite col_spdiags, dot_indicator_r by lia.
  unfold ones. rewrite nth_repeat_lt by lia. apply Rmult_1_r.
Qed.

Lemma dot_self_difference : forall (r x : vec),
  dot (zip_with Rminus r r) x = 0.
Proof.
  unfold dot, rsum. induction r as [|a r IH]; intros [|y x]; simpl; try lra.
  rewrite IH. lra.
Qed.

Lemma matvec_self_difference (M : mat) (x : vec) :
  matvec (Bias.msub M M) x = repeat 0 (length M).
Proof.
  unfold matvec, Bias.msub. induction M as [|r M IH]; simpl; [reflexivity|].
  now rewrite dot_self_difference, IH.
Qed.

Lemma zip_div_zeros : forall (y : vec) n,
  length y = n -> zip_with Rdiv (repeat 0 n) y = map (fun d => 0 / d) y.
Proof.
  induction y as [|d y IH]; intros [|n] H; simpl in *; try discriminate;
    [reflexivity|].
  now rewrite IH by lia.
Qed.

(** The resolution matrix of a square matrix is square. *)
Lemma resolution_from_icov_square la icov n R ivar :
  eigh_shaped la -> square n icov ->
  Resolution.resolution_from_icov la icov None = Ok (R, ivar) ->
  square n R.
Proof.
  intros Hla Hic. unfold Resolution.resolution_from_icov.
  destruct (Resolution.sqrt_icov_of la icov None) as [Q|e] eqn:EQ;
    cbv beta iota delta [bind]; [|discriminate].
  intros H. injection H as <- _.
  apply ResolutionMore.resolution_square.
  exact (sqrt_icov_square la icov None n Q Hla Hic EQ).
Qed.

(** X15: the relative bias is the absolute bias divided, entry by
    entry, by the true spectrum seen through the resolution matrix of
    the true PSF: [psfbias] returns [bias / R.dot(phot)] for the
    [(bias, R)] of [psfabsbias], and raises when [psfabsbias] raises. *)
Theorem psfbias_is_relative_psfabsbias la inv p1 p2 wave phot ispec
      readnoise :
  Bias.psfbias la inv p1 p2 wave phot ispec readnoise
  = (r <- Bias.psfabsbias la inv p1 p2 wave phot ispec readnoise ;;
     Ok (zip_with Rdiv (fst r) (matvec (snd r) phot))).
Proof.
  unfold Bias.psfbias, Bias.psfabsbias.
  destruct (index wave 0) as [w0|e]; cbv beta iota delta [bind];
    [|reflexivity].
  destruct (index wave (-1)) as [w1|e]; cbv beta iota delta [bind];
    [|reflexivity].
  destruct (inv _) as [BCov|e]; cbv beta iota delta [bind]; [|reflexivity].
  destruct (Resolution.resolution_from_icov la _ None) as [[RA iva]|e];
    cbv beta iota delta [bind]; [|reflexivity].
  destruct (Resolution.resolution_from_icov la _ None) as [[RB ivb]|e];
    cbv beta iota delta [bind]; reflexivity.
Qed.

(** X16: extracting with the true PSF is unbiased.  Both PSFs are the
    same; no pixel variance is zero; the matrix [A^T W A] is [n] by [n],
    [np.linalg.inv] returns a left inverse of it, the largest of its
    eigenvalues is positive and no row of its square root [sqrt_icov]
    sums to zero, so that every array of the computation is finite.
    Then [psfabsbias] returns the bias 0 at each of the [n] flux bins,
    with the resolution matrix of the PSF, and [psfbias] returns the
    relative bias 0 when no entry of the resolved spectrum is zero. *)
Theorem same_psf_no_bias la inv p wave phot ispec readnoise n w0 w1 Q :
  eigh_shaped la -> (0 < n)%nat ->
  index wave 0 = Ok w0 -> index wave (-1) = Ok w1 ->
  let specrange := (ispec, (ispec + 1)%Z) in
  let A := Psf.projection_matrix p specrange wave
             (Psf.xyrange p specrange (w0, w1)) None in
  let img := matvec A phot in
  let imgvar := map (fun x => readnoise ^ 2 + x) img in
  let W := spdiags (map (fun x => 1 / x) imgvar) (length img) in
  let iCov := matmul (transpose A) (matmul W A) in
  Forall (fun x => x <> 0) imgvar ->
  square n iCov ->
  (exists C, inv iCov = Ok C /\ matmul C iCov = identity n) ->
  positive_max (fst (eigh la (symmetrised iCov))) ->
  Resolution.sqrt_icov_of la iCov None = Ok Q ->
  Forall (fun s => s <> 0) (sum_axis1 Q) ->
  exists R ivar,
    Resolution.resolution_from_icov la iCov None = Ok (R, ivar)
    /\ Bias.psfabsbias la inv p p wave phot ispec readnoise
       = Ok (repeat 0 n, R)
    /\ (Forall (fun d => d <> 0) (matvec R phot) ->
        Bias.psfbias la inv p p wave phot ispec readnoise
        = Ok (repeat 0 n)).
Proof.
  intros Hla Hn E0 E1 specrange A img imgvar W iCov _ Hsq (C & EC & HC) _ HQ _.
  destruct (Resolution.resolution_from_icov la iCov None) as [[R ivar]|e]
    eqn:ER.
  2:{ exfalso. revert ER. unfold Resolution.resolution_from_icov.
      rewrite HQ. cbv beta iota delta [bind]. discriminate. }
  pose proof (resolution_from_icov_square la iCov n R ivar Hla Hsq ER)
    as [HRl HRr].
  exists R, ivar. split; [reflexivity|].
  assert (Habs : Bias.psfabsbias la inv p p wave phot ispec readnoise
                 = Ok (repeat 0 n, R)).
  { unfold Bias.psfabsbias. rewrite E0, E1. cbv beta iota delta [bind].
    fold specrange. fold A. fold img. fold imgvar. fold W. fold iCov.
    rewrite EC. cbv beta iota delta [bind].
    rewrite ER. cbv beta iota delta [bind fst].
    rewrite HC, (matmul_identity_r n R HRr Hn), matvec_self_difference, HRl.
    reflexivity. }
  split; [exact Habs|]. intros _.
  unfold Bias.psfbias. rewrite E0, E1. cbv beta iota delta [bind].
  fold specrange. fold A. fold img. fold imgvar. fold W. fold iCov.
  rewrite EC. cbv beta iota delta [bind].
  rewrite ER. cbv beta iota delta [bind fst].
  rewrite HC, (matmul_identity_r n R HRr Hn), matvec_self_difference, HRl.
  f_equal.
  rewrite zip_div_zeros by (unfold matvec; now rewrite length_map).
  unfold matvec. rewrite map_map.
  rewrite <- HRl. clear. induction R as [|r R IH]; cbn [map length repeat].
  - reflexivity.
  - rewrite IH. f_equal. unfold Rdiv. apply Rmult_0_l.
Qed.

Lemma Rmax_1_1 : Rmax 1 1 = 1.
Proof. unfold Rmax. destruct (Rle_dec 1 1); lra. Qed.

(** The theorem at two flux bins of one photon each that land on two
    pixels, without read noise: every pixel variance is 1, [A^T W A] is
    the identity, and both biases are zero at the two bins. *)
Lemma same_psf_no_bias_witness :
  eigh_shaped identity_backend
  /\ index [5000; 5001] 0 = Ok 5000 /\ index [5000; 5001] (-1) = Ok 5001
  /\ Forall (fun x => x <> 0)
            (map (fun x => 0 ^ 2 + x) (matvec (identity 2) [1; 1]))
  /\ Resolution.sqrt_icov_of identity_backend
       (matmul (transpose (identity 2))
               (matmul (spdiags (map (fun x => 1 / x)
                                     (map (fun x => 0 ^ 2 + x)
                                          (matvec (identity 2) [1; 1])))
                                (length (matvec (identity 2) [1; 1])))
                       (identity 2))) None
     = Ok [[1; 0]; [0; 1]]
  /\ Forall (fun s => s <> 0) (sum_axis1 [[1; 0]; [0; 1]])
  /\ exists R,
       Bias.psfabsbias identity_backend diagonal_inv (pixel_per_bin_psf 2 0 0)
                       (pixel_per_bin_psf 2 0 0) [5000; 5001] [1; 1] 0 0
       = Ok ([0; 0], R)
       /\ Forall (fun d => d <> 0) (matvec R [1; 1])
       /\ Bias.psfbias identity_backend diagonal_inv (pixel_per_bin_psf 2 0 0)
                       (pixel_per_bin_psf 2 0 0) [5000; 5001] [1; 1] 0 0
          = Ok [0; 0].
Proof.
  assert (Hv : Forall (fun x => x <> 0)
                 (map (fun x => 0 ^ 2 + x) (matvec (identity 2) [1; 1])))
    by (reval; repeat constructor; lra).
  assert (HQ : Resolution.sqrt_icov_of identity_backend
       (matmul (transpose (identity 2))
               (matmul (spdiags (map (fun x => 1 / x)
                                     (map (fun x => 0 ^ 2 + x)
                                          (matvec (identity 2) [1; 1])))
                                (length (matvec (identity 2) [1; 1])))
                       (identity 2))) None
     = Ok [[1; 0]; [0; 1]]).
  { reval. rewrite !Rmax_1_1, !sqrt_1, threshold_val. repeat rdecide_step.
    f_equal. rlist. }
  assert (Hs : Forall (fun s => s <> 0) (sum_axis1 [[1; 0]; [0; 1]]))
    by (reval; repeat constructor; lra).
  split; [exact identity_backend_shaped|].
  split; [reflexivity|]. split; [reflexivity|].
  split; [exact Hv|]. split; [exact HQ|]. split; [exact Hs|].
  pose proof (same_psf_no_bias identity_backend diagonal_inv
                (pixel_per_bin_psf 2 0 0) [5000; 5001] [1; 1] 0 0 2
                5000 5001 [[1; 0]; [0; 1]] identity_backend_shaped
                ltac:(lia) eq_refl eq_refl) as H.
  cbv zeta in H.
  destruct H as (R & ivar & HR & Habs & Hrel).
  - exact Hv.
  - split; [reflexivity|repeat constructor].
  - eexists. split; [reflexivity|]. reval. rlist.
  - apply (positive_max_ones 2). lia.
  - exact HQ.
  - exact Hs.
  - exists R. split; [exact Habs|].
    assert (Hd : Forall (fun d => d <> 0) (matvec R [1; 1])).
    { revert HR. unfold Resolution.resolution_from_icov.
      change (Psf.projection_matrix (pixel_per_bin_psf 2 0 0) _ _ _ _)
        with (identity 2).
      rewrite HQ. cbv beta iota delta [bind]. intros E. injection E as <- _.
      reval. repeat constructor; lra. }
    split; [exact Hd|]. exact (Hrel Hd).
Defined.

End BiasMore.


(** ** Products of square matrices *)

Module AlgebraMore.

Import Py LA Spec MatrixSpec PyFacts LAFacts ShapeFacts LAMore.
Open Scope R_scope.

Lemma sumn_S n f : sumn (S n) f = sumn n f + f n.
Proof.
  unfold sumn. rewrite seq_S, map_app. simpl.
  unfold rsum. induction (map f (seq 0 n)); simpl; lra.
Qed.

Lemma sumn_ext n f g :
  (forall k, (k < n)%nat -> f k = g k) -> sumn n f = sumn n g.
Proof.
  intros H. unfold sumn. f_equal. apply map_ext_in.
  intros k Hk. apply in_seq in Hk. apply H. lia.
Qed.

Lemma sumn_zero n : sumn n (fun _ => 0) = 0.
Proof. induction n; [reflexivity|]. rewrite sumn_S, IHn. lra. Qed.

Lemma sumn_plus n f g :
  sumn n (fun k => f k + g k) = sumn n f + sumn n g.
Proof. induction n; [unfold sumn; simpl; lra|]. rewrite !sumn_S, IHn. lra. Qed.

Lemma sumn_scal_l n c f : sumn n (fun k => c * f k) = c * sumn n f.
Proof. induction n; [unfold sumn; simpl; lra|]. rewrite !sumn_S, IHn. lra. Qed.

Lemma sumn_scal_r n c f : sumn n (fun k => f k * c) = sumn n f * c.
Proof. induction n; [unfold sumn; simpl; lra|]. rewrite !sumn_S, IHn. lra. Qed.

Lemma sumn_swap n m (f : nat -> nat -> R) :
  sumn n (fun k => sumn m (fun l => f k l))
  = sumn m (fun l => sumn n (fun k => f k l)).
Proof.
  induction n.
  - unfold sumn at 1. simpl. symmetry. rewrite <- (sumn_zero m).
    apply sumn_ext. intros. reflexivity.
  - rewrite sumn_S, IHn, <- sumn_plus. apply sumn_ext. intros l _.
    now rewrite sumn_S.
Qed.

Lemma sumn_delta n k0 f :
  (k0 < n)%nat ->
  sumn n (fun k => if Nat.eqb k0 k then f k else 0) = f k0.
Proof.
  induction n; intros H; [lia|]. rewrite sumn_S.
  destruct (Nat.eqb_spec k0 n) as [->|Hne].
  - rewrite (sumn_ext n _ (fun _ => 0)), sumn_zero; [lra|].
    intros k Hk. destruct (Nat.eqb_spec n k); [lia|reflexivity].
  - rewrite IHn by lia. lra.
Qed.

Lemma dot_sumn (a b : vec) n :
  length a = n -> length b = n ->
  dot a b = sumn n (fun k => nth k a 0 * nth k b 0).
Proof.
  intros Ha Hb. unfold dot, sumn. now rewrite (zip_nth_seq a b n).
Qed.

Lemma entry_matmul_sum n A B i j :
  square n A -> square n B -> (i < n)%nat -> (j < n)%nat ->
  entry (matmul A B) i j = sumn n (fun k => entry A i k * entry B k j).
Proof.
  intros [HAl HAr] HB Hi Hj.
  rewrite entry_matmul by (rewrite ?(square_ncols n B HB); lia).
  rewrite (dot_sumn _ _ n).
  - apply sumn_ext. intros k Hk. now rewrite nth_col.
  - rewrite Forall_forall in HAr. apply HAr, nth_In. lia.
  - rewrite col_length. apply HB.
Qed.

Lemma matmul_square n A B : square n A -> square n B -> square n (matmul A B).
Proof.
  intros HA HB. destruct (matmul_shape A B) as [Hl Hr].
  split; [rewrite Hl; apply HA|].
  destruct (Nat.eq_dec n 0) as [->|Hn].
  - destruct HA as [HA _]. destruct A; [constructor|discriminate].
  - now rewrite (square_ncols n B HB) in Hr by lia.
Qed.

Lemma matmul_assoc n A B C :
  square n A -> square n B -> square n C ->
  matmul (matmul A B) C = matmul A (matmul B C).
Proof.
  intros HA HB HC. apply (mat_ext n).
  - apply matmul_square; [now apply matmul_square|assumption].
  - apply matmul_square; [assumption|now apply matmul_square].
  - intros i j Hi Hj.
    rewrite (entry_matmul_sum n) by (try apply matmul_square; assumption).
    rewrite (entry_matmul_sum n A) by (try apply matmul_square; assumption).
    rewrite (sumn_ext n _ (fun k => sumn n (fun l =>
               entry A i l * entry B l k * entry C k j))).
    2:{ intros k Hk. rewrite (entry_matmul_sum n A B) by assumption.
        now rewrite sumn_scal_r. }
    rewrite sumn_swap. apply sumn_ext. intros l Hl.
    rewrite (entry_matmul_sum n B C) by assumption.
    rewrite <- sumn_scal_l. apply sumn_ext. intros k _. lra.
Qed.

Lemma identity_square n : square n (identity n).
Proof. apply spdiags_square. Qed.

Lemma entry_identity n i j :
  (i < n)%nat -> (j < n)%nat ->
  entry (identity n) i j = if Nat.eqb i j then 1 else 0.
Proof.
  intros Hi Hj. unfold identity. rewrite entry_spdiags by assumption.
  unfold ones. now rewrite nth_repeat_lt.
Qed.

Lemma matmul_identity_l n M : square n M -> matmul (identity n) M = M.
Proof.
  intros HM. apply (mat_ext n).
  - apply matmul_square; [apply identity_square|assumption].
  - assumption.
  - intros i j Hi Hj. unfold identity.
    rewrite entry_diag_mul by (rewrite ?(square_ncols n M HM); lia).
    unfold ones. rewrite nth_repeat_lt by assumption. lra.
Qed.

Lemma matmul_identity_right n M : square n M -> matmul M (identity n) = M.
Proof.
  intros HM. apply (mat_ext n).
  - apply matmul_square; [assumption|apply identity_square].
  - assumption.
  - intros i j Hi Hj. unfold identity.
    rewrite entry_mul_diag by (rewrite ?(proj1 HM); lia).
    unfold ones. rewrite nth_repeat_lt by assumption. lra.
Qed.

(** The product of two diagonal matrices. *)
Lemma spdiags_mul n (a b : vec) :
  length a = n -> length b = n ->
  matmul (spdiags a n) (spdiags b n) = spdiags (zip_with Rmult a b) n.
Proof.
  intros Ha Hb. apply (mat_ext n).
  - apply matmul_square; apply spdiags_square.
  - apply spdiags_square.
  - intros i j Hi Hj.
    rewrite entry_diag_mul
      by (rewrite ?(square_ncols n _ (spdiags_square b n)); lia).
    rewrite !entry_spdiags by assumption.
    rewrite <- (zip_nth_seq a b n Ha Hb).
    rewrite (nth_map_seq (fun i => nth i a 0 * nth i b 0)) by assumption.
    destruct (Nat.eqb i j); lra.
Qed.

(** [v diag(a) v^T v diag(b) v^T = v diag(a b) v^T] for an orthogonal
    [v]. *)
Lemma compose_mul n (a b : vec) v :
  orthogonal n v -> length a = n -> length b = n ->
  matmul (compose a v) (compose b v) = compose (zip_with Rmult a b) v.
Proof.
  intros (Hl & Hr & Ho & _) Ha Hb.
  assert (Hv : square n v) by (now split).
  pose proof (transpose_square n v Hv) as Hvt.
  unfold compose. rewrite zip_with_length, Ha, Hb, Nat.min_id.
  pose proof (spdiags_square a n) as HDa. pose proof (spdiags_square b n) as HDb.
  assert (HbT : square n (matmul (spdiags b n) (transpose v)))
    by (now apply matmul_square).
  rewrite (matmul_assoc n v) by (try apply matmul_square; assumption).
  f_equal.
  rewrite (matmul_assoc n (spdiags a n)) by (try apply matmul_square; assumption).
  rewrite <- (matmul_assoc n (transpose v) v) by assumption.
  rewrite Ho. change (spdiags (ones n) n) with (identity n).
  rewrite (matmul_identity_l n) by assumption.
  rewrite <- (matmul_assoc n (spdiags a n)) by assumption.
  now rewrite spdiags_mul.
Qed.

Lemma compose_ones n v : orthogonal n v -> compose (ones n) v = identity n.
Proof.
  intros (Hl & Hr & _ & Ho). assert (Hv : square n v) by (now split).
  unfold compose, ones. rewrite repeat_length.
  change (spdiags (repeat 1 n) n) with (identity n).
  rewrite (matmul_identity_l n) by (now apply transpose_square).
  exact Ho.
Qed.

End AlgebraMore.


(** ** PatchSolver, iterative variant: the array returned as [ivar] *)

Module VarianceMore.

Import Py LA Spec MatrixSpec PyFacts LAFacts ShapeFacts LAMore AlgebraMore.
Import ResolutionFacts.
Open Scope R_scope.

Lemma sqrt_inv_sqrt (u : vec) :
  Forall (fun x => 0 < x) u ->
  zip_with Rmult (map sqrt u)
           (zip_with Rmult (map (fun x => 1 / x) u) (map sqrt u))
  = ones (length u).
Proof.
  unfold ones. induction 1 as [|x u Hx Hu IH]; simpl; [reflexivity|].
  rewrite IH. f_equal.
  replace (sqrt x * (1 / x * sqrt x)) with (sqrt x * sqrt x * / x)
    by (unfold Rdiv; lra).
  rewrite sqrt_sqrt by lra. field. lra.
Qed.

(** [Q C^-1 Q = I] for the square root [Q] and the inverse [C^-1]
    composed from an orthogonal eigendecomposition with positive
    eigenvalues. *)
Lemma sqrt_inverse_sqrt n (u : vec) v :
  orthogonal n v -> length u = n -> Forall (fun x => 0 < x) u ->
  matmul (compose (map sqrt u) v)
         (matmul (compose (map (fun x => 1 / x) u) v)
                 (compose (map sqrt u) v))
  = identity n.
Proof.
  intros Ho Hu Hpos.
  rewrite (compose_mul n) by (rewrite ?length_map; assumption).
  rewrite (compose_mul n)
    by (rewrite ?zip_with_length, ?length_map, ?Hu, ?Nat.min_id; auto).
  rewrite sqrt_inv_sqrt by assumption. rewrite Hu.
  now apply compose_ones.
Qed.

Lemma nth_inv_sums (Q : mat) i :
  (i < length Q)%nat ->
  nth i (map Rinv (sum_axis1 Q)) 0 = / rsum (nth i Q []).
Proof.
  intros Hi. unfold sum_axis1. rewrite map_map.
  rewrite (nth_indep (map (fun x : list R => / rsum x) Q) 0
                     ((fun q : list R => / rsum q) []))
    by (now rewrite length_map).
  apply (map_nth (fun q : list R => / rsum q)).
Qed.

(** The resolution matrix is the square root with its rows scaled. *)
Lemma resolution_as_product n (Q : mat) :
  square n Q ->
  hadamard (np_outer (map Rinv (sum_axis1 Q)) (ones (length (sum_axis1 Q)))) Q
  = matmul (spdiags (map Rinv (sum_axis1 Q)) n) Q.
Proof.
  intros HQ. destruct (Nat.eq_dec n 0) as [->|Hn].
  { destruct HQ as [HQ _]. destruct Q; [reflexivity|discriminate]. }
  apply (mat_ext n).
  - apply (ResolutionMore.resolution_square n Q HQ).
  - apply matmul_square; [apply spdiags_square|assumption].
  - intros i j Hi Hj.
    rewrite entry_diag_mul by (rewrite ?(square_ncols n Q HQ); lia).
    change (np_outer (map Rinv (sum_axis1 Q)) (ones (length (sum_axis1 Q))))
      with (Resolution.outer (map Rinv (sum_axis1 Q))
                             (ones (length (sum_axis1 Q)))).
    rewrite resolution_rows. unfold entry at 1.
    set (f := fun q : vec =>
                zip_with Rmult (map (fun y => / rsum q * y) (ones (length Q))) q).
    replace (@nil R) with (f []) at 1
      by (unfold f; now destruct (map _ (ones (length Q)))).
    rewrite map_nth. unfold f. rewrite EngineMore.nth_zip_mul.
    destruct HQ as [HQl HQr]. rewrite HQl.
    rewrite (nth_indep _ 0 ((fun y => / rsum (nth i Q []) * y) 0))
      by (unfold ones; now rewrite length_map, repeat_length).
    rewrite (map_nth (fun y => / rsum (nth i Q []) * y)).
    unfold ones. rewrite nth_repeat_lt by assumption.
    rewrite nth_inv_sums by (unfold vec in *; lia). unfold entry.
    now rewrite Rmult_1_r.
Qed.

Lemma transpose_scaled n (d : vec) (Q : mat) :
  square n Q -> symmetric Q -> (0 < n)%nat ->
  transpose (matmul (spdiags d n) Q) = matmul Q (spdiags d n).
Proof.
  intros HQ Hsym Hn.
  pose proof (matmul_square n _ _ (spdiags_square d n) HQ) as Hs.
  apply (mat_ext n).
  - now apply transpose_square.
  - apply matmul_square; [assumption|apply spdiags_square].
  - intros i j Hi Hj.
    rewrite entry_transpose by (rewrite (square_ncols n _ Hs); lia).
    rewrite entry_diag_mul by (rewrite ?(square_ncols n Q HQ); lia).
    rewrite entry_mul_diag by (rewrite ?(proj1 HQ); lia).
    assert (E : entry (transpose Q) i j = entry Q j i)
      by (apply entry_transpose; rewrite (square_ncols n Q HQ); lia).
    unfold symmetric in Hsym. rewrite Hsym in E. rewrite E.
    apply Rmult_comm.
Qed.

(** [diag(R C^-1 R^T)] is the elementwise square of the reciprocal of
    the normalisation vector. *)
Lemma decorrelated_covariance_diagonal n (u : vec) v :
  orthogonal n v -> length u = n -> Forall (fun x => 0 < x) u ->
  (0 < n)%nat ->
  let Q := compose (map sqrt u) v in
  let Cov := compose (map (fun x => 1 / x) u) v in
  let nv := sum_axis1 Q in
  let R := hadamard (np_outer (map Rinv nv) (ones (length nv))) Q in
  diagonal (matmul R (matmul Cov (transpose R)))
  = map (fun x => / x * / x) nv.
Proof.
  intros Ho Hu Hpos Hn Q Cov nv R.
  assert (Hv : square n v) by (destruct Ho as (? & ? & _); now split).
  assert (HQ : square n Q)
    by (apply compose_square; [assumption|now rewrite length_map]).
  assert (HC : square n Cov)
    by (apply compose_square; [assumption|now rewrite length_map]).
  assert (Hsym : symmetric Q)
    by (apply (compose_symmetric n); [assumption|now rewrite length_map]).
  assert (HR : R = matmul (spdiags (map Rinv nv) n) Q)
    by (apply resolution_as_product; assumption).
  rewrite HR. rewrite (transpose_scaled n) by assumption.
  remember (spdiags (map Rinv nv) n) as D eqn:ED.
  assert (HD : square n D) by (subst D; apply spdiags_square).
  assert (HQD : square n (matmul Q D)) by (now apply matmul_square).
  rewrite (matmul_assoc n D Q)
    by (first [assumption | apply matmul_square; assumption]).
  rewrite <- (matmul_assoc n Cov Q D) by assumption.
  rewrite <- (matmul_assoc n Q (matmul Cov Q) D)
    by (first [assumption | apply matmul_square; assumption]).
  unfold Q at 1 2, Cov. rewrite (sqrt_inverse_sqrt n u v Ho Hu Hpos).
  rewrite (matmul_identity_l n D HD). subst D.
  assert (Hnv : length (map Rinv nv) = n)
    by (unfold nv, sum_axis1; rewrite !length_map; apply HQ).
  rewrite spdiags_mul by assumption.
  set (dd := zip_with Rmult (map Rinv nv) (map Rinv nv)).
  assert (Hdd : length dd = n)
    by (unfold dd; rewrite zip_with_length, Hnv; lia).
  unfold diagonal, nrows.
  rewrite spdiags_length, (square_ncols n _ (spdiags_square dd n) Hn), Nat.min_id.
  transitivity dd.
  - transitivity (map (fun i => nth i dd 0) (seq 0 n));
      [|rewrite <- Hdd; apply map_nth_seq].
    apply map_ext_in. intros i Hi. apply in_seq in Hi.
    change (entry (spdiags dd n) i i = nth i dd 0).
    rewrite entry_spdiags by lia. now rewrite Nat.eqb_refl.
  - unfold dd. clear. induction nv as [|x t IH]; simpl; [reflexivity|].
    now rewrite IH.
Qed.


(** X17: in the iterative variant, when the eigensolver has returned
    positive eigenvalues and an orthogonal matrix of eigenvectors for
    the inverse covariance, and no entry [n_i] of the normalisation
    vector is zero, the array a patch returns under the name [ivar] is
    the diagonal of [R C^-1 R^T], which is [1 / n_i^2] at every flux
    bin: the reciprocal of the [n_i^2] that [resolution_from_icov]
    returns as inverse variance. *)
Theorem iterative_ivar_is_variance la image ivar psf specmin nspec
      wavelengths xyrange regularize ndecorr use_cache out n :
  Gpu.ex2d_patch la image ivar psf specmin nspec wavelengths xyrange
                 regularize ndecorr use_cache = Ok out ->
  (0 < n)%nat ->
  length (fst (eigh la (Patch.iCov out))) = n ->
  orthogonal n (snd (eigh la (Patch.iCov out))) ->
  Forall (fun x => 0 < x) (fst (eigh la (Patch.iCov out))) ->
  Forall (fun x => x <> 0) (normalization_vector la (Patch.iCov out)) ->
  ravel (Patch.ivar out)
  = map (fun x => 1 / x ^ 2) (normalization_vector la (Patch.iCov out)).
Proof.
  unfold Gpu.ex2d_patch, normalization_vector.
  destruct (reshape nspec (len wavelengths) _) as [f|e];
    cbv beta iota delta [bind]; [|discriminate].
  destruct (eigh la _) as [u v] eqn:Eu.
  destruct (reshape nspec (len wavelengths) (matvec _ _)) as [fx|e];
    cbv beta iota delta [bind]; [|discriminate].
  destruct (reshape nspec (len wavelengths) (diagonal _)) as [vx|e] eqn:Ev;
    cbv beta iota delta [bind]; [|discriminate].
  intros H. injection H as <-. cbv [Patch.iCov Patch.ivar].
  rewrite Eu. cbv [fst snd]. intros Hn Hu Ho Hpos Hne.
  apply PatchMore.reshape_ravel in Ev. rewrite Ev.
  pose proof (decorrelated_covariance_diagonal n u v Ho Hu Hpos Hn) as HD.
  cbv zeta in HD. unfold compose in HD, Hne |- *.
  rewrite (length_map sqrt u), (length_map (fun x => 1 / x) u) in HD.
  rewrite (length_map sqrt u) in Hne |- *.
  rewrite HD. apply map_ext_in. intros x Hx.
  rewrite Forall_forall in Hne. specialize (Hne x Hx). now field.
Qed.

(** The theorem at one pixel of value 2 and weight 1 that receives one
    flux bin with amplitude 3. *)
Lemma iterative_ivar_is_variance_witness :
  exists out,
    Gpu.ex2d_patch identity_backend [[2]] [[1]] (one_pixel_psf 3) 0 1
      [5000] (0, 1, 0, 1)%Z 0 false None = Ok out
    /\ orthogonal 1 (snd (eigh identity_backend (Patch.iCov out)))
    /\ ravel (Patch.ivar out)
       = map (fun x => 1 / x ^ 2)
             (normalization_vector identity_backend (Patch.iCov out)).
Proof.
  destruct (Gpu.ex2d_patch identity_backend [[2]] [[1]] (one_pixel_psf 3)
              0 1 [5000] (0, 1, 0, 1)%Z 0 false None) as [out|e] eqn:E.
  - exists out. split; [reflexivity|].
    assert (Hc : Patch.iCov out = [[3 * (1 * 3 + 0) + 0]]).
    { pose proof E as E'. revert E'. rrun. intros H. now injection H as <-. }
    assert (Ho : orthogonal 1 (snd (eigh identity_backend (Patch.iCov out)))).
    { rewrite Hc. repeat split; try (repeat constructor); reval; rlist. }
    split; [exact Ho|].
    apply (iterative_ivar_is_variance identity_backend [[2]] [[1]]
             (one_pixel_psf 3) 0 1 [5000] (0, 1, 0, 1)%Z 0 false None out 1 E).
    + lia.
    + now rewrite Hc.
    + exact Ho.
    + rewrite Hc. repeat constructor. simpl. lra.
    + rewrite Hc. reval. rewrite sqrt_1. repeat constructor. lra.
  - exfalso. revert E. rrun. discriminate.
Defined.

End VarianceMore.


(** ** PatchStitcher: the band of the resolution matrix and the borders *)

Module StitchMore.

Import Py LA Spec MatrixSpec SmallInputs PyFacts LAFacts ShapeFacts LAMore.
Import Engine EngineFacts.
Open Scope R_scope.

#[local] Arguments patch_step : simpl never.

Lemma index_nth {A : Type} (a : list A) (i : Z) d :
  (0 <= i < len a)%Z -> index a i = Ok (nth (Z.to_nat i) a d).
Proof.
  intros H. unfold index.
  destruct (Z.ltb_spec i 0); [lia|].
  destruct (Z.leb_spec 0 i); [|lia]. destruct (Z.ltb_spec i (len a)); [|lia].
  cbn [andb]. destruct (nth_error a (Z.to_nat i)) eqn:E.
  - now rewrite (nth_error_nth _ _ d E).
  - apply nth_error_None in E. unfold len in H. lia.
Qed.

(** The loop of [column_slice] collects entry [j] of every row. *)
Lemma collect_column (j : Z) (rows : mat) : forall acc,
  Forall (fun row : vec => (0 <= j < len row)%Z) rows ->
  for_each (fun acc row => x <- index row j ;; Ok (acc ++ [x])) rows acc
  = Ok (acc ++ map (fun row => nth (Z.to_nat j) row 0) rows).
Proof.
  induction rows as [|row rows IH]; intros acc H; cbn [for_each map].
  - now rewrite app_nil_r.
  - inversion H as [|? ? Hr Hrest]; subst.
    rewrite (index_nth row j 0 Hr). cbv beta iota delta [bind].
    rewrite IH by assumption. now rewrite <- app_assoc.
Qed.

(** X18: the borders of a patch are at least [ndiag] bins wide, so the
    band of the resolution matrix is never clipped: for every core bin
    [j] of a patch of [nw] bins with borders [nlo = max(a, ndiag)] and
    [nhi = max(b, ndiag)], the slice [Rx[j-ndiag:j+ndiag+1, j]] of an
    [nw] by [nw] block has all its [2 ndiag + 1] entries, those of
    column [j] from row [j - ndiag] on. *)
Theorem band_never_clipped (Rx : mat) (nw a b ndiag j : Z) :
  square (Z.to_nat nw) Rx -> (0 <= ndiag)%Z ->
  In j (arange (Z.max a ndiag) (nw - Z.max b ndiag)) ->
  exists colv,
    column_slice Rx (j - ndiag) (j + ndiag + 1) j = Ok colv
    /\ len colv = (2 * ndiag + 1)%Z
    /\ forall k, (k < length colv)%nat ->
         nth k colv 0 = entry Rx (Z.to_nat (j - ndiag) + k) (Z.to_nat j).
Proof.
  intros [HRl HRr] Hnd Hj. apply arange_In in Hj.
  assert (Hnw : (0 <= nw)%Z) by lia.
  assert (Hlen : len Rx = nw) by (unfold len; lia).
  unfold column_slice.
  rewrite collect_column.
  - eexists. split; [reflexivity|]. cbn [app].
    assert (HL : length (slice (j - ndiag) (j + ndiag + 1) Rx)
                 = Z.to_nat (2 * ndiag + 1)).
    { rewrite slice_length by lia. f_equal. lia. }
    split; [unfold len; rewrite length_map, HL; lia|].
    intros k Hk. rewrite length_map, HL in Hk.
    rewrite (nth_indep _ 0 ((fun row : vec => nth (Z.to_nat j) row 0) []))
      by (rewrite length_map, HL; lia).
    rewrite (map_nth (fun row : vec => nth (Z.to_nat j) row 0)).
    unfold entry. f_equal. unfold slice, clip.
    destruct (Z.ltb_spec (j - ndiag) 0); [lia|].
    destruct (Z.ltb_spec (j + ndiag + 1) 0); [lia|].
    rewrite nth_firstn.
    destruct (Nat.ltb_spec k (Z.to_nat (Z.min (j + ndiag + 1) (len Rx)
                                          - Z.min (j - ndiag) (len Rx))));
      [|lia].
    rewrite nth_skipn. f_equal. lia.
  - apply slice_Forall. eapply Forall_impl; [|exact HRr].
    intros row Hrow. cbv beta in Hrow. unfold len. lia.
Qed.

(** The theorem at a block of three bins with one diagonal on each
    side. *)
Lemma band_never_clipped_witness :
  square (Z.to_nat 3) [[1; 2; 3]; [4; 5; 6]; [7; 8; 9]] /\ (0 <= 1)%Z
  /\ In 1%Z (arange (Z.max 0 1) (3 - Z.max 0 1))
  /\ exists colv,
       column_slice [[1; 2; 3]; [4; 5; 6]; [7; 8; 9]] (1 - 1) (1 + 1 + 1) 1
       = Ok colv
       /\ len colv = (2 * 1 + 1)%Z.
Proof.
  assert (Hsq : square (Z.to_nat 3) [[1; 2; 3]; [4; 5; 6]; [7; 8; 9]])
    by (split; [reflexivity|repeat constructor]).
  assert (Hin : In 1%Z (arange (Z.max 0 1) (3 - Z.max 0 1))) by (now left).
  split; [exact Hsq|]. split; [lia|]. split; [exact Hin|].
  destruct (band_never_clipped [[1; 2; 3]; [4; 5; 6]; [7; 8; 9]] 3 0 0 1 1
              Hsq ltac:(lia) Hin) as (colv & Hc & Hl & _).
  exists colv. split; assumption.
Defined.

(** *** A patch without upper border *)

Lemma py_int_nonpos x : x <= 0 -> (py_int x <= 0)%Z.
Proof.
  intros Hx. unfold py_int, floor, ceil.
  destruct (Rle_dec 0 x) as [H0|H0].
  - destruct (base_Int_part x) as [Hle _]. apply le_IZR. lra.
  - destruct (base_Int_part (- x)) as [_ Hgt].
    assert (H1 : (-1 < Int_part (- x))%Z) by (apply lt_IZR; lra). lia.
Qed.

Lemma select_all {A : Type} (a : list A) :
  select (repeat true (length a)) a = a.
Proof. induction a; simpl; congruence. Qed.

Lemma mask_keep {A : Type} (a : list A) :
  length a = 25%nat -> mask_index a keep = Ok a.
Proof.
  intros H. unfold mask_index, keep. rewrite repeat_length, H. cbn [Nat.eqb].
  rewrite <- H at 1. now rewrite select_all.
Qed.

Lemma slice_to_zero {A : Type} lo (a : list A) : slice lo (- 0) a = [].
Proof.
  unfold slice. change (- 0)%Z with 0%Z.
  assert (H0 : clip (len a) 0 = 0%Z)
    by (unfold clip, len; cbn [Z.ltb Z.compare]; lia).
  assert (Hl : (0 <= clip (len a) lo)%Z)
    by (unfold clip, len; destruct (Z.ltb_spec lo 0); lia).
  rewrite H0. replace (Z.to_nat (0 - clip (len a) lo)) with 0%nat by lia.
  reflexivity.
Qed.

(** X19: a patch whose upper border is empty cannot be stitched.  When
    the step [dw] is not zero, [ndiag] is 0 and the bins of the patch
    above its core number at most one
    ([int((psf.wavelength(speclo, ymax) - whi)/dw) <= 1]), [nhi] is 0
    and the slice [nlo:-nhi] selects no bin: with 25 spectra, a core of
    at least one column and a patch extraction that returns the flux of
    the 25 spectra, the step raises [ValueError] at the assignment to
    [flux]. *)
Theorem zero_upper_border_raises variant image imageivar psf specmin
      wavelengths xyrange regularize ndecorr wavesize full_output dw
      flux ivar Rd iwave wlo whi out :
  dw <> 0 ->
  (1 <= wavesize)%Z -> (0 <= iwave < Z.of_nat (ncols flux))%Z ->
  index wavelengths iwave = Ok wlo ->
  (if (iwave + wavesize <? len wavelengths)%Z
   then index wavelengths (iwave + wavesize)
   else index wavelengths (-1)) = Ok whi ->
  patch_extraction variant image imageivar psf specmin 25 wavelengths xyrange
                   regularize ndecorr wavesize dw 0 iwave = Ok out ->
  length (Patch.flux out) = 25%nat ->
  (let '(xlo, xhi, ylo, yhi) :=
     Psf.xyrange psf (specmin, (specmin + 25)%Z) (wlo, whi) in
   let '(ny, nx) := Psf.pix_shape psf specmin wlo in
   (py_int ((Psf.wavelength psf specmin (yhi + Z.of_nat ny - 2) - whi) / dw)
    <= 1)%Z) ->
  patch_step variant image imageivar psf specmin 25 wavelengths xyrange
             regularize ndecorr wavesize full_output dw 0 (flux, ivar, Rd)
             iwave
  = Raise ValueError.
Proof.
  intros _ Hw Hi E1 E2. unfold patch_step, patch_extraction.
  rewrite E1. cbv beta iota delta [bind]. rewrite E2.
  cbv beta iota delta [bind].
  destruct (Psf.xyrange psf _ _) as [[[xlo xhi] ylo] yhi].
  destruct (Psf.pix_shape psf _ _) as [ny nx].
  cbv beta iota zeta. intros Hext Hout Hhi.
  rewrite Hext. cbv beta iota delta [bind].
  rewrite (mask_keep (Patch.flux out) Hout). cbv beta iota delta [bind].
  rewrite mask_keep
    by (rewrite arange_length; lia).
  cbv beta iota delta [bind].
  replace (Z.max (py_int ((Psf.wavelength psf specmin
                             (yhi + Z.of_nat ny - 2) - whi) / dw) - 1) 0)
    with 0%Z by lia.
  unfold assign_block.
  rewrite length_map, Hout, arange_length.
  replace (Z.to_nat (specmin + 25 - specmin - (specmin - specmin))) with 25%nat
    by lia.
  cbn [Nat.eqb].
  destruct (Patch.flux out) as [|row rest]; [discriminate|].
  cbn [map broadcast_rows]. rewrite slice_to_zero.
  unfold broadcast_row. cbn [length].
  assert (Hc : (1 <= length (slice_indices (Z.of_nat (ncols flux)) iwave
                                           (iwave + wavesize + 1)))%nat).
  { unfold slice_indices, clip.
    destruct (Z.ltb_spec iwave 0); [lia|].
    destruct (Z.ltb_spec (iwave + wavesize + 1) 0); [lia|].
    rewrite arange_length. lia. }
  destruct (length (slice_indices _ _ _)) as [|c]; [lia|].
  cbn [Nat.eqb]. reflexivity.
Qed.

End StitchMore.


(** ** The number of diagonals, the symmetric part and the two variants *)

Module VariantMore.

Import Py LA Spec MatrixSpec PyFacts LAFacts ShapeFacts LAMore.
Import Engine EngineFacts GpuMatrixFacts.
Open Scope R_scope.

(** *** [ndiag] *)

(** X20: the number of diagonals kept in the band can be computed
    exactly when the step [dw] is not zero, and it is then at least 0
    and at most half the height and half the width of the PSF spot at
    the middle wavelength. *)
Theorem ndiag_within_spot psf specmin nspec dw :
  (dw <> 0 <-> exists nd, ndiag_of psf specmin nspec dw = Ok nd)
  /\ forall nd, ndiag_of psf specmin nspec dw = Ok nd ->
       let spot := Psf.pix_shape psf 0%Z
                     ((Psf.wmin_all psf + Psf.wmax_all psf) / 2) in
       (0 <= nd /\ nd <= Z.of_nat (fst spot) / 2
        /\ nd <= Z.of_nat (snd spot) / 2)%Z.
Proof.
  split.
  - split.
    + intros Hdw. destruct (ndiag_of_ok psf specmin nspec dw Hdw) as (nd & H & _).
      eauto.
    + intros (nd & H) ->.
      destruct (EngineMore.ndiag_of_zero_step psf specmin nspec) as [e He].
      congruence.
  - intros nd H spot.
    assert (Hdw : dw <> 0).
    { intros ->.
      destruct (EngineMore.ndiag_of_zero_step psf specmin nspec) as [e He].
      congruence. }
    destruct (ndiag_of_ok psf specmin nspec dw Hdw) as (nd' & H' & Hpos).
    assert (nd' = nd) by congruence. subst nd'.
    split; [assumption|].
    revert H. unfold ndiag_of.
    destruct (for_each _ _ _) as [m|e]; cbv beta iota delta [bind];
      [|discriminate].
    intros E. injection E as <-. fold spot. lia.
Qed.

(** The theorem at a PSF whose spot is a single pixel. *)
Lemma ndiag_within_spot_witness :
  1 <> 0 /\ exists nd, ndiag_of (one_pixel_psf 1) 0 25 1 = Ok nd
                       /\ (0 <= nd <= 0)%Z.
Proof.
  split; [lra|].
  destruct (proj1 (proj1 (ndiag_within_spot (one_pixel_psf 1) 0 25 1))
                  ltac:(lra)) as [nd Hnd].
  exists nd. split; [exact Hnd|].
  pose proof (proj2 (ndiag_within_spot (one_pixel_psf 1) 0 25 1) nd Hnd) as H.
  cbv beta iota zeta delta [one_pixel_psf Psf.pix_shape fst snd] in H.
  change (Z.of_nat 1 / 2)%Z with 0%Z in H. lia.
Defined.

(** *** The symmetric part *)

Lemma transpose_involutive n (M : mat) :
  square n M -> transpose (transpose M) = M.
Proof.
  intros HM. destruct (Nat.eq_dec n 0) as [->|Hn].
  { destruct HM as [HM _]. destruct M; [reflexivity|discriminate]. }
  pose proof (transpose_square n M HM) as Ht.
  apply (mat_ext n); [now apply transpose_square|assumption|].
  intros i j Hi Hj.
  rewrite entry_transpose by (rewrite (square_ncols n _ Ht); lia).
  apply entry_transpose. rewrite (square_ncols n _ HM); lia.
Qed.

Lemma zip_plus_comm : forall (a b : vec),
  zip_with Rplus a b = zip_with Rplus b a.
Proof.
  induction a as [|x a IH]; intros [|y b]; simpl; try reflexivity.
  now rewrite IH, Rplus_comm.
Qed.

Lemma madd_comm : forall (A B : mat), madd A B = madd B A.
Proof.
  unfold madd. induction A as [|r A IH]; intros [|s B]; simpl; try reflexivity.
  now rewrite IH, zip_plus_comm.
Qed.

(** X21: [resolution_from_icov] sees only the symmetric part of a
    square matrix: it returns (or raises) the same on a matrix and on
    its transpose. *)
Theorem only_symmetric_part_matters la icov decorr n :
  square n icov ->
  Resolution.resolution_from_icov la (transpose icov) decorr
  = Resolution.resolution_from_icov la icov decorr.
Proof.
  intros HM. unfold Resolution.resolution_from_icov, Resolution.sqrt_icov_of.
  rewrite (transpose_involutive n icov HM).
  now rewrite (madd_comm (transpose icov) icov).
Qed.

(** The theorem at a matrix that is not symmetric. *)
Lemma only_symmetric_part_matters_witness :
  square 2 [[2; 1]; [0; 3]]
  /\ Resolution.resolution_from_icov identity_backend
       (transpose [[2; 1]; [0; 3]]) None
     = Resolution.resolution_from_icov identity_backend [[2; 1]; [0; 3]] None.
Proof.
  assert (Hsq : square 2 [[2; 1]; [0; 3]])
    by (split; [reflexivity|repeat constructor]).
  split; [exact Hsq|].
  exact (only_symmetric_part_matters identity_backend [[2; 1]; [0; 3]] None 2
           Hsq).
Defined.

(** *** The two variants side by side *)

(** X22: the two variants of [ex2d_patch] differ only in the array
    they return as [ivar] when nothing is regularised.  For an image
    and weights of the same rectangular shape, no flux bin lighter than
    [1e-4] of the heaviest, [regularize = 0] in the direct variant and
    solvers that return the same solution, two returned patches have
    the same [iCov], [xflux], [R], [flux] and [A]. *)
Theorem variants_agree_without_regularisation la image ivar psf specmin nspec
      wavelengths xmin xmax ymin ymax full_output regularize ndecorr
      use_cache o1 o2 :
  let xyr := (xmin, xmax, ymin, ymax) in
  let A := Psf.projection_matrix psf (specmin, (specmin + nspec)%Z)
                                 wavelengths xyr use_cache in
  let npix := Z.to_nat ((xmax - xmin) * (ymax - ymin)) in
  (nrows image * ncols image)%nat = length (ravel ivar) ->
  no_weak_bin (GpuMatrix.fluxweight_of ivar npix A) ->
  (forall C y, lsqr la C y = solve la C y) ->
  Gpu.ex2d_patch la image ivar psf specmin nspec wavelengths xyr
                 regularize ndecorr use_cache = Ok o1 ->
  GpuMatrix.ex2d_patch la image ivar psf specmin nspec wavelengths (Some xyr)
                       full_output 0 ndecorr use_cache = Ok o2 ->
  Patch.iCov o1 = Patch.iCov o2 /\ Patch.xflux o1 = Patch.xflux o2
  /\ Patch.Rmat o1 = Patch.Rmat o2 /\ Patch.flux o1 = Patch.flux o2
  /\ Patch.Amat o1 = Patch.Amat o2.
Proof.
  intros xyr A npix Hshape Hweak Hsolve.
  unfold Gpu.ex2d_patch, GpuMatrix.ex2d_patch.
  destruct (index wavelengths 0) as [w0|e]; cbv beta iota delta [bind].
  2:{ intros _ H. discriminate. }
  destruct (index wavelengths (-1)) as [w1|e]; cbv beta iota delta [bind].
  2:{ intros _ H. discriminate. }
  unfold xyr. cbv beta iota zeta delta [fst snd].
  fold A. fold npix.
  destruct (np_max _) as [maxweight|e] eqn:Emax; cbv beta iota delta [bind].
  2:{ intros _ H. discriminate. }
  specialize (Hweak maxweight Emax).
  destruct (np_length _) as [nflux|e]; cbv beta iota delta [bind].
  2:{ intros _ H. discriminate. }
  destruct (GpuMatrix.Idiag_of _ _ _ _) as [Idiag|e] eqn:EI;
    cbv beta iota delta [bind].
  2:{ intros _ H. discriminate. }
  apply Idiag_zero in EI; [|exact Hweak].
  unfold GpuMatrix.augment.
  rewrite (np_any_zero _ (diagonal_spdiags_zero _ _ EI)).
  replace (specmin + nspec - specmin)%Z with nspec by lia.
  rewrite Hshape, Hsolve.
  destruct (reshape nspec _ (solve _ _ _)) as [f|e];
    cbv beta iota delta [bind]; [|discriminate].
  destruct (eigh la _) as [u v].
  destruct (reshape nspec _ (matvec _ _)) as [fx|e];
    cbv beta iota delta [bind]; [|discriminate].
  destruct (reshape nspec _ (diagonal _)) as [vx|e];
    cbv beta iota delta [bind]; [|discriminate].
  destruct (reshape nspec _ (map _ _)) as [vx2|e];
    cbv beta iota delta [bind]; [|intros _ H; discriminate].
  intros H1 H2. injection H1 as <-. injection H2 as <-.
  cbv [Patch.iCov Patch.xflux Patch.Rmat Patch.flux Patch.Amat].
  repeat split.
Qed.

(** The theorem at one pixel of value 2 and weight 1 that receives one
    flux bin with amplitude 3. *)
Lemma variants_agree_without_regularisation_witness :
  no_weak_bin (GpuMatrix.fluxweight_of [[1]] 1 [[3]])
  /\ exists o1 o2,
       Gpu.ex2d_patch scalar_backend [[2]] [[1]] (one_pixel_psf 3) 0 1
         [5000] (0, 1, 0, 1)%Z 0 false None = Ok o1
       /\ GpuMatrix.ex2d_patch scalar_backend [[2]] [[1]] (one_pixel_psf 3)
            0 1 [5000] (Some (0, 1, 0, 1)%Z) true 0 false None = Ok o2
       /\ Patch.flux o1 = Patch.flux o2 /\ Patch.Rmat o1 = Patch.Rmat o2.
Proof.
  assert (Hw : no_weak_bin (GpuMatrix.fluxweight_of [[1]] 1 [[3]])).
  { intros m Hm. injection Hm as <-. constructor; [|constructor].
    reval. lra. }
  split; [exact Hw|].
  destruct (Gpu.ex2d_patch scalar_backend [[2]] [[1]] (one_pixel_psf 3) 0 1
              [5000] (0, 1, 0, 1)%Z 0 false None) as [o1|e] eqn:E1.
  2:{ exfalso. revert E1. rrun. discriminate. }
  destruct (GpuMatrix.ex2d_patch scalar_backend [[2]] [[1]] (one_pixel_psf 3)
              0 1 [5000] (Some (0, 1, 0, 1)%Z) true 0 false None)
    as [o2|e] eqn:E2.
  2:{ exfalso. revert E2. rrun. discriminate. }
  exists o1, o2. split; [reflexivity|]. split; [reflexivity|].
  destruct (variants_agree_without_regularisation scalar_backend [[2]] [[1]]
              (one_pixel_psf 3) 0 1 [5000] 0 1 0 1 true 0 false None o1 o2
              eq_refl Hw (fun _ _ => eq_refl) E1 E2)
    as (_ & _ & HR & HF & _).
  split; assumption.
Defined.

End VariantMore.

(** ** Runs of the iterative engine on a detector of one pixel per flux bin

    The extraction of a patch is followed through [ex2d_patch] of
    ex2d_patch_gpu.py for a PSF whose projection matrix is the identity,
    an image and weights of ones, and an eigensolver that answers the
    identity matrix with its decomposition [(ones, identity)]. *)

Module RunFacts.

Import Py LA Spec MatrixSpec PatchSpec SmallInputs PyFacts LAFacts ShapeFacts.
Import LAMore AlgebraMore PatchMore.
Import Engine EngineFacts.
Open Scope R_scope.

#[local] Arguments patch_step : simpl never.

(** *** Floats to integers *)

Lemma Int_part_IZR z : Int_part (IZR z) = z.
Proof. symmetry. apply Int_part_spec. lra. Qed.

Lemma floor_between x z : IZR z <= x < IZR z + 1 -> floor x = z.
Proof. intros H. unfold floor. symmetry. apply Int_part_spec. lra. Qed.

Lemma ceil_between x z : IZR z - 1 < x <= IZR z -> ceil x = z.
Proof.
  intros H. unfold ceil.
  rewrite <- (Int_part_spec (- x) (- z)%Z); [lia|].
  rewrite opp_IZR. lra.
Qed.

Lemma py_int_IZR z : py_int (IZR z) = z.
Proof.
  unfold py_int. destruct (Rle_dec 0 (IZR z)).
  - apply floor_between. lra.
  - apply ceil_between. lra.
Qed.

(** A spot of one pixel leaves no diagonal but the main one. *)
Lemma ndiag_of_one_pixel psf specmin nspec dw :
  dw <> 0 ->
  Psf.pix_shape psf 0%Z ((Psf.wmin_all psf + Psf.wmax_all psf) / 2)
  = (1%nat, 1%nat) ->
  ndiag_of psf specmin nspec dw = Ok 0%Z.
Proof.
  intros Hdw Hs. unfold ndiag_of.
  assert (G : forall samples acc, (0 <= acc)%Z ->
            exists nd,
              for_each (fun (ndiag : Z) '(ispec, w) =>
                          t <- ndiag_term psf dw ispec w ;;
                          Ok (Z.max ndiag t)) samples acc = Ok nd
              /\ (0 <= nd)%Z).
  { induction samples as [|[ispec w] rest IH]; intros acc Hacc;
      cbn [for_each].
    - eauto.
    - rewrite ndiag_term_ok by assumption. cbv beta iota delta [bind].
      apply IH. lia. }
  destruct (G (list_prod [specmin; (specmin + nspec / 2)%Z;
                          (specmin + nspec - 1)%Z]
                         [Psf.wmin psf; 0.5 * (Psf.wmin psf + Psf.wmax psf);
                          Psf.wmax psf]) 0%Z ltac:(lia)) as (nd & -> & Hnd).
  cbv beta iota delta [bind]. rewrite Hs. cbn [fst snd].
  change (Z.of_nat 1 / 2)%Z with 0%Z. f_equal. lia.
Qed.

(** *** The identity matrix *)

Lemma nth_ones n i : (i < n)%nat -> nth i (ones n) 0 = 1.
Proof. intros H. unfold ones. now apply nth_repeat_lt. Qed.

Lemma ones_length n : length (ones n) = n.
Proof. apply repeat_length. Qed.

Lemma transpose_identity n : transpose (identity n) = identity n.
Proof.
  apply (transpose_entries n); [apply identity_square|].
  intros i j Hi Hj. rewrite !entry_identity by assumption.
  now rewrite Nat.eqb_sym.
Qed.

Lemma matvec_identity n (x : vec) :
  length x = n -> matvec (identity n) x = x.
Proof.
  intros Hx. unfold matvec, identity, spdiags. rewrite map_map.
  transitivity (map (fun i => nth i x 0) (seq 0 n));
    [|rewrite <- Hx; apply map_nth_seq].
  apply map_ext_in. intros i Hi. apply in_seq in Hi.
  rewrite dot_indicator_l.
  destruct (Nat.leb_spec 0 i); [|lia].
  destruct (Nat.ltb_spec i (0 + n)); [|lia].
  cbn [andb]. rewrite nth_ones by lia. rewrite Nat.sub_0_r. lra.
Qed.

Lemma sum_axis1_identity n : sum_axis1 (identity n) = ones n.
Proof.
  unfold sum_axis1, identity, spdiags. rewrite map_map.
  transitivity (map (fun _ : nat => 1) (seq 0 n));
    [|rewrite map_const, length_seq; reflexivity].
  apply map_ext_in. intros i Hi. apply in_seq in Hi.
  pose proof (sumn_delta n i (fun _ => 1) ltac:(lia)) as H.
  cbv beta in H. unfold sumn in H.
  fold (ones n). rewrite nth_ones by lia. exact H.
Qed.

Lemma diagonal_identity n : (0 < n)%nat -> diagonal (identity n) = ones n.
Proof.
  intros Hn. unfold diagonal.
  pose proof (identity_square n) as Hs.
  rewrite (square_ncols n _ Hs Hn). unfold nrows. rewrite (proj1 Hs).
  rewrite Nat.min_id.
  transitivity (map (fun _ : nat => 1) (seq 0 n));
    [|rewrite map_const, length_seq; reflexivity].
  apply map_ext_in. intros i Hi. apply in_seq in Hi.
  change (nth i (nth i (identity n) []) 0) with (entry (identity n) i i).
  rewrite entry_identity by lia. now rewrite Nat.eqb_refl.
Qed.

Lemma map_ones (f : R -> R) n : f 1 = 1 -> map f (ones n) = ones n.
Proof. intros H. unfold ones. now rewrite map_repeat, H. Qed.

(** The resolution matrix built from the square root [identity n]. *)
Lemma resolution_of_identity n :
  hadamard (np_outer (map Rinv (sum_axis1 (identity n)))
                     (ones (length (sum_axis1 (identity n))))) (identity n)
  = identity n.
Proof.
  rewrite (VarianceMore.resolution_as_product n) by apply identity_square.
  rewrite sum_axis1_identity, (map_ones Rinv) by apply Rinv_1.
  apply matmul_identity_l, identity_square.
Qed.

Lemma reshape_ok r c (v : vec) :
  (0 <= r)%Z -> (0 <= c)%Z -> len v = (r * c)%Z ->
  reshape r c v = Ok (chunks (Z.to_nat r) (Z.to_nat c) v).
Proof.
  intros Hr Hc Hv. unfold reshape.
  destruct (Z.eqb_spec r (-1)); [lia|].
  destruct (Z.leb_spec 0 r); [|lia]. destruct (Z.leb_spec 0 c); [|lia].
  destruct (Z.eqb_spec (len v) (r * c)); [|lia]. reflexivity.
Qed.

(** *** The patch *)

Lemma identity_patch psf specmin nspec ww xy n :
  Psf.projection_matrix psf (specmin, (specmin + nspec)%Z) ww xy None
  = identity n ->
  (0 < n)%nat -> (0 <= nspec)%Z -> Z.of_nat n = (nspec * len ww)%Z ->
  Gpu.ex2d_patch identity_backend [ones n] [ones n] psf specmin nspec ww xy
                 0 false None
  = Ok (patch_of_ones specmin nspec ww xy n).
Proof.
  intros HA Hn Hns Hsz. unfold Gpu.ex2d_patch. rewrite HA.
  replace (nrows [ones n] * ncols [ones n])%nat with n
    by (cbn [nrows ncols length]; rewrite ones_length; lia).
  unfold ravel. cbn [concat]. rewrite app_nil_r.
  change (spdiags (ones n) n) with (identity n).
  pose proof (identity_square n) as Hs.
  rewrite transpose_identity, !(matmul_identity_l n (identity n) Hs).
  rewrite !(matvec_identity n (ones n)) by apply ones_length.
  cbn [lsqr eigh identity_backend].
  assert (Hl : len (ones n) = (nspec * len ww)%Z)
    by (unfold len at 1; rewrite ones_length; exact Hsz).
  assert (Hw : (0 <= len ww)%Z) by (unfold len; lia).
  rewrite (reshape_ok nspec (len ww) (ones n) Hns Hw Hl).
  cbv beta iota delta [bind].
  unfold nrows. rewrite (proj1 Hs).
  rewrite (map_ones sqrt) by apply sqrt_1.
  rewrite ones_length. change (spdiags (ones n) n) with (identity n).
  rewrite transpose_identity, !(matmul_identity_l n (identity n) Hs).
  rewrite resolution_of_identity.
  rewrite (map_ones (fun x => 1 / x)) by lra.
  change (spdiags (ones n) n) with (identity n).
  rewrite transpose_identity, !(matmul_identity_l n (identity n) Hs).
  unfold len at 2 4. rewrite Nat2Z.id.
  rewrite chunks_concat by (rewrite ones_length; unfold len in Hsz; nia).
  rewrite matvec_identity by apply ones_length.
  rewrite diagonal_identity by assumption.
  rewrite !(reshape_ok nspec (len ww) (ones n) Hns Hw Hl).
  cbv beta iota delta [bind]. unfold len. rewrite Nat2Z.id. reflexivity.
Qed.

Lemma chunks_length : forall r c (v : vec), length (chunks r c v) = r.
Proof.
  induction r as [|r IH]; intros c v; cbn [chunks length];
    [|rewrite IH]; reflexivity.
Qed.

(** The sub-image of a detector of one row is the whole row. *)
Lemma slice_whole {A : Type} (a : list A) : slice 0 (len a) a = a.
Proof.
  unfold slice, clip. change (0 <? 0)%Z with false. cbv iota.
  destruct (Z.ltb_spec (len a) 0); [unfold len in *; lia|].
  rewrite Z.min_id, Z.min_l by (unfold len; lia).
  rewrite Z.sub_0_r. unfold len. rewrite Nat2Z.id.
  cbn [Z.to_nat skipn]. apply firstn_all.
Qed.

Lemma crop_row n : slice2 0 1 0 (Z.of_nat n) [ones n] = [ones n].
Proof.
  unfold slice2. change (slice 0 1 [ones n]) with [ones n].
  cbn [map].
  replace (Z.of_nat n) with (len (ones n))
    by (unfold len; now rewrite ones_length).
  now rewrite slice_whole.
Qed.

(** The first half of the loop body on the detector of one pixel per
    bin: for the patch that starts at the first wavelength, with the
    border bins [nlo] and [nhi] and the wavelengths [ww] that the code
    computes, [ex2d_patch] returns the patch of ones. *)
Lemma extraction_of_ones n wb wa nspec (w : vec) regularize ndecorr wavesize
      dw wlo whi nlo nhi :
  index w 0 = Ok wlo ->
  (if (0 + wavesize <? len w)%Z then index w (0 + wavesize)
   else index w (-1)) = Ok whi ->
  Z.max (py_int ((wlo - wb) / dw) - 1) 0 = nlo ->
  Z.max (py_int ((wa - whi) / dw) - 1) 0 = nhi ->
  let ww := arange_f (wlo - IZR nlo * dw) (whi + (IZR nhi + 0.5) * dw) dw in
  (0 < n)%nat -> (0 <= nspec)%Z -> Z.of_nat n = (nspec * len ww)%Z ->
  patch_extraction (Gpu.variant identity_backend) [ones n] [ones n]
                   (pixel_per_bin_psf n wb wa) 0 nspec w None regularize
                   ndecorr wavesize dw 0 0
  = Ok (patch_of_ones 0 nspec ww (0, Z.of_nat n, 0, 1)%Z n).
Proof.
  intros E1 E2 Hlo Hhi ww Hn Hns Hsz. unfold patch_extraction.
  rewrite E1. cbv beta iota delta [bind]. rewrite E2.
  cbv beta iota zeta delta [bind Psf.xyrange Psf.pix_shape Psf.wavelength
                            pixel_per_bin_psf patch_call Gpu.variant].
  change (0 - Z.of_nat 1 + 2 =? 1)%Z with true.
  change (1 + Z.of_nat 1 - 2 =? 1)%Z with false. cbv iota.
  rewrite Hlo, Hhi. fold ww. rewrite crop_row.
  replace (0 + nspec - 0)%Z with nspec by lia.
  apply identity_patch; [reflexivity|assumption|assumption|assumption].
Qed.

Lemma arange_f_len start stop dw z :
  (0 <= z)%Z -> IZR z - 1 < (stop - start) / dw <= IZR z ->
  len (arange_f start stop dw) = z.
Proof.
  intros Hz H. unfold arange_f, len.
  rewrite length_map, length_seq, (ceil_between _ z H). lia.
Qed.


Lemma step_0_2 : step [0; 2] 0 = 2.
Proof. unfold step. cbn [nth]. lra. Qed.



(** The first patch of 25 spectra on the grid 0, 1: no border bin, 50
    flux bins on 50 pixels. *)
Lemma extraction_of_25 :
  patch_extraction (Gpu.variant identity_backend) [ones 50] [ones 50]
                   (pixel_per_bin_psf 50 0 1) 0 25 [0; 1] None 0 false 50
                   1 0 0
  = Ok (patch_of_ones 0 25
          (arange_f (0 - IZR 0 * 1) (1 + (IZR 0 + 0.5) * 1) 1)
          (0, Z.of_nat 50, 0, 1)%Z 50).
Proof.
  apply (extraction_of_ones 50 0 1 25 [0; 1] 0 false 50 1 0 1 0%Z 0%Z).
  - reflexivity.
  - reflexivity.
  - replace ((0 - 0) / 1) with (IZR 0) by lra. now rewrite py_int_IZR.
  - replace ((1 - 1) / 1) with (IZR 0) by lra. now rewrite py_int_IZR.
  - lia.
  - lia.
  - rewrite (arange_f_len _ _ _ 2); [reflexivity|lia|lra].
Qed.

(** X19 at 25 spectra of two bins on 50 pixels, extracted by the
    iterative engine: the first patch has no bin above its core, and
    stitching it raises. *)
Lemma zero_upper_border_raises_witness :
  1 <> 0 /\ (1 <= 50)%Z /\ (0 <= 0 < Z.of_nat (ncols (zeros2 25 2)))%Z
  /\ index [0; 1] 0 = Ok 0 /\ index [0; 1] (-1) = Ok 1
  /\ (exists out,
        patch_extraction (Gpu.variant identity_backend) [ones 50] [ones 50]
                         (pixel_per_bin_psf 50 0 1) 0 25 [0; 1] None 0 false
                         50 1 0 0 = Ok out
        /\ length (Patch.flux out) = 25%nat)
  /\ patch_step (Gpu.variant identity_backend) [ones 50] [ones 50]
                (pixel_per_bin_psf 50 0 1) 0 25 [0; 1] None 0 false 50 false
                1 0 (zeros2 25 2, zeros2 25 2, repeat (zeros2 1 2) 25) 0
     = Raise ValueError.
Proof.
  assert (Hl : length (Patch.flux
                 (patch_of_ones 0 25
                    (arange_f (0 - IZR 0 * 1) (1 + (IZR 0 + 0.5) * 1) 1)
                    (0, Z.of_nat 50, 0, 1)%Z 50)) = 25%nat)
    by (cbn [Patch.flux patch_of_ones]; apply chunks_length).
  split; [lra|]. split; [lia|]. split; [simpl; lia|]. split; [reflexivity|].
  split; [reflexivity|].
  split; [eexists; split; [exact extraction_of_25|exact Hl]|].
  apply (StitchMore.zero_upper_border_raises
           (Gpu.variant identity_backend) [ones 50] [ones 50]
           (pixel_per_bin_psf 50 0 1) 0 [0; 1] None 0 false 50 false 1
           (zeros2 25 2) (zeros2 25 2) (repeat (zeros2 1 2) 25) 0 0 1 _
           ltac:(lra) ltac:(lia) ltac:(simpl; lia) eq_refl eq_refl
           extraction_of_25 Hl).
  cbv beta iota zeta delta [pixel_per_bin_psf Psf.xyrange Psf.pix_shape
                            Psf.wavelength].
  change (1 + Z.of_nat 1 - 2 =? 1)%Z with false. cbv iota.
  replace ((1 - 1) / 1) with (IZR 0) by lra. rewrite py_int_IZR. lia.
Defined.

(** The first patch of 25 spectra on the grid 0, 2, with one border bin
    on each side: four wavelengths, 100 flux bins on 100 pixels.  The
    step stitches the two core bins of every spectrum, with flux 1,
    variance 1 and the diagonal 1 of the resolution matrix. *)
Lemma step_of_100 :
  patch_step (Gpu.variant identity_backend) [ones 100] [ones 100]
             (pixel_per_bin_psf 100 (-4) 6) 0 25 [0; 2] None 0 false 50 false
             (step [0; 2] 0) 0
             (zeros2 25 2, zeros2 25 2, repeat (zeros2 1 2) 25) 0
  = Ok (repeat [1; 1] 25, repeat [1; 1] 25, repeat [[1; 1]] 25).
Proof.
  unfold patch_step.
  rewrite (eq_refl : index [0; 2] 0 = Ok 0). cbv beta iota delta [bind].
  rewrite (eq_refl : (if Z.ltb (0 + 50) (len [0; 2])
                      then index [0; 2] (0 + 50)%Z
                      else index [0; 2] (-1)%Z) = Ok 2).
  cbv beta iota delta [bind].
  change (Psf.xyrange (pixel_per_bin_psf 100 (-4) 6) _ _)
    with (0, Z.of_nat 100, 0, 1)%Z.
  change (Psf.pix_shape (pixel_per_bin_psf 100 (-4) 6) _ _)
    with (1%nat, 1%nat).
  cbv beta iota zeta.
  change (Psf.wavelength (pixel_per_bin_psf 100 (-4) 6) 0
                         (0 - Z.of_nat 1 + 2)) with (-4).
  change (Psf.wavelength (pixel_per_bin_psf 100 (-4) 6) 0
                         (1 + Z.of_nat 1 - 2)) with 6.
  replace (Z.max (py_int ((0 - -4) / step [0; 2] 0) - 1) 0) with 1%Z.
  2:{ replace ((0 - -4) / step [0; 2] 0) with (IZR 2)
        by (rewrite step_0_2; lra).
      now rewrite py_int_IZR. }
  replace (Z.max (py_int ((6 - 2) / step [0; 2] 0) - 1) 0) with 1%Z.
  2:{ replace ((6 - 2) / step [0; 2] 0) with (IZR 2)
        by (rewrite step_0_2; lra).
      now rewrite py_int_IZR. }
  set (ww := arange_f (0 - IZR 1 * step [0; 2] 0)
                      (2 + (IZR 1 + 0.5) * step [0; 2] 0) (step [0; 2] 0)).
  assert (Hlen : len ww = 4%Z).
  { apply arange_f_len; [lia|]. rewrite step_0_2. lra. }
  assert (Hlen' : length ww = 4%nat) by (unfold len in Hlen; lia).
  clearbody ww.
  cbv beta iota delta [patch_call Gpu.variant band_needs_full_output].
  rewrite crop_row. change (0 + 25 - 0)%Z with 25%Z.
  rewrite (identity_patch (pixel_per_bin_psf 100 (-4) 6) 0 25 ww
             (0, Z.of_nat 100, 0, 1)%Z 100 eq_refl ltac:(lia) ltac:(lia)
             ltac:(rewrite Hlen; reflexivity)).
  cbv beta iota delta [bind patch_of_ones Patch.flux Patch.ivar Patch.Rmat].
  rewrite Hlen, Hlen'. clear.
  reval. reflexivity.
Qed.

Lemma uniform_0_2 : uniform [0; 2].
Proof. intros [|i] Hi; unfold step; simpl in *; try lra; lia. Qed.

(** The run of [ex2d] on that detector: one patch is extracted and
    stitched, and the flux 1 per bin of two wavelength units becomes the
    flux 1/2 per unit. *)
Lemma run_of_100 :
  Gpu.ex2d identity_backend [ones 100] [ones 100]
           (pixel_per_bin_psf 100 (-4) 6) 0 25 [0; 2] None 0 false 50 false
  = Ok (repeat [1 / (2 - 0); 1 / (2 - 0)] 25,
        repeat [1 * ((2 - 0) * ((2 - 0) * 1)); 1 * ((2 - 0) * ((2 - 0) * 1))]
               25,
        repeat [[1; 1]] 25).
Proof.
  unfold Gpu.ex2d, ex2d.
  rewrite (check_grid_uniform [0; 2]) by (simpl; lia || exact uniform_0_2).
  cbv beta iota delta [bind].
  change (np_zeros2 25 (len [0; 2])) with (Ok (zeros2 25 2)).
  cbv beta iota delta [bind].
  rewrite (ndiag_of_one_pixel (pixel_per_bin_psf 100 (-4) 6) 0 25
             (step [0; 2] 0)) by (rewrite ?step_0_2; try lra; reflexivity).
  cbv beta iota delta [bind].
  change (np_zeros3 25 (2 * 0 + 1) (len [0; 2]))
    with (Ok (repeat (zeros2 1 2) 25)).
  change (patch_starts (len [0; 2]) 50) with (Ok [0%Z]).
  cbv beta iota delta [bind]. cbn [for_each].
  rewrite step_of_100. cbv beta iota delta [bind].
  reval. reflexivity.
Qed.

(** The theorem at 25 spectra of two bins, extracted by the iterative
    engine from a detector of 100 pixels: the loop runs one patch of
    four bins, stitches its two core bins with flux 1, and [ex2d]
    returns the flux 1/2 and the inverse variance 4. *)
Lemma uniform_grid_unit_conversion_witness :
  uniform [0; 2]
  /\ exists flux ivar Rd,
       Gpu.ex2d identity_backend [ones 100] [ones 100]
                (pixel_per_bin_psf 100 (-4) 6) 0 25 [0; 2] None 0 false 50
                false = Ok (flux, ivar, Rd)
       /\ exists flux0 ivar0,
            for_each (patch_step (Gpu.variant identity_backend) [ones 100]
                        [ones 100] (pixel_per_bin_psf 100 (-4) 6) 0 25
                        [0; 2] None 0 false 50 false (step [0; 2] 0) 0)
                     [0%Z]
                     (zeros2 (Z.to_nat 25) (length [0; 2]),
                      zeros2 (Z.to_nat 25) (length [0; 2]),
                      repeat (zeros2 (Z.to_nat (2 * 0 + 1)) (length [0; 2]))
                             (Z.to_nat 25))
            = Ok (flux0, ivar0, Rd)
            /\ entry flux0 0 0 = 1 /\ entry ivar0 0 0 = 1
            /\ entry flux 0 0 = 1 / 2 /\ entry ivar 0 0 = 4.
Proof.
  split; [exact uniform_0_2|].
  eexists _, _, _. split; [exact run_of_100|].
  destruct (EngineMore.uniform_grid_unit_conversion
              (Gpu.variant identity_backend) [ones 100] [ones 100]
              (pixel_per_bin_psf 100 (-4) 6) 0 25 [0; 2] None 0 false 50
              _ _ _ uniform_0_2 run_of_100)
    as (ndiag & starts & flux0 & ivar0 & Hnd & Hst & Hrun & Hconv).
  rewrite (ndiag_of_one_pixel (pixel_per_bin_psf 100 (-4) 6) 0 25
             (step [0; 2] 0)) in Hnd
    by (rewrite ?step_0_2; try lra; reflexivity).
  injection Hnd as <-.
  change (patch_starts (len [0; 2]) 50) with (Ok [0%Z]) in Hst.
  injection Hst as <-.
  exists flux0, ivar0. split; [exact Hrun|].
  assert (H0 : flux0 = repeat [1; 1] 25 /\ ivar0 = repeat [1; 1] 25).
  { revert Hrun. cbn [for_each].
    change (zeros2 (Z.to_nat 25) (length [0; 2])) with (zeros2 25 2).
    change (repeat (zeros2 (Z.to_nat (2 * 0 + 1)) (length [0; 2]))
                   (Z.to_nat 25)) with (repeat (zeros2 1 2) 25).
    rewrite step_of_100. intros H. injection H as <- <-. now split. }
  destruct H0 as [-> ->].
  destruct (Hconv 0%nat 0%nat ltac:(simpl; lia)) as [Hf Hi].
  split; [reflexivity|]. split; [reflexivity|].
  split.
  - rewrite Hf, step_0_2. reflexivity.
  - rewrite Hi, step_0_2. cbn [entry nth repeat]. unfold entry. cbn. lra.
Defined.

End RunFacts.
